(** * Kui: URL formatter, remote fetch client and S3 VFS responder

    A shallow embedding of three parts of the Kui shell:
    - [urlFormatterFor], the formatter of controller/client/direct/url.ts;
    - [_needle] and [fetchRemote], the fetch client of lib/util/fetch-file.ts;
    - [S3VFSResponder], the object-storage responder of plugin-s3, whose
      class follows the formatter in the same source file.
    Next to them: [fetchFile] and [fetchRawFiles] of the fetch client, [gzip]
    and [gunzip] of the responder, and [getCurrentPageIdx] of the breadcrumb.
    The failures of the collaborators of the responder are read from a
    wrapper that keeps their list around any world.

    Strings are byte strings (the UTF-8 encoding of the JavaScript string).
    Asynchronous code is written in a state-and-outcome monad: an [async]
    function is a state transformer that ends resolved, rejected, or never
    settles.  External collaborators (the storage client, the REPL, the HTTP
    client, timers) are the fields of a world class over an abstract state. *)

From stdpp Require Import gmap strings list.
From Equations Require Import Equations.
From Stdlib Require Import ZArith Lia DecimalString Ascii.

Open Scope string_scope.
Open Scope list_scope.
Open Scope nat_scope.

(** ** JavaScript built-ins used by the sources *)

Module Js.

Definition char_in (set : string) (c : ascii) : bool :=
  existsb (Ascii.eqb c) (String.list_ascii_of_string set).

Definition is_digit (c : ascii) : bool :=
  let n := N_of_ascii c in ((48 <=? n) && (n <=? 57))%N.

Definition is_upper (c : ascii) : bool :=
  let n := N_of_ascii c in ((65 <=? n) && (n <=? 90))%N.

Definition is_lower (c : ascii) : bool :=
  let n := N_of_ascii c in ((97 <=? n) && (n <=? 122))%N.

(** The characters [encodeURIComponent] leaves alone:
    [A-Z a-z 0-9 - _ . ! ~ * ' ( )]. *)
Definition uri_unreserved (c : ascii) : bool :=
  is_digit c || is_upper c || is_lower c || char_in "-_.!~*'()" c.

Definition hex_digit (n : N) : ascii :=
  nth (N.to_nat n) (String.list_ascii_of_string "0123456789ABCDEF") "0"%char.

Definition pct_encode (c : ascii) : string :=
  let n := N_of_ascii c in
  String "%" (String (hex_digit (n / 16)) (String (hex_digit (n mod 16)) "")).

(** [encodeURIComponent]: every byte of the UTF-8 encoding outside the
    unreserved set becomes [%XX], upper-case hexadecimal. *)
Fixpoint encodeURIComponent (s : string) : string :=
  match s with
  | "" => ""
  | String c r =>
      (if uri_unreserved c then String c "" else pct_encode c)
      +:+ encodeURIComponent r
  end.

(** [String.prototype.toLowerCase], on the ASCII letters. *)
Definition lower_char (c : ascii) : ascii :=
  if is_upper c then ascii_of_N (N_of_ascii c + 32) else c.

Fixpoint toLowerCase (s : string) : string :=
  match s with
  | "" => ""
  | String c r => String (lower_char c) (toLowerCase r)
  end.

(** [/c$/.test(s)] for a single literal character [c]. *)
Fixpoint ends_with_char (c : ascii) (s : string) : bool :=
  match s with
  | "" => false
  | String d "" => Ascii.eqb c d
  | String _ r => ends_with_char c r
  end.

Fixpoint starts_with (p s : string) : bool :=
  match p, s with
  | "", _ => true
  | String a p', String b s' => Ascii.eqb a b && starts_with p' s'
  | _, _ => false
  end.

(** [/lit/.test(s)] for a literal [lit]: [lit] occurs somewhere in [s]. *)
Fixpoint contains (lit s : string) : bool :=
  starts_with lit s ||
  match s with
  | "" => false
  | String _ r => contains lit r
  end.

(** [c] occurs in [s]. *)
Fixpoint occurs (c : ascii) (s : string) : bool :=
  match s with
  | "" => false
  | String d r => Ascii.eqb c d || occurs c r
  end.

(** [Array.prototype.join]. *)
Definition join (sep : string) (l : list string) : string := String.concat sep l.

(** Decimal rendering of an integral number, as in a template literal. *)
Definition number_to_string (z : Z) : string :=
  NilZero.string_of_int (Z.to_int z).

(** [Array.prototype.slice(start, end)], negative indices counting from
    the end of the array. *)
Definition clamp_index (len i : Z) : nat :=
  Z.to_nat (if (i <? 0)%Z then Z.max (len + i) 0 else Z.min i len).

Definition slice {A} (l : list A) (start : Z) (stop : option Z) : list A :=
  let len := Z.of_nat (length l) in
  let from := clamp_index len start in
  let to := match stop with Some e => clamp_index len e | None => length l end in
  take (to - from) (drop from l).

End Js.

(** ** Node's [path] module (POSIX flavour) *)

Module Path.
Import Js.

(** [s.split(sep)] for a one-character separator. *)
Fixpoint split_on (sep : ascii) (s : string) : list string :=
  match s with
  | "" => [""]
  | String c r =>
      if Ascii.eqb c sep then "" :: split_on sep r
      else match split_on sep r with
           | [] => [String c ""]
           | seg :: segs => String c seg :: segs
           end
  end.

(** [normalizeString]: the segments kept, most recent first. *)
Fixpoint normalize_segments (allowAboveRoot : bool) (segs acc : list string) : list string :=
  match segs with
  | [] => acc
  | seg :: rest =>
      if String.eqb seg "" || String.eqb seg "." then
        normalize_segments allowAboveRoot rest acc
      else if String.eqb seg ".." then
        match acc with
        | last :: acc' =>
            if String.eqb last ".." then
              normalize_segments allowAboveRoot rest
                (if allowAboveRoot then ".." :: acc else acc)
            else normalize_segments allowAboveRoot rest acc'
        | [] =>
            normalize_segments allowAboveRoot rest
              (if allowAboveRoot then [".."] else [])
        end
      else normalize_segments allowAboveRoot rest (seg :: acc)
  end.

Definition normalize (path : string) : string :=
  if String.eqb path "" then "."
  else
    let isAbsolute := starts_with "/" path in
    let trailingSeparator := ends_with_char "/" path in
    let p := join "/" (rev (normalize_segments (negb isAbsolute) (split_on "/" path) [])) in
    if String.eqb p "" then
      if isAbsolute then "/" else if trailingSeparator then "./" else "."
    else
      let p' := if trailingSeparator then p +:+ "/" else p in
      if isAbsolute then "/" +:+ p' else p'.

(** [path.join(...args)] *)
Definition join_path (args : list string) : string :=
  match filter (fun a => negb (String.eqb a "")) args with
  | [] => "."
  | parts => normalize (join "/" parts)
  end.

(** [path.basename(path)]: the last segment, trailing slashes ignored. *)
Definition basename (path : string) : string :=
  match filter (fun a => negb (String.eqb a "")) (rev (split_on "/" path)) with
  | [] => ""
  | seg :: _ => seg
  end.

End Path.

(** ** The URL formatter (controller/client/direct/url.ts) *)

Module Url.
Import Js.

(** A value of [parsedOptions], as the command-line parser produces it. *)
Inductive optval :=
| OUndefined
| OBool (b : bool)
| ONum (z : Z)
| OStr (s : string)
| OArr (l : list string).

Definition truthy (v : optval) : bool :=
  match v with
  | OUndefined => false
  | OBool b => b
  | ONum z => negb (z =? 0)%Z
  | OStr s => negb (String.eqb s "")
  | OArr _ => true
  end.

(** String conversion of a non-array option value. *)
Definition optval_to_string (v : optval) : string :=
  match v with
  | OUndefined => "undefined"
  | OBool true => "true"
  | OBool false => "false"
  | ONum z => number_to_string z
  | OStr s => s
  | OArr l => join "," l
  end.

Definition get (po : gmap string optval) (key : string) : optval :=
  default OUndefined (po !! key).

Record Explained := {
  kind : string;
  version : string;
  isClusterScoped : bool
}.

Section Formatter.
(** [getLabel] and [isForAllNamespaces] live in kubectl/options, which is
    not part of the sources at hand: they are parameters here. *)
Variable getLabel : gmap string optval -> optval.
Variable isForAllNamespaces : gmap string optval -> bool.

Definition kindOnPath (e : Explained) : string :=
  "/" +:+ encodeURIComponent
            (toLowerCase (kind e) +:+ (if ends_with_char "s" (kind e) then "" else "s")).

Definition apiOnPath (e : Explained) : string :=
  if String.eqb (version e) "v1" then "api/v1"
  else "apis/" +:+ encodeURIComponent (version e).

Definition namespaceOnPath (namespace : string) (po : gmap string optval)
    (e : Explained) : string :=
  if isForAllNamespaces po then ""
  else if String.eqb (kind e) "Namespace" then ""
  else if isClusterScoped e then ""
  else "/namespaces/" +:+ encodeURIComponent namespace.

Definition labelTerm (query : string) : string :=
  "labelSelector=" +:+ encodeURIComponent query.

(** The [labelSelector] terms pushed onto [queries]. *)
Definition labelQueries (po : gmap string optval) : list string :=
  let label := getLabel po in
  if truthy label then
    match label with
    | OArr l => map labelTerm l
    | v => [labelTerm (optval_to_string v)]
    end
  else [].

Definition fieldQueries (po : gmap string optval) : list string :=
  match get po "field-selector" with
  | OStr s => if String.eqb s "" then [] else ["fieldSelector=" +:+ encodeURIComponent s]
  | _ => []
  end.

Definition limitQueries (po : gmap string optval) : list string :=
  match get po "limit" with
  | ONum z => ["limit=" +:+ number_to_string z]
  | _ => []
  end.

Definition queries (po : gmap string optval) : list string :=
  labelQueries po ++ fieldQueries po ++ limitQueries po.

(** [urlFormatterFor namespace { parsedOptions } explained] is the closure
    [(includeKind, includeQueries, name) => url]. *)
Definition urlFormatterFor (namespace : string) (po : gmap string optval)
    (e : Explained) (includeKind includeQueries : bool) (name : option string)
    : string :=
  "kubernetes:///" +:+ apiOnPath e +:+ namespaceOnPath namespace po e
  +:+ (if negb includeKind then "" else kindOnPath e)
  +:+ (match name with
       | None => ""
       | Some n => if String.eqb n "" then "" else "/" +:+ encodeURIComponent n
       end)
  +:+ (if negb includeQueries || (length (queries po) =? 0)%nat then ""
       else "?" +:+ join "&" (queries po)).

End Formatter.

(** The simple readings of the two option helpers, for the examples:
    [-l] carries the label selectors, [-A] asks for all namespaces. *)
Definition label_of (po : gmap string optval) : optval := get po "l".
Definition all_namespaces_of (po : gmap string optval) : bool := truthy (get po "A").

Definition deployment : Explained :=
  {| kind := "Deployment"; version := "apps/v1"; isClusterScoped := false |}.

End Url.

(** ** Promises and asynchronous functions *)

Module Async.

(** A JavaScript error object: its message and the two fields on which
    the sources look for a status code. *)
Record error := mkError {
  message : string;
  code : option string;
  httpstatuscode : option string
}.

(** [new Error(msg)] *)
Definition Error (msg : string) : error :=
  {| message := msg; code := None; httpstatuscode := None |}.

(** [err.code === c] *)
Definition has_code (err : error) (c : string) : bool :=
  match code err with
  | Some c' => String.eqb c' c
  | None => false
  end.

(** [a || b] on two optional codes: the empty string is falsy. *)
Definition or_code (a b : option string) : option string :=
  match a with
  | Some c => if String.eqb c "" then b else a
  | None => b
  end.

(** The [CodedError] the responder builds from an upstream error:
    [new Error(err.message)] with [code = err.httpstatuscode || err.code]. *)
Definition coded (err : error) : error :=
  {| message := message err;
     code := or_code (httpstatuscode err) (code err);
     httpstatuscode := None |}.

(** How a promise ends: resolved, rejected, or never settled. *)
Inductive outcome (A : Type) :=
| Resolved (a : A)
| Rejected (e : error)
| Pending.
Arguments Resolved {A} a.
Arguments Rejected {A} e.
Arguments Pending {A}.

(** An asynchronous computation over a state [S]. *)
Definition M (S A : Type) : Type := S -> outcome A * S.

Definition ret {S A} (a : A) : M S A := fun s => (Resolved a, s).

Definition throw {S A} (e : error) : M S A := fun s => (Rejected e, s).

Definition bind {S A B} (m : M S A) (k : A -> M S B) : M S B :=
  fun s =>
    match m s with
    | (Resolved a, s') => k a s'
    | (Rejected e, s') => (Rejected e, s')
    | (Pending, s') => (Pending, s')
    end.

(** [try { m } catch (err) { h err }], also [m.catch(h)]. *)
Definition catch {S A} (m : M S A) (h : error -> M S A) : M S A :=
  fun s =>
    match m s with
    | (Rejected e, s') => h e s'
    | r => r
    end.

(** Calling an async function without awaiting it: the call runs, and the
    promise it returns is kept as a value. *)
Definition start {S A} (m : M S A) : M S (outcome A) :=
  fun s => let '(o, s') := m s in (Resolved o, s').

(** [await p] on a promise obtained from [start]. *)
Definition await {S A} (p : outcome A) : M S A := fun s => (p, s).

(** The settlement of [Promise.all] over already-run promises: rejected as
    soon as one is (here the first in list order), pending while one is
    pending, resolved with all the values otherwise. *)
Fixpoint first_rejected {A} (l : list (outcome A)) : option error :=
  match l with
  | [] => None
  | Rejected e :: _ => Some e
  | _ :: r => first_rejected r
  end.

Fixpoint all_resolved {A} (l : list (outcome A)) : option (list A) :=
  match l with
  | [] => Some []
  | Resolved a :: r => option_map (cons a) (all_resolved r)
  | _ :: _ => None
  end.

Definition settle_all {A} (l : list (outcome A)) : outcome (list A) :=
  match first_rejected l with
  | Some e => Rejected e
  | None =>
      match all_resolved l with
      | Some vs => Resolved vs
      | None => Pending
      end
  end.

(** Every task is started, in list order; none is cancelled when another
    one fails.  A task runs to its settlement before the next one starts:
    where the tasks make several calls each, the program may have the calls
    answered in another order, and what is proved of such tasks does not
    depend on the order. *)
Fixpoint run_all {S A} (tasks : list (M S A)) (s : S) : list (outcome A) * S :=
  match tasks with
  | [] => ([], s)
  | t :: r =>
      let '(o, s1) := t s in
      let '(os, s2) := run_all r s1 in
      (o :: os, s2)
  end.

(** [Promise.all(tasks)] *)
Definition promise_all {S A} (tasks : list (M S A)) : M S (list A) :=
  fun s => let '(os, s') := run_all tasks s in (settle_all os, s').

Declare Scope async_scope.
Delimit Scope async_scope with async.
Notation "x <- m ;; k" := (bind m (fun x => k))
  (at level 100, m at next level, right associativity) : async_scope.
Notation "m ;;; k" := (bind m (fun _ => k))
  (at level 100, right associativity) : async_scope.

End Async.

(** ** The remote fetch client (lib/util/fetch-file.ts) *)

Module FetchFile.
Import Js Async.
Local Open Scope async_scope.

(** A response body or a command result: [string | object], or [undefined]. *)
Inductive jsvalue :=
| VUndefined
| VString (s : string)
| VObject (json : string).

Inductive method := Get | Put | Post | Delete.

Record FetchOptions := {
  returnErrors : bool;
  data : jsvalue;
  headers : option (list (string * string));
  fetch_method : option method
}.

Record response := { statusCode : Z; body : jsvalue }.

(** What the client does to the outside, in the order it does it. *)
Inductive event :=
| ENeedle (m : method) (url : string) (hdrs : list (string * string))
| EProxyState
| ESleep (ms : nat)
| ERexec (command : string).

(** The collaborators of the client: the execution context (fixed when
    the process starts), the HTTP client [needle], the kubectl proxy state,
    the REPL's remote execution and the timers. *)
Class World (W : Type) := {
  inBrowser : bool;
  hasProxy : bool;
  needle : method -> string -> jsvalue -> list (string * string) -> W -> outcome response * W;
  getProxyState : W -> outcome string * W;
  rexec : string -> option FetchOptions -> W -> outcome (list jsvalue) * W;
  setTimeout : nat -> W -> W;
  encodeComponent : string -> string;
  strings : string -> string
}.

Record state (W : Type) := mkState { world : W; trace : list event }.
Arguments mkState {W} world trace.
Arguments world {W} s.
Arguments trace {W} s.

(** Maximum number of times to retry on ECONNREFUSED *)
Definition MAX_ECONNREFUSED_RETRIES : nat := 10.

Definition kubernetesScheme : string := "kubernetes://".

Section Client.
Context {W : Type} `{World W}.

(** An external call: it acts on the world and is recorded in the trace. *)
Definition call {A} (ev : event) (op : W -> outcome A * W) : M (state W) A :=
  fun s =>
    let '(o, w) := op (world s) in
    (o, mkState w (trace s ++ [ev])).

(** [new Promise(resolve => setTimeout(resolve, ms))] *)
Definition sleep (ms : nat) : M (state W) unit :=
  call (ESleep ms) (fun w => (Resolved tt, setTimeout ms w)).

(** Instantiate a kubernetes:// scheme with the current kubectl proxy state *)
Definition rescheme (url : string) : M (state W) string :=
  if starts_with kubernetesScheme url then
    baseUrl <- call EProxyState getProxyState ;;
    ret (baseUrl +:+ String.substring 13 (String.length url - 13) url)
  else ret url.

(** [Object.assign(target, source)] on objects kept as association lists:
    a property of [source] overwrites the one of [target] in place, or is
    added at the end. *)
Fixpoint assign_property (target : list (string * string)) (k v : string)
    : list (string * string) :=
  match target with
  | [] => [(k, v)]
  | (k', v') :: rest =>
      if String.eqb k k' then (k, v) :: rest else (k', v') :: assign_property rest k v
  end.

Definition Object_assign (target source : list (string * string)) : list (string * string) :=
  foldl (fun t kv => assign_property t (fst kv) (snd kv)) target source.

(** [Object.assign({ connection: 'keep-alive' }, opts.headers)] *)
Definition request_headers (o : FetchOptions) : list (string * string) :=
  Object_assign [("connection", "keep-alive")] (default [] (headers o)).

(** [(opts && opts.method) || 'get'], for options that are defined. *)
Definition request_method (o : FetchOptions) : method :=
  default Get (fetch_method o).

(** The body of the [try] block: one request through needle, with the
    options [json: true] and [follow_max: 10] and the headers. *)
Definition needle_once (url : string) (o : FetchOptions)
    : M (state W) (option response) :=
  uri <- rescheme url ;;
  r <- call (ENeedle (request_method o) uri (request_headers o))
         (needle (request_method o) uri (data o) (request_headers o)) ;;
  ret (Some {| statusCode := statusCode r; body := body r |}).

Definition is_ECONNREFUSED (err : error) : bool := has_code err "ECONNREFUSED".

(** [opts.headers] when [opts] is undefined. *)
Definition TypeError_headers : error :=
  Error "Cannot read properties of undefined (reading 'headers')".

Equations? _needle (url : string) (opts : option FetchOptions) (retryCount : nat)
    (s : state W) : outcome (option response) * state W
    by wf (MAX_ECONNREFUSED_RETRIES - retryCount) lt :=
  _needle url opts retryCount s :=
    if negb inBrowser then
      match opts with
      | None => (Rejected TypeError_headers, s)
      | Some o =>
          match needle_once url o s with
          | (Rejected err, s1) =>
              match is_ECONNREFUSED err, lt_dec retryCount MAX_ECONNREFUSED_RETRIES with
              | true, left _ =>
                  (* retrying due to ECONNREFUSED *)
                  _needle url opts (retryCount + 1) (snd (sleep 50 s1))
              | _, _ => (Rejected err, s1)
              end
          | r => r
          end
      end
    else if inBrowser then
      (* have the kui proxy do this *)
      if negb hasProxy then
        (Rejected (Error (strings "Unable to fetch remote file")), s)
      else
        (content <- call (ERexec ("_fetchfile " +:+ encodeComponent url))
                      (rexec ("_fetchfile " +:+ encodeComponent url) opts) ;;
         ret (Some {| statusCode := 200; body := nth 0 content VUndefined |})) s
    else (Resolved None, s).
Proof. lia. Qed.

(** [_.body] on the result of [_needle]. *)
Definition TypeError_body : error :=
  Error "Cannot read properties of undefined (reading 'body')".

Definition fetchOnce (url : string) (opts : option FetchOptions) : M (state W) jsvalue :=
  r <- (fun s => _needle url opts 0 s) ;;
  match r with
  | Some r => ret (body r)
  | None => throw TypeError_body
  end.

Definition is_timeout_class (err : error) : bool :=
  contains "timeout" (message err)
  || contains "hang up" (message err)
  || contains "hangup" (message err).

Definition retry (url : string) (opts : option FetchOptions) (delay : nat)
    (err : error) : M (state W) jsvalue :=
  if is_timeout_class err then
    sleep delay ;;; fetchOnce url opts
  else throw err.

(** fetch with three retries *)
Definition fetchRemote (url : string) (opts : option FetchOptions) : M (state W) jsvalue :=
  catch (catch (catch (fetchOnce url opts)
                      (retry url opts 500))
               (retry url opts 1000))
        (retry url opts 5000).

(** The delays of the timers recorded in a trace, added up. *)
Fixpoint waited (t : list event) : nat :=
  match t with
  | [] => 0
  | ESleep ms :: r => ms + waited r
  | _ :: r => waited r
  end.

(** The state reached after [k] requests in a row were refused, each
    followed by the 50ms timer; [None] when the requests do not go that way. *)
Fixpoint after_refusals (url : string) (o : FetchOptions) (k : nat) (s : state W)
    : option (state W) :=
  match k with
  | 0 => Some s
  | S k' =>
      match needle_once url o s with
      | (Rejected err, s1) =>
          if is_ECONNREFUSED err then after_refusals url o k' (snd (sleep 50 s1))
          else None
      | _ => None
      end
  end.

(** An outcome the backoff policy does not retry: anything but a failure of
    the timeout class. *)
Definition not_retried {A} (o : outcome A) : bool :=
  match o with
  | Rejected err => negb (is_timeout_class err)
  | _ => true
  end.

Definition is_ENeedle (ev : event) : bool :=
  match ev with
  | ENeedle _ _ _ => true
  | _ => false
  end.

End Client.
End FetchFile.


(** ** The object-storage responder (class [S3VFSResponder]) *)

Module S3.
Import Js Path Async.
Local Open Scope async_scope.

(** *** Data *)

(** An entry of an object listing, as the storage client streams it. *)
Record BucketItem := {
  item_name : string;
  item_size : Z;
  lastModified : Z
}.

(** A directory entry.  The constant fields of the source ([mode: 0], the
    user and group ids, [isSymbolicLink], [isSpecial], [isExecutable],
    [permissions]) are left out. *)
Record DirEntry := {
  name : string;
  path : string;
  size : Z;
  mtimeMs : Z;
  nameForDisplay : string;
  isFile : bool;
  isDirectory : bool
}.

(** An element of the answer of [vfs ls]. *)
Record GlobStats := { gs_path : string }.

(** A readable stream: its [data] events, then the event that ends it. *)
Inductive stream_end :=
| SEnd
| SClose
| SError (err : error).

Record stream (A : Type) := mkStream { chunks : list A; ending : stream_end }.
Arguments mkStream {A} chunks ending.
Arguments chunks {A} s.
Arguments ending {A} s.

(** The answer of [fs.stat]. *)
Inductive stat_result :=
| StatError (err : error)
| Stats (is_directory : bool).

(** A responder is created from a provider: its mount name and end point. *)
Record Provider := { mountName : string; endPoint : string }.

(** A VFS as [cp] sees its source providers: the capability tags, and the
    provider behind it when it is an S3 responder. *)
Record VFS := { tags : list string; provider : Provider }.

(** The command-line flags the responder reads. *)
Record ParsedOptions := {
  opt_d : bool;
  opt_P : bool;
  opt_s : bool;
  opt_c : bool;
  opt_l : bool
}.

(** What one copy strategy returns: a message, or the table of a scale-out
    run. *)
Inductive copy_result :=
| CopyMessage (s : string)
| CopyProgress (table : string).

Inductive cp_result :=
| CpFetched (s : string)
| CpAll (results : list copy_result).

Inductive rm_result :=
| RmTrue
| RmMessage (s : string).

Inductive grep_result :=
| GrepCount (n : nat)
| GrepFiles (files : list (option string))
| GrepMatches (perFile : list string).

Record FStat := {
  viewer : string;
  filepath : string;
  fullpath : string;
  fstat_isDirectory : bool;
  fstat_data : string
}.

(** What the responder does to the outside, in the order it does it.  The
    two listing calls are recorded with the answer of the storage client. *)
Inductive event :=
| ListBuckets (mount : string) (answer : outcome (list string))
| ListObjects (mount bucket : string) (prefix : option string) (recursive : bool)
    (answer : outcome (stream BucketItem))
| FPutObject (mount bucket object file : string) (public : bool)
| FGetObject (mount bucket object file : string)
| CopyObject (mount bucket object source : string)
| GetObject (mount bucket object : string)
| PutObject (mount bucket object : string)
| RemoveObjects (mount bucket : string) (objects : list string)
| RemoveBucket (mount bucket : string)
| MakeBucket (mount bucket : string)
| Rexec (command : string)
| RunWithProgress (commands : list string)
| RunWithLogs (commands : list string)
| Stat (file : string)
| ConsoleError (msg : string).

(** The collaborators of the responder.  The storage client of each
    provider is addressed by the provider's mount name. *)
Class World (W : Type) := {
  listBuckets_ : string -> W -> outcome (list string) * W;
  listObjects_ : string -> string -> option string -> bool -> W -> outcome (stream BucketItem) * W;
  fPutObject_ : string -> string -> string -> string -> bool -> W -> outcome string * W;
  fGetObject_ : string -> string -> string -> string -> W -> outcome unit * W;
  copyObject_ : string -> string -> string -> string -> W -> outcome string * W;
  getObject_ : string -> string -> string -> W -> outcome (stream string) * W;
  putObject_ : string -> string -> string -> stream string -> W -> outcome string * W;
  removeObjects_ : string -> string -> list string -> W -> outcome unit * W;
  removeBucket_ : string -> string -> W -> outcome unit * W;
  makeBucket_ : string -> string -> W -> outcome unit * W;
  rexec_ : string -> W -> outcome (list GlobStats) * W;
  runWithProgress_ : list string -> W -> outcome string * W;
  runWithLogs_ : list string -> W -> outcome (list string) * W;
  stat_ : string -> W -> stat_result * W;
  isMatch : string -> string -> bool;
  encodeComponent : string -> string;
  strings : string -> list string -> string
}.

Record state (W : Type) := mkState { world : W; trace : list event }.
Arguments mkState {W} world trace.
Arguments world {W} s.
Arguments trace {W} s.

Definition S3_TAG : string := "s3".
Definition baseMountPath : string := "/s3".

(** *** The path grammar *)

Fixpoint take_while (p : ascii -> bool) (s : string) : string :=
  match s with
  | "" => ""
  | String c r => if p c then String c (take_while p r) else ""
  end.

Fixpoint drop_while (p : ascii -> bool) (s : string) : string :=
  match s with
  | "" => ""
  | String c r => if p c then drop_while p r else s
  end.

Definition drop_prefix (n : nat) (s : string) : string :=
  String.substring n (String.length s - n) s.

(** The line terminators, which [.] does not match: LF, CR, U+2028, U+2029. *)
Definition at_line_terminator (s : string) : bool :=
  starts_with (String (ascii_of_N 10) "") s
  || starts_with (String (ascii_of_N 13) "") s
  || starts_with (String (ascii_of_N 226) (String (ascii_of_N 128) (String (ascii_of_N 168) ""))) s
  || starts_with (String (ascii_of_N 226) (String (ascii_of_N 128) (String (ascii_of_N 169) ""))) s.

(** What a greedy "any characters" group captures at the head of [s]. *)
Fixpoint dot_star (s : string) : string :=
  match s with
  | "" => ""
  | String c r => if at_line_terminator s then "" else String c (dot_star r)
  end.

(** What an optional [\/?] consumes at the head of [s]. *)
Definition optional_slash (s : string) : string :=
  if starts_with "/" s then "/" else "".

(** The match of [filepath] against the grammar of [split]: a run of
    characters other than a slash, an optional slash, the rest of the line,
    an optional star.  The two groups, or [None] when the match is [null]. *)
Definition match_split (filepath : string) : option (string * string) :=
  let s := drop_while (char_in "/") filepath in
  if String.eqb s "" then None
  else
    let bucketName := take_while (fun c => negb (char_in "/" c)) s in
    let rest := drop_prefix (String.length bucketName) s in
    let rest := drop_prefix (String.length (optional_slash rest)) rest in
    Some (bucketName, dot_star rest).

(** The match of [filepath] against the grammar of [listObjects]: a run of
    characters other than slash, star and brace; an optional slash; a run of
    characters other than star and brace; the rest of the line. *)
Definition match_listing (filepath : string) : option (string * string * string * string) :=
  let s := drop_while (char_in "/*{") filepath in
  if String.eqb s "" then None
  else
    let bucketName := take_while (fun c => negb (char_in "/*{" c)) s in
    let rest := drop_prefix (String.length bucketName) s in
    let bucketNameSlash := optional_slash rest in
    let rest := drop_prefix (String.length bucketNameSlash) rest in
    let prefix := take_while (fun c => negb (char_in "*{" c)) rest in
    let rest := drop_prefix (String.length prefix) rest in
    Some (bucketName, bucketNameSlash, prefix, dot_star rest).

(** The operators of a regular expression. *)
Definition is_regex_operator (c : ascii) : bool :=
  char_in "\^$.|?*+()[]{}" c.

(** [s] holds no operator: as a pattern it matches the text [s] and no
    other.  The prefix pattern of a responder is built from its mount path
    as it is; where the mount path is such a text, the pattern matches the
    mount path itself at the start of a path. *)
Definition regex_literal (s : string) : bool :=
  forallb (fun c => negb (is_regex_operator c)) (String.list_ascii_of_string s).

(** Destructuring the [null] of a failed match. *)
Definition TypeError_not_iterable : error :=
  Error "object null is not iterable (cannot read property Symbol(Symbol.iterator))".

(** The number of bytes of the UTF-8 sequence that starts with [c], and
    [0] when the sequence is one of four bytes, which is two code units. *)
Definition code_unit_bytes (c : ascii) : nat :=
  let n := N_of_ascii c in
  if (n <? 128)%N then 1 else if (n <? 224)%N then 2 else if (n <? 240)%N then 3 else 0.

(** [/index.html$/.test(s)]: the dot stands for one code unit that is not a
    line terminator. *)
Fixpoint ends_index_html (s : string) : bool :=
  match s with
  | "" => false
  | String _ r =>
      (starts_with "index" s
       && match drop_prefix 5 s with
          | "" => false
          | String c _ as t =>
              negb (at_line_terminator t)
              && negb (code_unit_bytes c =? 0)%nat
              && String.eqb (drop_prefix (code_unit_bytes c) t) "html"
          end)
      || ends_index_html r
  end.

(** [s.length]: the number of UTF-16 code units of the string whose UTF-8
    encoding is [s]. *)
Fixpoint js_length (s : string) : nat :=
  match s with
  | "" => 0
  | String c r =>
      let n := N_of_ascii c in
      ((if (128 <=? n)%N && (n <? 192)%N then 0
        else if (240 <=? n)%N then 2 else 1) + js_length r)%nat
  end.

(** [l.filter((_, idx) => keep idx)] *)
Definition filter_index {A} (keep : nat -> bool) (l : list A) : list A :=
  concat (imap (fun idx a => if keep idx then [a] else []) l).

(** *** The responder *)

Section Responder.
Context {W : Type} `{World W}.

(** An external call: it acts on the world and is recorded in the trace. *)
Definition call {A} (ev : event) (op : W -> outcome A * W) : M (state W) A :=
  fun s =>
    let '(o, w) := op (world s) in
    (o, mkState w (trace s ++ [ev])).

(** An external call recorded together with its answer. *)
Definition ask {A} (ev : outcome A -> event) (op : W -> outcome A * W) : M (state W) A :=
  fun s =>
    let '(o, w) := op (world s) in
    (o, mkState w (trace s ++ [ev o])).

Definition console_error (msg : string) : M (state W) unit :=
  fun s => (Resolved tt, mkState (world s) (trace s ++ [ConsoleError msg])).

Definition pending {A} : M (state W) A := fun s => (Pending, s).

Definition mountPath (this : Provider) : string :=
  join_path [baseMountPath; mountName this].

(** [filepath.replace(this.s3Prefix, '')], the prefix being the mount path
    and an optional slash at the start of the path.  The mount path is taken
    literally, which is how the pattern reads a mount path that is
    [regex_literal]: mount names are free of regular-expression operators. *)
Definition strip_s3Prefix (this : Provider) (filepath : string) : string :=
  if starts_with (mountPath this) filepath then
    let rest := drop_prefix (String.length (mountPath this)) filepath in
    drop_prefix (String.length (optional_slash rest)) rest
  else filepath.

Definition isS3Provider (vfs : option VFS) : bool :=
  match vfs with
  | Some v => existsb (String.eqb S3_TAG) (tags v)
  | None => false
  end.

(** [split]: bucket name and file name of a path, or the [TypeError] of
    destructuring a failed match. *)
Definition split_path (this : Provider) (filepath : string) : option (string * string) :=
  match_split (strip_s3Prefix this filepath).

Definition split (this : Provider) (filepath : string) : M (state W) (string * string) :=
  match split_path this filepath with
  | Some r => ret r
  | None => throw TypeError_not_iterable
  end.

Definition bucketEntry (this : Provider) (bucket : string) : DirEntry :=
  {| name := bucket;
     path := join_path [mountPath this; bucket];
     size := 0;
     mtimeMs := 0;
     nameForDisplay := bucket;
     isFile := false;
     isDirectory := true |}.

(** Degenerate case for `ls /s3`: list all buckets *)
Definition listBuckets (this : Provider) : M (state W) (list DirEntry) :=
  buckets <- ask (ListBuckets (mountName this)) (listBuckets_ (mountName this)) ;;
  ret (map (bucketEntry this) buckets).

Definition listBucketsMatching (this : Provider) (pattern : string)
    : M (state W) (list DirEntry) :=
  allBuckets <- listBuckets this ;;
  ret (filter (fun e => isMatch (name e) pattern) allBuckets).

Definition objectEntry (this : Provider) (bucketName : string) (displayFullPath : bool)
    (o : BucketItem) : DirEntry :=
  let p := join_path [mountPath this; bucketName; item_name o] in
  {| name := item_name o;
     path := p;
     size := item_size o;
     mtimeMs := lastModified o;
     nameForDisplay := if displayFullPath then p else item_name o;
     isFile := true;
     isDirectory := false |}.

(** The test of the [data] handler. *)
Definition object_matches (prefix pattern : string) (o : BucketItem) : bool :=
  (String.eqb pattern "" && String.eqb (item_name o) prefix)
  || (negb (String.eqb pattern "") && isMatch (item_name o) (prefix +:+ pattern)).

(** The promise over the object stream: [end] and [close] resolve with the
    entries collected so far, [error] rejects with a coded error. *)
Definition collectObjects (this : Provider) (bucketName prefix pattern : string)
    (displayFullPath : bool) (objectStream : stream BucketItem)
    : M (state W) (list DirEntry) :=
  let objects :=
    map (objectEntry this bucketName displayFullPath)
        (filter (object_matches prefix pattern) (chunks objectStream)) in
  match ending objectStream with
  | SEnd | SClose => ret objects
  | SError err =>
      console_error "Error in S3Vfs.listObjects" ;;;
      throw {| message := if String.eqb (message err) "" then "Error listing s3 objects"
                          else message err;
               code := or_code (httpstatuscode err) (code err);
               httpstatuscode := None |}
  end.

(** Enumerate objects with a suffix wildcard, e.g. C* *)
Definition listObjectsMatching (this : Provider) (bucketName prefix pattern : string)
    (displayFullPath : bool) : M (state W) (list DirEntry) :=
  p <- catch
         (objectStream <- ask (ListObjects (mountName this) bucketName (Some prefix) false)
                            (listObjects_ (mountName this) bucketName (Some prefix) false) ;;
          start (collectObjects this bucketName prefix pattern displayFullPath objectStream))
         (fun err => throw (Error (message err))) ;;
  await p.

(** Enumerate matching objects *)
Definition listObjects (this : Provider) (filepath : string) (dashD : bool)
    : M (state W) (list DirEntry) :=
  match match_listing filepath with
  | None => throw TypeError_not_iterable
  | Some (bucketName, bucketNameSlash, prefix, wildcardSuffix) =>
      let pattern :=
        if (String.length prefix =? 0)%nat
           && ((String.length wildcardSuffix =? 0)%nat || String.eqb wildcardSuffix "*")
        then "*" (* e.g. ls /s3/myBucket *)
        else wildcardSuffix (* e.g. ls /s3/myBucket/he*lo *) in
      if String.eqb bucketNameSlash "" && dashD then
        (* ls -d /s3/myBuck* *)
        listBucketsMatching this filepath
      else if String.eqb bucketNameSlash "" then
        (* ls /s3/myBuck* *)
        buckets <- listBucketsMatching this filepath ;;
        r <- promise_all
               (map (fun bucketEntry =>
                       listObjectsMatching this (name bucketEntry) prefix pattern false)
                    buckets) ;;
        ret (concat r)
      else
        (* ls /s3/myBucket/myObj* *)
        listObjectsMatching this bucketName prefix pattern false
  end.

(** Enumerate the objects specified by the given filepath.  The promise of
    [listBuckets] is returned from inside the [try] without being awaited,
    so the [catch] of [dirstat] does not see its rejection; the listing of
    objects is awaited inside the [try]. *)
Definition dirstat (this : Provider) (filepath : string) (dashD : bool)
    : M (state W) (list DirEntry) :=
  p <- catch
         (if (String.length filepath =? 0)%nat then
            start (catch (listBuckets this)
                         (fun err => console_error (message err) ;;;
                                     throw (Error (message err))))
          else
            res <- listObjects this filepath dashD ;;
            ret (Resolved res))
         (fun err => console_error "Error in S3VFS.ls" ;;; ret (Resolved [])) ;;
  await p.

Definition ls (this : Provider) (parsedOptions : ParsedOptions) (filepaths : list string)
    : M (state W) (list DirEntry) :=
  r <- promise_all
         (map (fun filepath =>
                 dirstat this (strip_s3Prefix this filepath) (opt_d parsedOptions))
              filepaths) ;;
  ret (concat r).

(** The command that resolves source paths: [vfs ls] and the encoded paths. *)
Definition vfs_ls (srcFilepaths : list string) : string :=
  "vfs ls " +:+ join " " (map encodeComponent srcFilepaths).

Definition resolve_sources (srcFilepaths : list string) : M (state W) (list GlobStats) :=
  call (Rexec (vfs_ls srcFilepaths)) (rexec_ (vfs_ls srcFilepaths)).

(** [a || b] on strings: the empty string is falsy. *)
Definition or_string (a b : string) : string :=
  if String.eqb a "" then b else a.

(** Upload one or more object. We consult the `vfs ls` API to enumerate the
    source files. If parsedOptions.P is provided, we set the uploaded objects
    to public. *)
Definition fPutObject (this : Provider) (parsedOptions : ParsedOptions)
    (srcFilepaths : list string) (dstFilepath : string) : M (state W) string :=
  sources <- start (resolve_sources srcFilepaths) ;;
  bf <- split this dstFilepath ;;
  let '(bucketName, fileName) := bf in
  srcs <- await sources ;;
  etags <- promise_all
             (map (fun src =>
                     let object := or_string fileName (basename (gs_path src)) in
                     call (FPutObject (mountName this) bucketName object (gs_path src)
                                      (opt_P parsedOptions))
                          (fPutObject_ (mountName this) bucketName object (gs_path src)
                                       (opt_P parsedOptions)))
                  srcs) ;;
  if opt_P parsedOptions then
    let endPoint :=
      if starts_with "http" (endPoint this) then endPoint this
      else "https://" +:+ endPoint this in
    if (length etags =? 1)%nat then
      ret (strings "Published object as"
             [endPoint +:+ "/" +:+ bucketName +:+ "/"
              +:+ basename (default "" (gs_path <$> head srcs))])
    else if existsb (fun src => ends_index_html (gs_path src)) srcs then
      ret (strings "Published object as" [endPoint +:+ "/" +:+ bucketName +:+ "/index.html"])
    else
      ret (strings "Published N objects to"
             [number_to_string (Z.of_nat (length etags)); endPoint +:+ "/" +:+ bucketName])
  else if (length etags =? 1)%nat then
    ret (strings "Created object with etag" [default "" (head etags)])
  else
    ret (strings "Created objects with etags" [join ", " etags]).

(** [fs.stat(dstFilepath)]: a missing file is a new file, not a directory. *)
Definition dstIsDirectory (dstFilepath : string) : M (state W) bool :=
  fun s =>
    let '(r, w) := stat_ dstFilepath (world s) in
    let s' := mkState w (trace s ++ [Stat dstFilepath]) in
    match r with
    | StatError err =>
        if has_code err "ENOENT" then (Resolved false, s') (* copying to new file *)
        else (Rejected err, s') (* some other error *)
    | Stats d => (Resolved d, s')
    end.

(** The message of [fGetObject] over the base names of the fetched objects. *)
Definition fetched_message (fetched : list string) (dstFilepath : string) : string :=
  let N := Z.of_nat (length fetched) in
  "Fetched " +:+ join ", " (slice fetched 0 (Some (N - 2)%Z))
  +:+ (if (N <=? 2)%Z then "" else ", ")
  +:+ join (if (N =? 2)%Z then " and " else ", and ") (slice fetched (N - 2) None)
  +:+ " to " +:+ dstFilepath.

Definition fGetObject (this : Provider) (srcFilepaths : list string) (dstFilepath : string)
    : M (state W) string :=
  sources <- start (resolve_sources srcFilepaths) ;;
  dstIsDir <- dstIsDirectory dstFilepath ;;
  if negb dstIsDir && (1 <? length srcFilepaths)%nat then
    throw (Error "Destination is not a directory")
  else
    srcs <- await sources ;;
    fetched <- promise_all
                 (map (fun srcFilepath =>
                         bf <- split this srcFilepath ;;
                         let '(bucketName, fileName) := bf in
                         let dst := if dstIsDir then join_path [dstFilepath; fileName]
                                    else dstFilepath in
                         call (FGetObject (mountName this) bucketName fileName dst)
                              (fGetObject_ (mountName this) bucketName fileName dst) ;;;
                         ret (basename srcFilepath))
                      (map gs_path srcs)) ;;
    ret (fetched_message fetched dstFilepath).

(** The commands of a scale-out copy. *)
Definition scale_out_cp (srcs : list GlobStats) (dstFilepath : string) : list string :=
  map (fun src => "cp " +:+ encodeComponent (gs_path src) +:+ " "
                  +:+ encodeComponent dstFilepath) srcs.

Definition copied_message (etags : list string) : string :=
  let N := length etags in
  if (N =? 0)%nat then "Source files not found"
  else "Copied to " +:+ (if (N =? 1)%nat then "object" else "objects")
       +:+ " with " +:+ (if (N =? 1)%nat then "etag" else "etags")
       +:+ " " +:+ join ", " etags.

Definition intraCopyObject (this : Provider) (parsedOptions : ParsedOptions)
    (srcFilepaths : list string) (dstFilepath : string) : M (state W) copy_result :=
  sources <- start (resolve_sources srcFilepaths) ;;
  if opt_s parsedOptions then
    srcs <- await sources ;;
    r <- call (RunWithProgress (scale_out_cp srcs dstFilepath))
           (runWithProgress_ (scale_out_cp srcs dstFilepath)) ;;
    ret (CopyProgress r)
  else
    srcs <- await sources ;;
    etags <- promise_all
               (map (fun srcFilepath =>
                       src <- split this srcFilepath ;;
                       dst <- split this dstFilepath ;;
                       let '(srcBucket, srcFile) := src in
                       let '(dstBucket, dstFile) := dst in
                       call (CopyObject (mountName this) dstBucket (or_string dstFile srcFile)
                                        ("/" +:+ srcBucket +:+ "/" +:+ srcFile))
                            (copyObject_ (mountName this) dstBucket (or_string dstFile srcFile)
                                         ("/" +:+ srcBucket +:+ "/" +:+ srcFile)))
                    (map gs_path srcs)) ;;
    ret (CopyMessage (copied_message etags)).

(** [srcs[idx]] past the end of [srcs]. *)
Definition TypeError_provider : error :=
  Error "Cannot destructure property 'provider' of 'srcs[idx]' as it is undefined.".

Definition interCopyObject (this : Provider) (parsedOptions : ParsedOptions)
    (srcs : list (string * Provider)) (dstFilepath : string) : M (state W) copy_result :=
  sources <- start (resolve_sources (map fst srcs)) ;;
  content <- await sources ;;
  if (length content =? 0)%nat then throw (Error "Nothing to copy")
  else if opt_s parsedOptions then
    r <- call (RunWithProgress (scale_out_cp content dstFilepath))
           (runWithProgress_ (scale_out_cp content dstFilepath)) ;;
    ret (CopyProgress r)
  else
    etags <- promise_all
               (imap (fun idx srcFilepath =>
                        match srcs !! idx with
                        | None => throw TypeError_provider
                        | Some (_, srcProvider) =>
                            src <- split srcProvider srcFilepath ;;
                            dst <- split this dstFilepath ;;
                            let '(srcBucket, srcFile) := src in
                            let '(dstBucket, dstFile) := dst in
                            data <- call (GetObject (mountName srcProvider) srcBucket srcFile)
                                      (getObject_ (mountName srcProvider) srcBucket srcFile) ;;
                            call (PutObject (mountName this) dstBucket (or_string dstFile srcFile))
                                 (putObject_ (mountName this) dstBucket
                                             (or_string dstFile srcFile) data)
                        end)
                     (map gs_path content)) ;;
    ret (CopyMessage (copied_message etags)).

(** Insert filepath into directory.  In the branch that copies out of a
    bucket the promise of [fGetObject] is returned without being awaited:
    the [catch] of [cp] applies to the other branch only. *)
Definition cp (this : Provider) (parsedOptions : ParsedOptions)
    (srcFilepaths : list string) (dstFilepath : string)
    (srcIsSelf : list bool) (dstIsSelf : bool) (srcProvider : list VFS)
    : M (state W) cp_result :=
  let isSelf idx := default false (srcIsSelf !! idx) in
  let selfSrc := filter_index isSelf srcFilepaths in
  let otherNonS3Src :=
    filter_index (fun idx => negb (isSelf idx) && negb (isS3Provider (srcProvider !! idx)))
                 srcFilepaths in
  let otherS3Src :=
    concat (imap (fun idx srcFilepath =>
                    match srcProvider !! idx with
                    | Some vfs =>
                        if negb (isSelf idx) && isS3Provider (Some vfs)
                        then [(srcFilepath, provider vfs)] else []
                    | None => []
                    end) srcFilepaths) in
  p <- catch
         (if dstIsSelf then
            (* copying into or between s3 buckets *)
            let copyInTasks :=
              if (length otherNonS3Src =? 0)%nat then []
              else [r <- fPutObject this parsedOptions otherNonS3Src dstFilepath ;;
                    ret (CopyMessage r)] in
            let intraClientCopyTasks :=
              if (length selfSrc =? 0)%nat then []
              else [intraCopyObject this parsedOptions selfSrc dstFilepath] in
            let interClientCopyTasks :=
              if (length otherS3Src =? 0)%nat then []
              else [interCopyObject this parsedOptions otherS3Src dstFilepath] in
            r <- promise_all (copyInTasks ++ intraClientCopyTasks ++ interClientCopyTasks) ;;
            ret (Resolved (CpAll r))
          else
            (* copying out of an s3 bucket *)
            start (r <- fGetObject this srcFilepaths dstFilepath ;; ret (CpFetched r)))
         (fun err => throw (coded err)) ;;
  await p.

(** @return recursive list of objects in `bucketName`.  The promise over
    the stream listens to [error], [end] and [data]: a stream that closes
    without ending leaves it pending. *)
Definition objectsIn (this : Provider) (bucketName : string) : M (state W) (list string) :=
  p <- catch
         (objectStream <- ask (ListObjects (mountName this) bucketName None true)
                            (listObjects_ (mountName this) bucketName None true) ;;
          start (match ending objectStream with
                 | SError err => throw err
                 | SEnd => ret (map item_name (chunks objectStream))
                 | SClose => pending
                 end))
         (fun err => throw (coded err)) ;;
  await p.

(** The function [rimraf] maps over the matching buckets: remove the
    objects of the bucket, then the bucket. *)
Definition rimraf_bucket (this : Provider) (bucketName : string) : M (state W) unit :=
  objects <- objectsIn this bucketName ;;
  call (RemoveObjects (mountName this) bucketName objects)
       (removeObjects_ (mountName this) bucketName objects) ;;;
  call (RemoveBucket (mountName this) bucketName)
       (removeBucket_ (mountName this) bucketName).

(** rm -rf *)
Definition rimraf (this : Provider) (bucketName : string) : M (state W) string :=
  buckets <- listBucketsMatching this bucketName ;;
  _ <- promise_all (map (fun bucket => rimraf_bucket this (name bucket)) buckets) ;;
  ret (strings (if (length buckets =? 1)%nat then "Removed bucket X and its contents"
                else "Removed N buckets and their contents") []).

(** Remove filepath.  The promise of [rimraf] is returned from inside the
    [try] without being awaited. *)
Definition rm (this : Provider) (filepath : string) (recursive : bool)
    : M (state W) rm_result :=
  p <- catch
         (bf <- split this filepath ;;
          let '(bucketName, fileName) := bf in
          if String.eqb fileName "" then
            if negb recursive then
              throw (Error ("rm: " +:+ bucketName +:+ " is a bucket"))
            else
              start (r <- rimraf this bucketName ;; ret (RmMessage r))
          else
            objects <- listObjects this (strip_s3Prefix this filepath) false ;;
            call (RemoveObjects (mountName this) bucketName (map name objects))
                 (removeObjects_ (mountName this) bucketName (map name objects)) ;;;
            ret (Resolved RmTrue))
         (fun err => throw (Error (message err))) ;;
  await p.

(** Fetch contents *)
Definition fstat (this : Provider) (filepath : string) : M (state W) FStat :=
  bf <- split this filepath ;;
  let '(bucketName, fileName) := bf in
  data <- call (GetObject (mountName this) bucketName fileName)
            (getObject_ (mountName this) bucketName fileName) ;;
  match ending data with
  | SError err => throw err
  | SEnd =>
      ret {| viewer := "open";
             filepath := filepath;
             fullpath := filepath;
             fstat_isDirectory := false;
             fstat_data := String.concat "" (chunks data) |}
  | SClose => pending
  end.

(** Create a directory/bucket *)
Definition mkdir (this : Provider) (filepath : string) : M (state W) unit :=
  bf <- split this filepath ;;
  let bucketName := fst bf in
  catch
    (call (MakeBucket (mountName this) bucketName) (makeBucket_ (mountName this) bucketName))
    (fun err =>
       (* for some reason, the core repl does not like minio's error *)
       if contains "Invalid bucket name" (message err) then
         if (js_length bucketName <=? 2)%nat then
           throw (Error (message err +:+ ". Bucket names must have at least 3 characters."))
         else if (63 <? js_length bucketName)%nat then
           throw (Error (message err +:+ ". Bucket names must have no more than 63 characters."))
         else if contains "_" bucketName then
           throw (Error (message err +:+ ". Bucket names must not contain underscore."))
         else if ends_with_char "-" bucketName then
           throw (Error (message err +:+ ". Bucket names must not end with a dash."))
         else if contains "." bucketName then
           throw (Error (message err +:+ ". Bucket names must not contain dots."))
         else throw (Error (message err))
       else throw (Error (message err))).

(** Remove a directory/bucket *)
Definition rmdir (this : Provider) (filepath : string) : M (state W) unit :=
  bf <- split this filepath ;;
  let bucketName := fst bf in
  catch
    (call (RemoveBucket (mountName this) bucketName)
          (removeBucket_ (mountName this) bucketName))
    (fun err => throw (Error (message err))).

(** The commands [grep] hands to the log-collecting runner. *)
Definition grep_commands (pattern : string) (srcs : list GlobStats) : list string :=
  map (fun src => "cat " +:+ encodeComponent (gs_path src) +:+ " | grep "
                  +:+ encodeComponent pattern) srcs.

(** [_.split(/\n/).filter(_ => _).length] *)
Definition count_lines (output : string) : nat :=
  length (filter (fun line => negb (String.eqb line ""))
                 (split_on (ascii_of_N 10) output)).

Definition grep (this : Provider) (parsedOptions : ParsedOptions) (pattern : string)
    (filepaths : list string) : M (state W) grep_result :=
  srcs <- resolve_sources filepaths ;;
  perFileResults <- call (RunWithLogs (grep_commands pattern srcs))
                      (runWithLogs_ (grep_commands pattern srcs)) ;;
  if opt_c parsedOptions then
    (* user asked for a count; so we need a reduction post-processing pass *)
    ret (GrepCount (foldl (fun sum count => sum + count)%nat 0%nat
                          (map count_lines perFileResults)))
  else if opt_l parsedOptions then
    (* user asked for a list of matching files; so again we need to post-process *)
    ret (GrepFiles (concat (imap (fun idx matches =>
                                    if (0 <? String.length matches)%nat
                                    then [filepaths !! idx] else [])
                                 perFileResults)))
  else
    (* otherwise, return the list of matches *)
    if forallb (fun matches => (String.length matches =? 0)%nat) perFileResults then
      throw (Error "")
    else ret (GrepMatches perFileResults).

(** *** Reading traces and answers *)


(** What [fs.stat] answers for a destination that is not a directory: a
    file, or nothing at all. *)
Definition not_a_directory (st : stat_result) : bool :=
  match st with
  | Stats d => negb d
  | StatError err => has_code err "ENOENT"
  end.






End Responder.
End S3.

(** ** Simulated collaborators

    Concrete worlds on which the operations run: a scripted HTTP peer for
    the fetch client, an in-memory object store for the responder. *)

Module SimFetch.
Import Async FetchFile.

(** The peer answers the successive requests with the outcomes of
    [replies]; the clock adds up the delays of the timers. *)
Record sim := mkSim {
  replies : list (outcome response);
  clock : nat;
  content : outcome (list jsvalue)
}.

Definition refused : error :=
  {| message := "connect ECONNREFUSED 127.0.0.1:8001";
     code := Some "ECONNREFUSED";
     httpstatuscode := None |}.

Definition timed_out : error :=
  {| message := "socket hang up"; code := Some "ECONNRESET"; httpstatuscode := None |}.

Definition sim_needle (w : sim) : outcome response * sim :=
  match replies w with
  | [] => (Rejected (Error "no more replies"), w)
  | r :: rest => (r, mkSim rest (clock w) (content w))
  end.

Definition sim_world (browser proxy : bool) : World sim := {|
  inBrowser := browser;
  hasProxy := proxy;
  needle := fun _ _ _ _ => sim_needle;
  getProxyState := fun w => (Resolved "http://localhost:8001", w);
  rexec := fun _ _ w => (content w, w);
  setTimeout := fun ms w => mkSim (replies w) (clock w + ms) (content w);
  encodeComponent := fun s => s;
  strings := fun s => s
|}.

Definition no_options : FetchOptions :=
  {| returnErrors := false; data := VUndefined; headers := None; fetch_method := None |}.

Definition ok (b : string) : response := {| statusCode := 200; body := VString b |}.

(** A native process, a browser behind a proxy, a browser without one. *)
Definition native : World sim := sim_world false false.
Definition proxied : World sim := sim_world true true.
Definition isolated : World sim := sim_world true false.

Definition peer (rs : list (outcome response)) (c : list jsvalue) : state sim :=
  mkState (mkSim rs 0 (Resolved c)) [].

End SimFetch.

Module SimS3.
Import Js Async S3.

(** An in-memory store: the objects of each bucket, the answers of the
    REPL to [vfs ls] commands and of the log-collecting runner to its
    commands, the local directories, and the files written by downloads.
    When [fault] is set, every call of the storage client is rejected
    with it. *)
Record mem := mkMem {
  buckets : gmap string (list string);
  listings : gmap string (list string);
  logs : gmap string string;
  dirs : list string;
  files : gmap string string;
  fault : option error
}.

Definition set_buckets (b : gmap string (list string)) (w : mem) : mem :=
  mkMem b (listings w) (logs w) (dirs w) (files w) (fault w).

Definition set_files (f : gmap string string) (w : mem) : mem :=
  mkMem (buckets w) (listings w) (logs w) (dirs w) f (fault w).

Definition guarded {A} (w : mem) (r : outcome A * mem) : outcome A * mem :=
  match fault w with
  | Some err => (Rejected err, w)
  | None => r
  end.

Definition no_such_bucket : error :=
  {| message := "The specified bucket does not exist";
     code := Some "NoSuchBucket";
     httpstatuscode := Some "404" |}.

Definition bucket_not_empty : error :=
  {| message := "The bucket you tried to delete is not empty";
     code := Some "BucketNotEmpty";
     httpstatuscode := Some "409" |}.

Definition is_bucket_char (c : ascii) : bool :=
  is_lower c || is_digit c || char_in ".-" c.

(** The names the store accepts: 3 to 63 characters among lower-case
    letters, digits, dot and dash. *)
Definition valid_bucket_name (b : string) : bool :=
  (3 <=? String.length b)%nat && (String.length b <=? 63)%nat
  && forallb is_bucket_char (String.list_ascii_of_string b).

Definition item (n : string) : BucketItem :=
  {| item_name := n; item_size := 1; lastModified := 0 |}.

Definition sim_listObjects (b : string) (prefix : option string) (w : mem)
    : outcome (stream BucketItem) * mem :=
  guarded w
    match buckets w !! b with
    | Some objs =>
        (Resolved (mkStream (map item (filter (fun n => starts_with (default "" prefix) n) objs))
                            SEnd), w)
    | None => (Resolved (mkStream [] (SError no_such_bucket)), w)
    end.

Definition sim_removeObjects (b : string) (names : list string) (w : mem)
    : outcome unit * mem :=
  guarded w
    match buckets w !! b with
    | Some objs =>
        (Resolved tt,
         set_buckets (<[b := filter (fun n => negb (existsb (String.eqb n) names)) objs]>
                        (buckets w)) w)
    | None => (Rejected no_such_bucket, w)
    end.

Definition sim_removeBucket (b : string) (w : mem) : outcome unit * mem :=
  guarded w
    match buckets w !! b with
    | Some [] => (Resolved tt, set_buckets (delete b (buckets w)) w)
    | Some _ => (Rejected bucket_not_empty, w)
    | None => (Rejected no_such_bucket, w)
    end.

Definition sim_makeBucket (b : string) (w : mem) : outcome unit * mem :=
  guarded w
    (if valid_bucket_name b then (Resolved tt, set_buckets (<[b := []]> (buckets w)) w)
     else (Rejected (Error ("Invalid bucket name: " +:+ b)), w)).

Definition sim_fGetObject (b o dst : string) (w : mem) : outcome unit * mem :=
  guarded w
    match buckets w !! b with
    | Some objs =>
        if existsb (String.eqb o) objs
        then (Resolved tt, set_files (<[dst := b +:+ "/" +:+ o]> (files w)) w)
        else (Rejected (Error "The specified key does not exist."), w)
    | None => (Rejected no_such_bucket, w)
    end.

Definition sim_putObject (b o : string) (w : mem) : outcome string * mem :=
  guarded w
    match buckets w !! b with
    | Some objs => (Resolved ("etag-" +:+ o), set_buckets (<[b := (objs ++ [o])%list]> (buckets w)) w)
    | None => (Rejected no_such_bucket, w)
    end.

Definition sim_stat (file : string) (w : mem) : stat_result * mem :=
  if existsb (String.eqb file) (dirs w) then (Stats true, w)
  else match files w !! file with
       | Some _ => (Stats false, w)
       | None =>
           (StatError {| message := "ENOENT: no such file or directory";
                         code := Some "ENOENT"; httpstatuscode := None |}, w)
       end.

Definition sim_rexec (command : string) (w : mem) : outcome (list GlobStats) * mem :=
  match listings w !! command with
  | Some paths => (Resolved (map Build_GlobStats paths), w)
  | None => (Rejected (Error "ENOENT"), w)
  end.

(** A glob matcher for the simulations: [*] alone matches every name, a
    pattern ending in [*] matches the names it is a prefix of, any other
    pattern matches itself. *)
Definition sim_isMatch (name pattern : string) : bool :=
  if ends_with_char "*" pattern
  then starts_with (String.substring 0 (String.length pattern - 1) pattern) name
  else String.eqb name pattern.

#[export] Instance mem_world : World mem := {|
  listBuckets_ := fun _ w => guarded w (Resolved (map fst (map_to_list (buckets w))), w);
  listObjects_ := fun _ b prefix _ => sim_listObjects b prefix;
  fPutObject_ := fun _ b o _ _ => sim_putObject b o;
  fGetObject_ := fun _ => sim_fGetObject;
  copyObject_ := fun _ b o _ => sim_putObject b o;
  getObject_ := fun _ b o w => guarded w (Resolved (mkStream [b +:+ "/" +:+ o] SEnd), w);
  putObject_ := fun _ b o _ => sim_putObject b o;
  removeObjects_ := fun _ => sim_removeObjects;
  removeBucket_ := fun _ => sim_removeBucket;
  makeBucket_ := fun _ => sim_makeBucket;
  rexec_ := sim_rexec;
  runWithProgress_ := fun _ w => (Resolved "done", w);
  runWithLogs_ := fun commands w => (Resolved (map (fun c => default "" (logs w !! c)) commands), w);
  stat_ := sim_stat;
  isMatch := sim_isMatch;
  encodeComponent := fun s => s;
  strings := fun key args => String.concat " " (key :: args)
|}.

Definition minio : Provider := {| mountName := "minio"; endPoint := "localhost:9000" |}.

(** The responder of [minio], as a source provider of [cp]. *)
Definition minio_vfs : VFS := {| tags := [S3_TAG]; provider := minio |}.

Definition no_flags : ParsedOptions :=
  {| opt_d := false; opt_P := false; opt_s := false; opt_c := false; opt_l := false |}.

(** [grep -l] *)
Definition list_flag : ParsedOptions :=
  {| opt_d := false; opt_P := false; opt_s := false; opt_c := false; opt_l := true |}.

(** One bucket [photos] holding [a.jpg] and [b.jpg]; the glob
    [/s3/minio/photos/*] resolves to both, each plain path to itself. *)
Definition photos : mem :=
  {| buckets := {[ "photos" := ["a.jpg"; "b.jpg"] ]};
     listings := {[ "vfs ls /s3/minio/photos/*" :=
                      ["/s3/minio/photos/a.jpg"; "/s3/minio/photos/b.jpg"];
                    "vfs ls /s3/minio/photos/a.jpg" := ["/s3/minio/photos/a.jpg"];
                    "vfs ls /s3/minio/photos/a.jpg /s3/minio/photos/b.jpg" :=
                      ["/s3/minio/photos/a.jpg"; "/s3/minio/photos/b.jpg"] ]};
     logs := {[ "cat /s3/minio/photos/b.jpg | grep Exif" := String "E" (String (ascii_of_N 10) "") ]};
     dirs := ["/tmp"];
     files := ∅;
     fault := None |}.

Definition start_of (w : mem) : state mem := mkState w [].



End SimS3.

(** ** Reading a URL *)

Module Reading.

(** The number of occurrences of [c] in [s]. *)
Fixpoint count_char (c : ascii) (s : string) : nat :=
  match s with
  | "" => 0
  | String d r => (if Ascii.eqb c d then 1 else 0) + count_char c r
  end.

(** The namespace is part of the path: not all namespaces are asked for,
    and the kind is neither [Namespace] nor cluster-scoped. *)
Definition namespaced (isForAllNamespaces : gmap string Url.optval -> bool)
    (po : gmap string Url.optval) (e : Url.Explained) : bool :=
  negb (isForAllNamespaces po || String.eqb (Url.kind e) "Namespace" || Url.isClusterScoped e).

End Reading.

(** ** The rest of the fetch client: [fetchFile] and [fetchRawFiles] *)

Module FetchFiles.
Import Js Path Async FetchFile.
Local Open Scope async_scope.

(** [opts.data] of [fetchFile]: one body for every locator, or an array
    with one body per locator. *)
Inductive BodyDatas :=
| One (d : jsvalue)
| Many (ds : list jsvalue).

(** [FetchOptions<BodyData | BodyData[]>] *)
Record FileOptions := {
  fo_returnErrors : bool;
  fo_data : BodyDatas;
  fo_headers : option (list (string * string));
  fo_method : option method
}.

(** [FetchedFile]: what was fetched, or the marker [{ error }] of a fetch
    that failed. *)
Inductive FetchedFile :=
| File (v : jsvalue)
| ReturnedError (err : error).

(** The content of the answer to [vfs fstat ... --with-data]. *)
Record StatContent := { stat_data : option string; stat_isDirectory : bool }.

(** The REPL as [fetchFile] and [fetchRawFiles] use it: remote execution
    of a [vfs fstat] command and of a [vfs ls] command, whose contents have
    different types, and the REPL's own [encodeComponent]. *)
Class Files (W : Type) `{World W} := {
  rexec_fstat : string -> W -> outcome StatContent * W;
  rexec_ls : string -> W -> outcome (list string) * W;
  repl_encodeComponent : string -> string
}.

(** [httpScheme.test(url)]: the scheme occurs somewhere in the locator. *)
Definition httpScheme (url : string) : bool :=
  contains "http://" url || contains "https://" url.

(** [opts.data] when [opts] is undefined. *)
Definition TypeError_data : error :=
  Error "Cannot read properties of undefined (reading 'data')".

(** [Array.isArray(opts.data) ? opts.data[idx] : opts.data] *)
Definition data_at (d : BodyDatas) (idx : nat) : jsvalue :=
  match d with
  | One v => v
  | Many l => default VUndefined (l !! idx)
  end.

(** [Object.assign({}, opts, { data })] *)
Definition remote_options (o : FileOptions) (idx : nat) : FetchOptions :=
  {| returnErrors := fo_returnErrors o;
     data := data_at (fo_data o) idx;
     headers := fo_headers o;
     fetch_method := fo_method o |}.

Definition of_data (d : option string) : jsvalue :=
  match d with
  | Some s => VString s
  | None => VUndefined
  end.

Definition fstat_command (path : string) : string :=
  "vfs fstat " +:+ path +:+ " --with-data".

(** The requests, the proxy-state lookups and the commands recorded in a
    trace, counted. *)
Fixpoint requests (t : list event) : nat :=
  match t with
  | [] => 0
  | ENeedle _ _ _ :: r => S (requests r)
  | _ :: r => requests r
  end.

Fixpoint lookups (t : list event) : nat :=
  match t with
  | [] => 0
  | EProxyState :: r => S (lookups r)
  | _ :: r => lookups r
  end.

Fixpoint commands (t : list event) : nat :=
  match t with
  | [] => 0
  | ERexec _ :: r => S (commands r)
  | _ :: r => commands r
  end.

(** Every request of [t] comes right after a lookup of the proxy state;
    [fresh] tells whether a lookup comes right before [t]. *)
Fixpoint resolved_before_request (fresh : bool) (t : list event) : bool :=
  match t with
  | [] => true
  | EProxyState :: r => resolved_before_request true r
  | ENeedle _ _ _ :: r => fresh && resolved_before_request false r
  | _ :: r => resolved_before_request false r
  end.

(** The events [t] stay within a budget: at most [w] ms of timers, [r]
    requests and [c] commands; for a [kubernetes://] locator every request
    comes right after a lookup of the proxy state, and for any other
    locator the proxy state is not looked up. *)
Definition within (kubernetes : bool) (w r c : nat) (t : list event) : Prop :=
  waited t <= w /\ requests t <= r /\ commands t <= c
  /\ (if kubernetes then resolved_before_request false t = true else lookups t = 0).

(** A locator that [fetchFile] fetches remotely. *)
Definition is_remote (url : string) : bool :=
  httpScheme url || starts_with kubernetesScheme url.

Section Client.
Context {W : Type} `{Files W}.

(** The callback that [fetchFile] maps over the locators. *)
Definition fetchOne (opts : option FileOptions) (idx : nat) (url : string)
    : M (state W) FetchedFile :=
  if is_remote url then
    match opts with
    | None => throw TypeError_data
    | Some o =>
        catch (body <- fetchRemote url (Some (remote_options o idx)) ;;
               ret (File body))
              (fun err =>
                 if fo_returnErrors o then ret (ReturnedError err)
                 else throw err)
    end
  else
    let filepath := url in
    stats <- call (ERexec (fstat_command (repl_encodeComponent filepath)))
               (rexec_fstat (fstat_command (repl_encodeComponent filepath))) ;;
    ret (File (of_data (stat_data stats))).

(** Either fetch a remote file or read a local one *)
Definition fetchFile (url : string) (opts : option FileOptions)
    : M (state W) (list FetchedFile) :=
  promise_all (imap (fetchOne opts) (split_on "," url)).

(** [_.join('---\n')]: an element that is undefined is joined as the empty
    string. *)
Definition join_documents (contents : list (option string)) : string :=
  join (String "-" (String "-" (String "-" (String (ascii_of_N 10) ""))))
       (map (default "") contents).

(** fetch raw files from [filepath]; [recursive] is [isRecursive(args)]. *)
Definition fetchRawFiles (recursive : bool) (filepath : string) : M (state W) jsvalue :=
  if httpScheme filepath then fetchRemote filepath None
  else
    let path := repl_encodeComponent filepath in
    resourceStats <- call (ERexec (fstat_command path)) (rexec_fstat (fstat_command path)) ;;
    if stat_isDirectory resourceStats then
      let command :=
        "vfs ls " +:+ join_path [path; if recursive then "/**/*.yaml" else "/*.yaml"]
        +:+ " --with-data" in
      filenames <- call (ERexec command) (rexec_ls command) ;;
      contents <- promise_all
                    (map (fun path =>
                            stats <- call (ERexec (fstat_command path))
                                       (rexec_fstat (fstat_command path)) ;;
                            ret (stat_data stats))
                         filenames) ;;
      ret (VString (join_documents contents))
    else ret (of_data (stat_data resourceStats)).

End Client.
End FetchFiles.

(** ** The rest of the responder: [gzip] and [gunzip] *)

Module S3Zip.
Import Js Path Async S3.
Local Open Scope async_scope.

(** The two resource options the responder defaults. *)
Record Resources := { memory : option string; cpu : option Z }.

(** [runWithProgress] when it is given the parsed options explicitly. *)
Class Runner (W : Type) `{World W} := {
  runWithProgress_with : list string -> Resources -> W -> outcome string * W
}.

(** [if (!parsedOptions.memory) parsedOptions.memory = '1024Mi'] and
    [if (!parsedOptions.cpu) parsedOptions.cpu = 8].  The update is made in
    place, on the object of the caller; the updated options are what the
    runner receives. *)
Definition with_defaults (parsedOptions : Resources) : Resources :=
  {| memory := match memory parsedOptions with
               | Some m => if String.eqb m "" then Some "1024Mi" else Some m
               | None => Some "1024Mi"
               end;
     cpu := match cpu parsedOptions with
            | Some c => if (c =? 0)%Z then Some 8%Z else Some c
            | None => Some 8%Z
            end |}.

(** A continuation byte of a UTF-8 sequence. *)
Definition is_continuation (c : ascii) : bool :=
  let n := N_of_ascii c in ((128 <=? n) && (n <? 192))%N.

(** The high surrogate of the code point encoded by the four bytes
    [b0 b1 b2 b3], as the three bytes of its own generalized UTF-8
    encoding. *)
Definition high_surrogate (b0 b1 b2 : ascii) : list ascii :=
  let cp_high :=
    (N.land (N_of_ascii b0) 7 * 4096 + N.land (N_of_ascii b1) 63 * 64
     + N.land (N_of_ascii b2) 63)%N in
  (* the code point shifted right by 6 bits; the high surrogate is
     0xD800 + ((code point - 0x10000) >> 10) *)
  let high := (55296 + (cp_high - 1024) / 16)%N in
  [ascii_of_N 237; ascii_of_N (128 + (high / 64) mod 64); ascii_of_N (128 + high mod 64)].

(** What comes before a final [gz], on the reversed bytes of a path. *)
Definition before_gz (r : list ascii) : option (list ascii) :=
  match r with
  | z :: g :: rest => if Ascii.eqb z "z" && Ascii.eqb g "g" then Some rest else None
  | _ => None
  end.

(** The dot of a pattern, read backwards: one code unit that is not a line
    terminator is dropped from the reversed bytes [r].  This is the whole
    last character when it lies in the basic plane; otherwise it is its low
    surrogate alone, and the high surrogate stays behind. *)
Definition drop_code_unit (r : list ascii) : option (list ascii) :=
  match r with
  | [] => None
  | b1 :: r1 =>
      if negb (is_continuation b1) then
        (* a character of one byte *)
        if (N_of_ascii b1 =? 10)%N || (N_of_ascii b1 =? 13)%N then None else Some r1
      else
        match r1 with
        | b2 :: r2 =>
            if negb (is_continuation b2) then Some r2 (* two bytes *)
            else
              match r2 with
              | b3 :: r3 =>
                  if negb (is_continuation b3) then
                    (* three bytes: U+2028 and U+2029 are line terminators *)
                    if (N_of_ascii b3 =? 226)%N && (N_of_ascii b2 =? 128)%N
                       && ((N_of_ascii b1 =? 168)%N || (N_of_ascii b1 =? 169)%N)
                    then None else Some r3
                  else
                    match r3 with
                    | b4 :: r4 => Some (rev (high_surrogate b4 b3 b2) ++ r4)
                    | [] => Some r3
                    end
              | [] => Some r2
              end
        | [] => Some r1
        end
  end.

(** [path.replace(/.gz$/, '')], on the reversed bytes of [path]. *)
Definition strip_gz_rev (r : list ascii) : option (list ascii) :=
  match before_gz r with
  | Some rest => drop_code_unit rest
  | None => None
  end.

Definition strip_gz (path : string) : string :=
  match strip_gz_rev (rev (String.list_ascii_of_string path)) with
  | Some r => String.string_of_list_ascii (rev r)
  | None => path
  end.

Section Responder.
Context {W : Type} `{Runner W}.

Definition gzip_commands (srcs : list GlobStats) : list string :=
  map (fun src => "cat " +:+ encodeComponent (gs_path src) +:+ " | gzip -c - | pipe "
                  +:+ encodeComponent (gs_path src +:+ ".gz")) srcs.

Definition gunzip_commands (srcs : list GlobStats) : list string :=
  map (fun src => "cat " +:+ encodeComponent (gs_path src) +:+ " | gunzip -c - | pipe "
                  +:+ encodeComponent (strip_gz (gs_path src))) srcs.

(** zip a set of files *)
Definition gzip (parsedOptions : Resources) (srcFilepaths : list string)
    : M (state W) string :=
  srcs <- resolve_sources srcFilepaths ;;
  call (RunWithProgress (gzip_commands srcs))
       (runWithProgress_with (gzip_commands srcs) (with_defaults parsedOptions)).

(** unzip a set of files *)
Definition gunzip (parsedOptions : Resources) (srcFilepaths : list string)
    : M (state W) string :=
  srcs <- resolve_sources srcFilepaths ;;
  call (RunWithProgress (gunzip_commands srcs))
       (runWithProgress_with (gunzip_commands srcs) (with_defaults parsedOptions)).

End Responder.

(** *** Reading paths and traces *)

(** No line terminator occurs in [s]. *)
Definition single_line (s : string) : bool :=
  negb (contains (String (ascii_of_N 10) "") s
        || contains (String (ascii_of_N 13) "") s
        || contains (String (ascii_of_N 226) (String (ascii_of_N 128) (String (ascii_of_N 168) ""))) s
        || contains (String (ascii_of_N 226) (String (ascii_of_N 128) (String (ascii_of_N 169) ""))) s).

(** The events of a download: resolving the sources, looking at the
    destination, fetching an object into a file. *)
Definition is_download_event (ev : event) : bool :=
  match ev with
  | Rexec _ | Stat _ | FGetObject _ _ _ _ => true
  | _ => false
  end.

(** A computation that reads the world: it leaves the world as it is, and
    its answer depends on the world alone. *)
Definition reads {W A} (m : M (state W) A) : Prop :=
  forall s s', world s = world s' ->
    fst (m s) = fst (m s') /\ world (snd (m s)) = world s.

(** The listings of the storage client leave the store as it is. *)
Definition listings_read {W} `{World W} : Prop :=
  (forall m w, snd (listBuckets_ m w) = w)
  /\ (forall m b prefix recursive w, snd (listObjects_ m b prefix recursive w) = w).

End S3Zip.

(** ** The failures of the collaborators

    To say that an error is swallowed, or thrown again, the failures of the
    collaborators have to be seen next to the result of an operation.  Any
    world is wrapped in one that behaves the same and keeps the list of
    the failures of its storage client, REPL and runners. *)

Module Audit.
Import Js Async S3 S3Zip.

(** A world, and the failures of its collaborators so far. *)
Record audited (W : Type) := mkAudited { inner : W; failures : list error }.
Arguments mkAudited {W} inner failures.
Arguments inner {W} a.
Arguments failures {W} a.

(** The failure of a promise: its rejection. *)
Definition rejection {A} (o : outcome A) : list error :=
  match o with
  | Rejected e => [e]
  | _ => []
  end.

(** The failure of an object listing: its rejection, or the [error] event
    of its stream, which the responder itself listens to. *)
Definition listing_failure (o : outcome (stream BucketItem)) : list error :=
  match o with
  | Rejected e => [e]
  | Resolved objectStream =>
      match ending objectStream with
      | SError e => [e]
      | _ => []
      end
  | Pending => []
  end.

(** A call of the wrapped world, its failure appended to the list. *)
Definition audit {W A} (failed : outcome A -> list error) (op : W -> outcome A * W)
    (a : audited W) : outcome A * audited W :=
  let '(o, w) := op (inner a) in
  (o, mkAudited w (failures a ++ failed o)).

(** The answers of [fs.stat] are not failures of the store: the responder
    reads them as the kind of the destination.  The [error] event of the
    stream of an object is not one either: in a copy between stores the
    stream is handed on to the storage client, and [fstat] rejects with the
    event itself. *)
#[export] Instance audited_world {W : Type} `{World W} : World (audited W) := {|
  listBuckets_ := fun m => audit rejection (listBuckets_ m);
  listObjects_ := fun m b prefix recursive =>
    audit listing_failure (listObjects_ m b prefix recursive);
  fPutObject_ := fun m b o file public => audit rejection (fPutObject_ m b o file public);
  fGetObject_ := fun m b o file => audit rejection (fGetObject_ m b o file);
  copyObject_ := fun m b o source => audit rejection (copyObject_ m b o source);
  getObject_ := fun m b o => audit rejection (getObject_ m b o);
  putObject_ := fun m b o data => audit rejection (putObject_ m b o data);
  removeObjects_ := fun m b objects => audit rejection (removeObjects_ m b objects);
  removeBucket_ := fun m b => audit rejection (removeBucket_ m b);
  makeBucket_ := fun m b => audit rejection (makeBucket_ m b);
  rexec_ := fun command => audit rejection (rexec_ command);
  runWithProgress_ := fun commands => audit rejection (runWithProgress_ commands);
  runWithLogs_ := fun commands => audit rejection (runWithLogs_ commands);
  stat_ := fun file a => let '(r, w) := stat_ file (inner a) in (r, mkAudited w (failures a));
  isMatch := isMatch;
  encodeComponent := encodeComponent;
  strings := strings
|}.

#[export] Instance audited_runner {W : Type} `{Runner W}
    : @Runner (audited W) audited_world := {|
  runWithProgress_with := fun commands resources =>
    audit rejection (runWithProgress_with commands resources)
|}.



Section Settling.
Context {W : Type} `{Runner W}.

(** Every promise of the collaborators settles, and the streams the
    responder reads without a [close] handler end or fail. *)
Record settling : Prop := {
  settles_listBuckets : forall m w, fst (listBuckets_ m w) <> Pending;
  settles_listObjects : forall m b prefix recursive w,
    fst (listObjects_ m b prefix recursive w) <> Pending;
  ends_listObjects : forall m b w objectStream,
    fst (listObjects_ m b None true w) = Resolved objectStream ->
    ending objectStream <> SClose;
  settles_fPutObject : forall m b o file public w,
    fst (fPutObject_ m b o file public w) <> Pending;
  settles_fGetObject : forall m b o file w, fst (fGetObject_ m b o file w) <> Pending;
  settles_copyObject : forall m b o source w, fst (copyObject_ m b o source w) <> Pending;
  settles_getObject : forall m b o w, fst (getObject_ m b o w) <> Pending;
  ends_getObject : forall m b o w data,
    fst (getObject_ m b o w) = Resolved data -> ending data <> SClose;
  settles_putObject : forall m b o data w, fst (putObject_ m b o data w) <> Pending;
  settles_removeObjects : forall m b objects w,
    fst (removeObjects_ m b objects w) <> Pending;
  settles_removeBucket : forall m b w, fst (removeBucket_ m b w) <> Pending;
  settles_makeBucket : forall m b w, fst (makeBucket_ m b w) <> Pending;
  settles_rexec : forall command w, fst (rexec_ command w) <> Pending;
  settles_runWithProgress : forall commands w, fst (runWithProgress_ commands w) <> Pending;
  settles_runWithLogs : forall commands w, fst (runWithLogs_ commands w) <> Pending;
  settles_runWithProgress_with : forall commands resources w,
    fst (runWithProgress_with commands resources w) <> Pending
}.

(** What the result [r] of an operation started in [s] owes its caller,
    [new] being the failures of the collaborators in between: resolved,
    the failures are as [R] says; rejected with [e], the failures explain
    [e] as [E] says; never settled, a collaborator did not settle. *)
Definition accounted {A} (R : list error -> Prop) (E : error -> list error -> Prop)
    (s : state (audited W)) (r : outcome A * state (audited W)) : Prop :=
  exists new,
    failures (world (snd r)) = failures (world s) ++ new
    /\ match fst r with
       | Resolved _ => R new
       | Rejected e => E e new
       | Pending => ~ settling
       end.















(** A computation that accounts for the failures, from every state. *)
Definition honest {A} (R : list error -> Prop) (E : error -> list error -> Prop)
    (m : M (state (audited W)) A) : Prop :=
  forall s, accounted R E s (m s).






End Settling.

End Audit.

(** ** The breadcrumb of the client (spi/Breadcrumb) *)

Module Breadcrumb.

(** A breadcrumb, with the truth value of its optional [isCurrentPage]. *)
Record BreadcrumbView := { label : string; isCurrentPage : bool }.

(** [Array.prototype.findIndex] *)
Fixpoint findIndex {A} (p : A -> bool) (l : list A) : Z :=
  match l with
  | [] => (-1)%Z
  | x :: r =>
      if p x then 0%Z
      else let i := findIndex p r in if (i <? 0)%Z then (-1)%Z else (i + 1)%Z
  end.

(** Kui allows for one of the breadcrumbs to be distinguished. We term
    this the "current page".  Without breadcrumbs, [asSpecified] is
    undefined, the comparison with 0 is false and the result is undefined. *)
Definition getCurrentPageIdx (breadcrumbs : option (list BreadcrumbView)) : option Z :=
  match breadcrumbs with
  | None => None
  | Some l =>
      let asSpecified := findIndex isCurrentPage l in
      Some (if (asSpecified <? 0)%Z then (Z.of_nat (length l) - 1)%Z else asSpecified)
  end.

End Breadcrumb.

(** ** Simulated collaborators of [fetchFile], [gzip] and the listings *)

Module SimMore.
Import Async.

(** The REPL of the scripted peer answers a [vfs fstat] with the first
    element of its content, and a [vfs ls] with nothing. *)
Definition sim_fstat (w : SimFetch.sim)
    : outcome FetchFiles.StatContent * SimFetch.sim :=
  match SimFetch.content w with
  | Resolved (FetchFile.VString d :: _) =>
      (Resolved {| FetchFiles.stat_data := Some d; FetchFiles.stat_isDirectory := false |}, w)
  | Resolved _ =>
      (Resolved {| FetchFiles.stat_data := None; FetchFiles.stat_isDirectory := true |}, w)
  | Rejected e => (Rejected e, w)
  | Pending => (Pending, w)
  end.

Definition sim_files (browser proxy : bool)
    : @FetchFiles.Files SimFetch.sim (SimFetch.sim_world browser proxy) := {|
  FetchFiles.rexec_fstat := fun _ => sim_fstat;
  FetchFiles.rexec_ls := fun _ w => (Resolved [], w);
  FetchFiles.repl_encodeComponent := fun s => s
|}.

(** [{ returnErrors: true }] *)
Definition tolerant : FetchFiles.FileOptions :=
  {| FetchFiles.fo_returnErrors := true;
     FetchFiles.fo_data := FetchFiles.One FetchFile.VUndefined;
     FetchFiles.fo_headers := None;
     FetchFiles.fo_method := None |}.

(** A store with the single bucket [logs], whose object listings close
    without ending. *)
Definition closing : S3.World unit := {|
  S3.listBuckets_ := fun _ w => (Resolved ["logs"], w);
  S3.listObjects_ := fun _ _ _ _ w =>
    (Resolved (S3.mkStream [SimS3.item "a.log"] S3.SClose), w);
  S3.fPutObject_ := fun _ _ _ _ _ w => (Resolved "etag", w);
  S3.fGetObject_ := fun _ _ _ _ w => (Resolved tt, w);
  S3.copyObject_ := fun _ _ _ _ w => (Resolved "etag", w);
  S3.getObject_ := fun _ _ _ w => (Resolved (S3.mkStream [] S3.SClose), w);
  S3.putObject_ := fun _ _ _ _ w => (Resolved "etag", w);
  S3.removeObjects_ := fun _ _ _ w => (Resolved tt, w);
  S3.removeBucket_ := fun _ _ w => (Resolved tt, w);
  S3.makeBucket_ := fun _ _ w => (Resolved tt, w);
  S3.rexec_ := fun _ w => (Resolved [], w);
  S3.runWithProgress_ := fun _ w => (Resolved "done", w);
  S3.runWithLogs_ := fun _ w => (Resolved [], w);
  S3.stat_ := fun _ w => (S3.Stats false, w);
  S3.isMatch := SimS3.sim_isMatch;
  S3.encodeComponent := fun s => s;
  S3.strings := fun key args => String.concat " " (key :: args)
|}.

(** [ls -d] and [grep -c] *)
Definition dir_flag : S3.ParsedOptions :=
  {| S3.opt_d := true; S3.opt_P := false; S3.opt_s := false; S3.opt_c := false;
     S3.opt_l := false |}.

Definition count_flag : S3.ParsedOptions :=
  {| S3.opt_d := false; S3.opt_P := false; S3.opt_s := false; S3.opt_c := true;
     S3.opt_l := false |}.

(** [cp -s] *)
Definition scale_flag : S3.ParsedOptions :=
  {| S3.opt_d := false; S3.opt_P := false; S3.opt_s := true; S3.opt_c := false;
     S3.opt_l := false |}.

(** The store of [photos], with two local files in [/tmp/in], a glob that
    matches nothing and a zipped object among the answers of the REPL. *)
Definition desk : SimS3.mem :=
  {| SimS3.buckets := {[ "photos" := ["a.jpg"; "b.jpg"] ]};
     SimS3.listings :=
       {[ "vfs ls /tmp/in/*" := ["/tmp/in/a.txt"; "/tmp/in/b.txt"];
          "vfs ls /s3/minio/photos/none*" := [];
          "vfs ls /s3/minio/photos/*" :=
            ["/s3/minio/photos/a.jpg"; "/s3/minio/photos/b.jpg"];
          "vfs ls /s3/minio/photos/a.jpg /s3/minio/photos/b.jpg" :=
            ["/s3/minio/photos/a.jpg"; "/s3/minio/photos/b.jpg"];
          "vfs ls /s3/minio/photos/a.jpg" := ["/s3/minio/photos/a.jpg"];
          "vfs ls /s3/minio/photos/*.gz" := ["/s3/minio/photos/a.jpg.gz"] ]};
     SimS3.logs :=
       {[ "cat /s3/minio/photos/a.jpg | grep Exif" :=
            String "E" (String (ascii_of_N 10) (String "E" (String (ascii_of_N 10) "")));
          "cat /s3/minio/photos/b.jpg | grep Exif" := String "E" (String (ascii_of_N 10) "") ]};
     SimS3.dirs := ["/tmp"];
     SimS3.files := ∅;
     SimS3.fault := None |}.

(** The runner of the in-memory store does nothing, and answers with the
    resources it is given. *)
Definition sim_runWithProgress (resources : S3Zip.Resources) (w : SimS3.mem)
    : outcome string * SimS3.mem :=
  (Resolved ("memory " +:+ default "none" (S3Zip.memory resources)
             +:+ ", cpu "
             +:+ default "none" (Js.number_to_string <$> S3Zip.cpu resources)), w).

#[export] Instance mem_runner : @S3Zip.Runner SimS3.mem SimS3.mem_world := {|
  S3Zip.runWithProgress_with := fun _ => sim_runWithProgress
|}.


End SimMore.

(** * Properties *)

(** ** Strings and percent-encoding *)

Module JsFacts.
Import Js.

Lemma append_cons (c : ascii) (s t : string) : String c s +:+ t = String c (s +:+ t).
Proof. reflexivity. Qed.

Lemma append_nil_l (s : string) : "" +:+ s = s.
Proof. reflexivity. Qed.

Lemma append_nil_r (s : string) : s +:+ "" = s.
Proof.
  induction s as [|c s IH]; [reflexivity |].
  now rewrite append_cons, IH.
Qed.

Lemma append_assoc (a b c : string) : (a +:+ b) +:+ c = a +:+ (b +:+ c).
Proof.
  induction a as [|x a IH]; [reflexivity |].
  now rewrite !append_cons, IH.
Qed.

Lemma occurs_append c a b : occurs c (a +:+ b) = occurs c a || occurs c b.
Proof.
  induction a as [|x a IH]; [reflexivity |].
  rewrite append_cons. cbn [occurs]. rewrite IH. now rewrite orb_assoc.
Qed.

(** A byte is encoded into unreserved characters, [%] and hexadecimal
    digits: no separator of a query string comes out of it. *)
Lemma encoded_byte_has_no_separator (c : ascii) :
  let e := if uri_unreserved c then String c "" else pct_encode c in
  occurs "&" e = false /\ occurs "," e = false /\ occurs "?" e = false
  /\ occurs "/" e = false /\ occurs "=" e = false /\ occurs " " e = false.
Proof.
  destruct c as [[] [] [] [] [] [] [] []]; vm_compute; repeat split.
Qed.

Lemma encodeURIComponent_has_no_separator (s : string) :
  occurs "&" (encodeURIComponent s) = false
  /\ occurs "," (encodeURIComponent s) = false
  /\ occurs "?" (encodeURIComponent s) = false
  /\ occurs "/" (encodeURIComponent s) = false
  /\ occurs "=" (encodeURIComponent s) = false
  /\ occurs " " (encodeURIComponent s) = false.
Proof.
  induction s as [|c s IH]; [repeat split |].
  destruct (encoded_byte_has_no_separator c) as (H1 & H2 & H3 & H4 & H5 & H6).
  destruct IH as (I1 & I2 & I3 & I4 & I5 & I6).
  cbn [encodeURIComponent]. rewrite !occurs_append.
  cbv zeta in H1, H2, H3, H4, H5, H6.
  rewrite H1, H2, H3, H4, H5, H6, I1, I2, I3, I4, I5, I6. repeat split.
Qed.

End JsFacts.

(** ** The URL formatter *)

Module UrlSpec.
Import Js JsFacts Url.

Lemma labelTerm_shape (l : string) :
  labelTerm l = "labelSelector=" +:+ encodeURIComponent l
  /\ occurs "&" (labelTerm l) = false
  /\ occurs "," (labelTerm l) = false.
Proof.
  destruct (encodeURIComponent_has_no_separator l) as (H1 & H2 & _).
  unfold labelTerm. rewrite !occurs_append, H1, H2. repeat split.
Qed.

(** C6. Over a namespaced, non-cluster-scoped kind, when the parsed options
    carry several label selectors, every selector becomes a term
    [labelSelector=<percent-encoded selector>] of its own: the terms come
    first in the query list, in the order of the selectors, none of them
    contains a comma or an ampersand, and the query string joins the terms
    with [&].  With the selectors [a=1] and [b=2] and no other query option,
    [formatter(true, true)] is the URL without queries followed by
    [?labelSelector=a%3D1&labelSelector=b%3D2]. *)
Theorem label_selectors_are_separate_terms
    (getLabel : gmap string optval -> optval)
    (isForAllNamespaces : gmap string optval -> bool)
    (namespace : string) (po : gmap string optval) (e : Explained)
    (labels : list string) (name : option string) :
  isForAllNamespaces po = false ->
  kind e <> "Namespace" ->
  isClusterScoped e = false ->
  getLabel po = OArr labels ->
  let formatter := urlFormatterFor getLabel isForAllNamespaces namespace po e in
  queries getLabel po = (map labelTerm labels ++ fieldQueries po ++ limitQueries po)%list
  /\ Forall (fun t => occurs "," t = false /\ occurs "&" t = false) (map labelTerm labels)
  /\ formatter true false None
     = "kubernetes:///" +:+ apiOnPath e +:+ "/namespaces/" +:+ encodeURIComponent namespace
       +:+ kindOnPath e
  /\ (labels <> [] ->
      formatter true true None
      = formatter true false None +:+ "?" +:+ join "&" (queries getLabel po))
  /\ (labels = ["a=1"; "b=2"] -> fieldQueries po = [] -> limitQueries po = [] ->
      formatter true true None
      = formatter true false None +:+ "?labelSelector=a%3D1&labelSelector=b%3D2").
Proof.
  intros Hall Hkind Hcluster Hlabel formatter.
  assert (Hq : queries getLabel po
               = (map labelTerm labels ++ fieldQueries po ++ limitQueries po)%list).
  { unfold queries, labelQueries. now rewrite Hlabel. }
  assert (Hbase : formatter true false None
                  = "kubernetes:///" +:+ apiOnPath e +:+ "/namespaces/"
                    +:+ encodeURIComponent namespace +:+ kindOnPath e).
  { unfold formatter, urlFormatterFor, namespaceOnPath.
    rewrite Hall, Hcluster.
    destruct (String.eqb_spec (kind e) "Namespace") as [E|_]; [contradiction |].
    cbn [negb orb]. now rewrite !append_nil_r, !append_assoc. }
  assert (Hfull : labels <> [] ->
                  formatter true true None
                  = formatter true false None +:+ "?" +:+ join "&" (queries getLabel po)).
  { intros Hne. unfold formatter, urlFormatterFor.
    rewrite Hq. destruct labels as [|l ls]; [contradiction |].
    cbn [negb orb map app length Nat.eqb].
    now rewrite !append_nil_r, !append_assoc. }
  repeat split; try assumption.
  - apply Forall_forall. intros t Ht. apply list_elem_of_In, in_map_iff in Ht.
    destruct Ht as (l & <- & _).
    destruct (labelTerm_shape l) as (_ & Ha & Hc). now split.
  - intros -> Hf Hl. rewrite Hfull by discriminate.
    rewrite Hq, Hf, Hl. reflexivity.
Qed.

(** The selectors [a=1] and [b=2] on deployments of the namespace [default]. *)
Lemma label_selectors_are_separate_terms_witness :
  urlFormatterFor label_of all_namespaces_of "default"
    {[ "l" := OArr ["a=1"; "b=2"] ]} deployment true true None
  = "kubernetes:///apis/apps%2Fv1/namespaces/default/deployments?labelSelector=a%3D1&labelSelector=b%3D2".
Proof.
  pose proof (label_selectors_are_separate_terms label_of all_namespaces_of "default"
                {[ "l" := OArr ["a=1"; "b=2"] ]} deployment ["a=1"; "b=2"] None) as H.
  destruct H as (_ & _ & Hbase & _ & Hex).
  - reflexivity.
  - discriminate.
  - reflexivity.
  - reflexivity.
  - rewrite Hex, Hbase; reflexivity.
Defined.

End UrlSpec.

(** ** The remote fetch client *)

Module FetchSpec.
Import Js Async FetchFile.

Section Client.
Context {W : Type} `{World W}.

Lemma waited_app (a b : list event) : waited (a ++ b) = waited a + waited b.
Proof.
  induction a as [|ev a IH]; [reflexivity |].
  destruct ev; cbn [app waited]; rewrite IH; lia.
Qed.

(** One request through needle starts no timer. *)
Lemma needle_once_waited url o (s s1 : state W) r :
  needle_once url o s = (r, s1) -> waited (trace s1) = waited (trace s).
Proof.
  unfold needle_once, rescheme, bind, call, ret.
  destruct (starts_with kubernetesScheme url).
  - destruct (getProxyState (world s)) as [[base| |] w1]; cbn [world trace].
    + destruct (needle _ _ _ _ w1) as [[r1| |] w2]; intros [= <- <-]; cbn [trace];
        rewrite !waited_app; cbn; lia.
    + intros [= <- <-]; cbn [trace]; rewrite waited_app; cbn; lia.
    + intros [= <- <-]; cbn [trace]; rewrite waited_app; cbn; lia.
  - destruct (needle _ _ _ _ (world s)) as [[r1| |] w2]; intros [= <- <-]; cbn [trace];
      rewrite !waited_app; cbn; lia.
Qed.

Lemma sleep_waited ms (s : state W) :
  waited (trace (snd (sleep ms s))) = waited (trace s) + ms.
Proof. unfold sleep, call. cbn. rewrite waited_app. cbn. lia. Qed.

(** The clause of [_needle] for a native process that was given options. *)
Lemma _needle_native url o retryCount (s : state W) :
  inBrowser = false ->
  _needle url (Some o) retryCount s =
  match needle_once url o s with
  | (Rejected err, s1) =>
      if is_ECONNREFUSED err && (retryCount <? MAX_ECONNREFUSED_RETRIES)%nat
      then _needle url (Some o) (retryCount + 1) (snd (sleep 50 s1))
      else (Rejected err, s1)
  | r => r
  end.
Proof.
  intros Hb. rewrite _needle_equation_1, Hb. cbn [negb].
  destruct (needle_once url o s) as [[r|err|] s1]; try reflexivity.
  destruct (is_ECONNREFUSED err); [|reflexivity].
  destruct (lt_dec retryCount MAX_ECONNREFUSED_RETRIES) as [Hlt|Hge].
  - now rewrite (proj2 (Nat.ltb_lt _ _) Hlt).
  - now rewrite (proj2 (Nat.ltb_nlt _ _) Hge).
Qed.

(** Every run of [_needle] in a native process is a number of refused
    requests, at most as many as retries are left, followed by one last
    request whose outcome is the outcome of the fetch. *)
Lemma _needle_is_bounded_retry (url : string) (o : FetchOptions) (retryCount : nat)
    (s : state W) :
  inBrowser = false ->
  retryCount <= MAX_ECONNREFUSED_RETRIES ->
  exists k sk,
    retryCount + k <= MAX_ECONNREFUSED_RETRIES
    /\ after_refusals url o k s = Some sk
    /\ _needle url (Some o) retryCount s = needle_once url o sk
    /\ (retryCount + k < MAX_ECONNREFUSED_RETRIES ->
        forall err s', needle_once url o sk = (Rejected err, s') ->
                       is_ECONNREFUSED err = false).
Proof.
  intros Hb Hcap.
  remember (MAX_ECONNREFUSED_RETRIES - retryCount) as left eqn:Hleft.
  revert retryCount s Hcap Hleft.
  induction left as [|left IH]; intros retryCount s Hcap Hleft.
  - exists 0, s. split; [lia |]. split; [reflexivity |]. split; [|lia].
    rewrite (_needle_native _ _ _ _ Hb).
    destruct (needle_once url o s) as [[r|err|] s1]; try reflexivity.
    replace (retryCount <? MAX_ECONNREFUSED_RETRIES) with false
      by (symmetry; apply Nat.ltb_nlt; lia).
    now rewrite andb_false_r.
  - destruct (needle_once url o s) as [[r|err|] s1] eqn:Hfirst.
    + exists 0, s. split; [lia |]. split; [reflexivity |].
      split; [|intros _ err s'; rewrite Hfirst; discriminate].
      now rewrite (_needle_native _ _ _ _ Hb), Hfirst.
    + destruct (is_ECONNREFUSED err) eqn:Hrefused.
      * destruct (IH (retryCount + 1) (snd (sleep 50 s1)) ltac:(lia) ltac:(lia))
          as (k & sk & Hk & Hrun & Hlast & Hfinal).
        exists (S k), sk. split; [lia |]. split; [|split].
        -- cbn [after_refusals]. now rewrite Hfirst, Hrefused.
        -- rewrite (_needle_native _ _ _ _ Hb), Hfirst, Hrefused.
           now replace (retryCount <? MAX_ECONNREFUSED_RETRIES) with true
             by (symmetry; apply Nat.ltb_lt; lia).
        -- intros Hlt. apply Hfinal. lia.
      * exists 0, s. split; [lia |]. split; [reflexivity |]. split.
        -- now rewrite (_needle_native _ _ _ _ Hb), Hfirst, Hrefused.
        -- intros _ err' s'. rewrite Hfirst. now intros [= <- _].
    + exists 0, s. split; [lia |]. split; [reflexivity |].
      split; [|intros _ err s'; rewrite Hfirst; discriminate].
      now rewrite (_needle_native _ _ _ _ Hb), Hfirst.
Qed.

(** C3. In a native process, as long as the requests are refused
    (ECONNREFUSED) and fewer than 10 retries were made, the client waits
    50ms and tries again.  After [k] refusals in a row it has waited
    exactly [50 * k] ms; an attempt within the cap that does not end refused
    settles the fetch with its own outcome, in particular a success is
    returned; when the cap of 10 retries is exhausted, the error of the last
    attempt surfaces, refused or not. *)
Theorem econnrefused_retry_policy (url : string) (o : FetchOptions)
    (k retryCount : nat) (s sk : state W) :
  inBrowser = false ->
  after_refusals url o k s = Some sk ->
  retryCount + k <= MAX_ECONNREFUSED_RETRIES ->
  waited (trace sk) = waited (trace s) + 50 * k
  /\ (forall r s',
        needle_once url o sk = (r, s') ->
        (forall err, r = Rejected err -> is_ECONNREFUSED err = false) ->
        _needle url (Some o) retryCount s = (r, s'))
  /\ (retryCount + k = MAX_ECONNREFUSED_RETRIES ->
      forall err s',
        needle_once url o sk = (Rejected err, s') ->
        _needle url (Some o) retryCount s = (Rejected err, s')).
Proof.
  intros Hb. revert retryCount s.
  induction k as [|k IH]; intros retryCount s Hrun Hcap.
  - injection Hrun as <-. split; [lia |]. split.
    + intros r s' Hlast Hr. rewrite (_needle_native _ _ _ _ Hb), Hlast.
      destruct r as [a|err|]; try reflexivity.
      now rewrite (Hr err eq_refl).
    + intros Hfull err s' Hlast. rewrite (_needle_native _ _ _ _ Hb), Hlast.
      replace (retryCount <? MAX_ECONNREFUSED_RETRIES)%nat with false
        by (symmetry; apply Nat.ltb_nlt; lia).
      now rewrite andb_false_r.
  - cbn [after_refusals] in Hrun.
    destruct (needle_once url o s) as [[a|err|] s1] eqn:Hfirst; try discriminate.
    destruct (is_ECONNREFUSED err) eqn:Hrefused; [|discriminate].
    destruct (IH (retryCount + 1) _ Hrun ltac:(lia)) as (Hw & Hin & Hout).
    assert (Hstep : _needle url (Some o) retryCount s
                    = _needle url (Some o) (retryCount + 1) (snd (sleep 50 s1))).
    { rewrite (_needle_native _ _ _ _ Hb), Hfirst, Hrefused.
      now replace (retryCount <? MAX_ECONNREFUSED_RETRIES)%nat with true
        by (symmetry; apply Nat.ltb_lt; lia). }
    split; [|split].
    + rewrite Hw, sleep_waited, (needle_once_waited _ _ _ _ _ Hfirst). lia.
    + intros r s' Hlast Hr. rewrite Hstep. now apply Hin.
    + intros Hfull err' s' Hlast. rewrite Hstep. apply Hout; [lia | assumption].
Qed.

Lemma fetchRemote_unfold url opts (s : state W) :
  fetchRemote url opts s =
  match fetchOnce url opts s with
  | (Rejected e0, s0) =>
      if is_timeout_class e0 then
        match fetchOnce url opts (snd (sleep 500 s0)) with
        | (Rejected e1, s1) =>
            if is_timeout_class e1 then
              match fetchOnce url opts (snd (sleep 1000 s1)) with
              | (Rejected e2, s2) =>
                  if is_timeout_class e2 then fetchOnce url opts (snd (sleep 5000 s2))
                  else (Rejected e2, s2)
              | r => r
              end
            else (Rejected e1, s1)
        | r => r
        end
      else (Rejected e0, s0)
  | r => r
  end.
Proof.
  cbv beta iota delta [fetchRemote catch retry bind sleep call throw fst snd].
  destruct (fetchOnce url opts s) as [[b0|e0|] s0]; try reflexivity.
  destruct (is_timeout_class e0) eqn:H0; cbv beta iota; [|now rewrite !H0].
  destruct (fetchOnce url opts _) as [[b1|e1|] s1]; try reflexivity.
  destruct (is_timeout_class e1) eqn:H1; cbv beta iota; [|now rewrite !H1].
  destruct (fetchOnce url opts _) as [[b2|e2|] s2]; try reflexivity.
  destruct (is_timeout_class e2); reflexivity.
Qed.

(** C4. [fetchRemote] retries a failure of the timeout or hang-up class at
    most three times: 500ms after the first failure, 1000ms after the second,
    5000ms after the third.  An attempt that resolves, or that fails outside
    of the class, settles the fetch at once, with no timer and no further
    attempt.  The outcome of the fourth attempt is final: when it fails, its
    error surfaces as it is, and nothing more is tried. *)
Theorem timeout_backoff_policy (url : string) (opts : option FetchOptions) (s : state W) :
  (forall r s0,
     fetchOnce url opts s = (r, s0) -> not_retried r = true ->
     fetchRemote url opts s = (r, s0))
  /\ (forall e0 s0,
        fetchOnce url opts s = (Rejected e0, s0) -> is_timeout_class e0 = true ->
        (forall r s1,
           fetchOnce url opts (snd (sleep 500 s0)) = (r, s1) -> not_retried r = true ->
           fetchRemote url opts s = (r, s1))
        /\ (forall e1 s1,
              fetchOnce url opts (snd (sleep 500 s0)) = (Rejected e1, s1) ->
              is_timeout_class e1 = true ->
              (forall r s2,
                 fetchOnce url opts (snd (sleep 1000 s1)) = (r, s2) ->
                 not_retried r = true ->
                 fetchRemote url opts s = (r, s2))
              /\ (forall e2 s2,
                    fetchOnce url opts (snd (sleep 1000 s1)) = (Rejected e2, s2) ->
                    is_timeout_class e2 = true ->
                    fetchRemote url opts s = fetchOnce url opts (snd (sleep 5000 s2))))).
Proof.
  assert (Hfinal : forall (r : outcome jsvalue) (s' : state W),
             not_retried r = true ->
             match r with
             | Rejected e => if is_timeout_class e then (Pending, s') else (Rejected e, s')
             | _ => (r, s')
             end = (r, s')).
  { intros [b|e|] s' Hr; try reflexivity.
    cbn in Hr. apply negb_true_iff in Hr. now rewrite Hr. }
  split.
  - intros r s0 H0 Hr. rewrite fetchRemote_unfold, H0.
    destruct r as [b|e|]; try reflexivity.
    cbn in Hr. apply negb_true_iff in Hr. now rewrite Hr.
  - intros e0 s0 H0 Hc0. split.
    + intros r s1 H1 Hr. rewrite fetchRemote_unfold, H0, Hc0, H1.
      destruct r as [b|e|]; try reflexivity.
      cbn in Hr. apply negb_true_iff in Hr. now rewrite Hr.
    + intros e1 s1 H1 Hc1. split.
      * intros r s2 H2 Hr. rewrite fetchRemote_unfold, H0, Hc0, H1, Hc1, H2.
        destruct r as [b|e|]; try reflexivity.
        cbn in Hr. apply negb_true_iff in Hr. now rewrite Hr.
      * intros e2 s2 H2 Hc2.
        now rewrite fetchRemote_unfold, H0, Hc0, H1, Hc1, H2, Hc2.
Qed.

(** The clause of [_needle] for a browser. *)
Lemma _needle_browser url opts retryCount (s : state W) :
  inBrowser = true ->
  _needle url opts retryCount s =
  if hasProxy then
    let command := "_fetchfile " +:+ encodeComponent url in
    match rexec command opts (world s) with
    | (Resolved content, w) =>
        (Resolved (Some {| statusCode := 200; body := nth 0 content VUndefined |}),
         mkState w (trace s ++ [ERexec command]))
    | (Rejected err, w) => (Rejected err, mkState w (trace s ++ [ERexec command]))
    | (Pending, w) => (Pending, mkState w (trace s ++ [ERexec command]))
    end
  else (Rejected (Error (strings "Unable to fetch remote file")), s).
Proof.
  intros Hb. rewrite _needle_equation_1, Hb. cbn [negb].
  destruct hasProxy; [|reflexivity].
  cbv beta iota zeta delta [negb bind call ret].
  now destruct (rexec _ opts (world s)) as [[content|err|] w].
Qed.

(** C5. In a browser the fetch never goes to the network by itself.  With
    a proxy, the only thing the client does is to issue the command
    [_fetchfile <encoded url>] through the REPL's remote execution; without
    one, it does nothing and fails with the error
    [Unable to fetch remote file].  In both cases no request through needle
    appears among the events of the call. *)
Theorem sandboxed_fetch_goes_through_proxy (url : string) (opts : option FetchOptions)
    (retryCount : nat) (s : state W) :
  inBrowser = true ->
  let command := "_fetchfile " +:+ encodeComponent url in
  (hasProxy = true ->
   exists r,
     _needle url opts retryCount s
     = (r, mkState (snd (rexec command opts (world s))) (trace s ++ [ERexec command])))
  /\ (hasProxy = false ->
      _needle url opts retryCount s
      = (Rejected (Error (strings "Unable to fetch remote file")), s))
  /\ (exists t,
        trace (snd (_needle url opts retryCount s)) = trace s ++ t
        /\ existsb is_ENeedle t = false).
Proof.
  intros Hb command. rewrite (_needle_browser _ _ _ _ Hb). subst command. cbv zeta.
  destruct hasProxy.
  - destruct (rexec _ opts (world s)) as [[content|err|] w]; cbn [snd].
    all: split; [intros _; eexists; reflexivity |].
    all: split; [discriminate |].
    all: eexists [_]; split; reflexivity.
  - split; [discriminate |]. split; [reflexivity |].
    exists []. cbn [snd]. now rewrite app_nil_r.
Qed.

(** C10. In a browser with a proxy, when the [_fetchfile] command resolves,
    the fetch resolves with status code 200, whatever the proxied request
    met upstream, and with the first element of the content of the command
    as its body ([undefined] when the content is empty). *)
Theorem proxied_fetch_reports_200 (url : string) (opts : option FetchOptions)
    (retryCount : nat) (s : state W) (content : list jsvalue) (w : W) :
  inBrowser = true ->
  hasProxy = true ->
  rexec ("_fetchfile " +:+ encodeComponent url) opts (world s) = (Resolved content, w) ->
  exists r s',
    _needle url opts retryCount s = (Resolved (Some r), s')
    /\ statusCode r = 200%Z
    /\ body r = match content with
                | [] => VUndefined
                | first :: _ => first
                end.
Proof.
  intros Hb Hp Hrexec. rewrite (_needle_browser _ _ _ _ Hb), Hp. cbv zeta.
  rewrite Hrexec. eexists _, _. split; [reflexivity |].
  split; [reflexivity |]. now destruct content.
Qed.

End Client.

(** *** The policies on a scripted peer *)

Import SimFetch.

(** Three refusals, then a success: the success is returned after 150ms. *)
Lemma econnrefused_retry_policy_witness :
  exists s',
    @_needle sim native "http://localhost:8001/api" (Some no_options) 0
      (peer [Rejected refused; Rejected refused; Rejected refused; Resolved (ok "pods")] [])
    = (Resolved (Some (ok "pods")), s')
    /\ waited (trace s') = 150
    /\ clock (world s') = 150.
Proof.
  pose (s := peer [Rejected refused; Rejected refused; Rejected refused; Resolved (ok "pods")] []).
  let t := eval vm_compute in
      (default s (@after_refusals sim native "http://localhost:8001/api" no_options 3 s)) in
  pose (sk := t).
  destruct (@econnrefused_retry_policy sim native "http://localhost:8001/api" no_options
              3 0 s sk) as (Hw & Hin & _).
  - reflexivity.
  - vm_compute. reflexivity.
  - vm_compute. lia.
  - eexists. split; [|split].
    + apply Hin; [vm_compute; reflexivity | discriminate].
    + vm_compute. reflexivity.
    + vm_compute. reflexivity.
Defined.

(** Four hang-ups in a row: the last one surfaces after 500 + 1000 + 5000 ms,
    and the fifth answer of the peer is never asked for. *)
Lemma timeout_backoff_policy_witness :
  exists s',
    @fetchRemote sim native "http://localhost:8001/api" (Some no_options)
      (peer [Rejected timed_out; Rejected timed_out; Rejected timed_out; Rejected timed_out;
             Resolved (ok "pods")] [])
    = (Rejected timed_out, s')
    /\ clock (world s') = 500 + 1000 + 5000
    /\ replies (world s') = [Resolved (ok "pods")].
Proof.
  pose (s := peer [Rejected timed_out; Rejected timed_out; Rejected timed_out;
                   Rejected timed_out; Resolved (ok "pods")] []).
  destruct (@timeout_backoff_policy sim native "http://localhost:8001/api" (Some no_options) s)
    as (_ & H0).
  let t := eval vm_compute in
      (@fetchOnce sim native "http://localhost:8001/api" (Some no_options) s) in
  pose (a0 := t).
  destruct (H0 timed_out (snd a0) eq_refl eq_refl) as (_ & H1).
  let t := eval vm_compute in
      (@fetchOnce sim native "http://localhost:8001/api" (Some no_options)
            (snd (@sleep sim native 500 (snd a0)))) in
  pose (a1 := t).
  destruct (H1 timed_out (snd a1) eq_refl eq_refl) as (_ & H2).
  let t := eval vm_compute in
      (@fetchOnce sim native "http://localhost:8001/api" (Some no_options)
            (snd (@sleep sim native 1000 (snd a1)))) in
  pose (a2 := t).
  pose proof (H2 timed_out (snd a2) eq_refl eq_refl) as H3.
  eexists. split; [|split].
  - fold s. rewrite H3. vm_compute. reflexivity.
  - reflexivity.
  - reflexivity.
Defined.

(** A browser behind a proxy, and one without. *)
Lemma sandboxed_fetch_goes_through_proxy_witness :
  @_needle sim proxied "https://k8s.io/examples/pod.yaml" None 0
    (peer [Resolved (ok "direct")] [VString "kind: Pod"])
  = (Resolved (Some {| statusCode := 200; body := VString "kind: Pod" |}),
     mkState (mkSim [Resolved (ok "direct")] 0 (Resolved [VString "kind: Pod"]))
             [ERexec "_fetchfile https://k8s.io/examples/pod.yaml"])
  /\ @_needle sim isolated "https://k8s.io/examples/pod.yaml" None 0
       (peer [Resolved (ok "direct")] [])
     = (Rejected (Error "Unable to fetch remote file"), peer [Resolved (ok "direct")] []).
Proof.
  split.
  - destruct (@sandboxed_fetch_goes_through_proxy sim proxied
                "https://k8s.io/examples/pod.yaml" None 0
                (peer [Resolved (ok "direct")] [VString "kind: Pod"]) eq_refl)
      as (Hp & _ & _).
    destruct (Hp eq_refl) as (r & Hr). reflexivity.
  - destruct (@sandboxed_fetch_goes_through_proxy sim isolated
                "https://k8s.io/examples/pod.yaml" None 0
                (peer [Resolved (ok "direct")] []) eq_refl)
      as (_ & Hn & _).
    exact (Hn eq_refl).
Defined.

(** The proxy answers with two elements: the first is the body. *)
Lemma proxied_fetch_reports_200_witness :
  exists r s',
    @_needle sim proxied "https://k8s.io/missing.yaml" None 0
      (peer [] [VString "404 page not found"; VString "more"])
    = (Resolved (Some r), s')
    /\ statusCode r = 200%Z
    /\ body r = VString "404 page not found".
Proof.
  exact (@proxied_fetch_reports_200 sim proxied "https://k8s.io/missing.yaml" None 0
           (peer [] [VString "404 page not found"; VString "more"])
           [VString "404 page not found"; VString "more"]
           (mkSim [] 0 (Resolved [VString "404 page not found"; VString "more"]))
           eq_refl eq_refl eq_refl).
Defined.

End FetchSpec.

(** ** The object-storage responder *)

Module S3Spec.
Import Js Path Async S3.

Ltac run :=
  cbv beta iota zeta delta
    [split promise_all bind catch call ask start await throw ret console_error pending
     id from_option default];
  cbn [run_all settle_all first_rejected all_resolved option_map
       map imap concat app length lookup list_lookup Nat.eqb negb andb
       isS3Provider world trace fst snd gs_path existsb].

Section Responder.
Context {W : Type} `{World W}.









Lemma settle_all_resolved {A} (os : list (outcome A)) vs :
  settle_all os = Resolved vs -> all_resolved os = Some vs.
Proof.
  unfold settle_all. destruct (first_rejected os); [discriminate |].
  destruct (all_resolved os); [|discriminate]. now intros [= ->].
Qed.



Lemma rm_recursive_bare this fp bucketName (s : state W) :
  split_path this fp = Some (bucketName, "") ->
  rm this fp true s =
  (match fst (rimraf this bucketName s) with
   | Resolved r => Resolved (RmMessage r)
   | Rejected e => Rejected e
   | Pending => Pending
   end, snd (rimraf this bucketName s)).
Proof.
  intros Hsplit.
  cbv beta iota zeta delta [rm split bind catch start await throw ret].
  rewrite Hsplit. cbn [String.eqb negb].
  now destruct (rimraf this bucketName s) as [[r|e|] s'].
Qed.


(** C7, amended. When the storage client rejects the bucket name of [mkdir]
    with a message saying [Invalid bucket name], the error raised carries
    that message followed by the guidance for the first violated rule, in
    this order: at most 2 characters, more than 63 characters, an
    underscore, a trailing dash, a dot.  A rule is cited only when no
    earlier one applies, and when none of the five applies the message of
    the client is raised unchanged. *)
Theorem mkdir_cites_first_violated_rule (this : Provider) (fp bucketName rest : string)
    (s : state W) (err : error) (w : W) :
  split_path this fp = Some (bucketName, rest) ->
  makeBucket_ (mountName this) bucketName (world s) = (Rejected err, w) ->
  contains "Invalid bucket name" (message err) = true ->
  let n := js_length bucketName in
  let fails_with suffix :=
    mkdir this fp s
    = (Rejected (Error (message err +:+ suffix)),
       mkState w (trace s ++ [MakeBucket (mountName this) bucketName])) in
  (n <= 2 -> fails_with ". Bucket names must have at least 3 characters.")
  /\ (63 < n -> fails_with ". Bucket names must have no more than 63 characters.")
  /\ (2 < n <= 63 -> contains "_" bucketName = true ->
      fails_with ". Bucket names must not contain underscore.")
  /\ (2 < n <= 63 -> contains "_" bucketName = false ->
      ends_with_char "-" bucketName = true ->
      fails_with ". Bucket names must not end with a dash.")
  /\ (2 < n <= 63 -> contains "_" bucketName = false ->
      ends_with_char "-" bucketName = false -> contains "." bucketName = true ->
      fails_with ". Bucket names must not contain dots.")
  /\ (2 < n <= 63 -> contains "_" bucketName = false ->
      ends_with_char "-" bucketName = false -> contains "." bucketName = false ->
      fails_with "").
Proof.
  intros Hsplit Hmake Hinvalid n fails_with.
  assert (Hrun : mkdir this fp s
     = (Rejected (Error (message err +:+
          (if n <=? 2 then ". Bucket names must have at least 3 characters."
           else if 63 <? n then ". Bucket names must have no more than 63 characters."
           else if contains "_" bucketName then ". Bucket names must not contain underscore."
           else if ends_with_char "-" bucketName then ". Bucket names must not end with a dash."
           else if contains "." bucketName then ". Bucket names must not contain dots."
           else ""))),
        mkState w (trace s ++ [MakeBucket (mountName this) bucketName]))).
  { cbv beta iota zeta delta [mkdir split bind catch call throw ret].
    rewrite Hsplit. cbn [fst]. rewrite Hmake, Hinvalid. fold n.
    destruct (n <=? 2); [reflexivity |].
    destruct (63 <? n); [reflexivity |].
    destruct (contains "_" bucketName); [reflexivity |].
    destruct (ends_with_char "-" bucketName); [reflexivity |].
    destruct (contains "." bucketName); [reflexivity |].
    now rewrite JsFacts.append_nil_r. }
  subst fails_with. cbv beta. rewrite Hrun.
  repeat split.
  - intros Hn. now rewrite (proj2 (Nat.leb_le _ _) Hn).
  - intros Hn. rewrite (proj2 (Nat.leb_gt _ _)) by lia.
    now rewrite (proj2 (Nat.ltb_lt _ _) Hn).
  - intros [Hlo Hhi] ->. rewrite (proj2 (Nat.leb_gt _ _)) by lia.
    now rewrite (proj2 (Nat.ltb_ge _ _)) by lia.
  - intros [Hlo Hhi] -> ->. rewrite (proj2 (Nat.leb_gt _ _)) by lia.
    now rewrite (proj2 (Nat.ltb_ge _ _)) by lia.
  - intros [Hlo Hhi] -> -> ->. rewrite (proj2 (Nat.leb_gt _ _)) by lia.
    now rewrite (proj2 (Nat.ltb_ge _ _)) by lia.
  - intros [Hlo Hhi] -> -> ->. rewrite (proj2 (Nat.leb_gt _ _)) by lia.
    now rewrite (proj2 (Nat.ltb_ge _ _)) by lia.
Qed.

Lemma dstIsDirectory_not_a_directory dst (s : state W) st w :
  stat_ dst (world s) = (st, w) ->
  not_a_directory st = true ->
  dstIsDirectory dst s = (Resolved false, mkState w (trace s ++ [Stat dst])).
Proof.
  intros Hstat Hnot. unfold dstIsDirectory. rewrite Hstat.
  destruct st as [err|[]]; try discriminate; [|reflexivity].
  cbn in Hnot. now rewrite Hnot.
Qed.

(** Several source paths and a destination that is not a directory. *)
Lemma fGetObject_refuses_several_paths this srcs dst (s : state W) answer w1 st w2 :
  rexec_ (vfs_ls srcs) (world s) = (answer, w1) ->
  stat_ dst w1 = (st, w2) ->
  not_a_directory st = true ->
  1 < length srcs ->
  fGetObject this srcs dst s
  = (Rejected (Error "Destination is not a directory"),
     mkState w2 (trace s ++ [Rexec (vfs_ls srcs); Stat dst])).
Proof.
  intros Hls Hstat Hnot Hlen.
  unfold fGetObject, resolve_sources. run. rewrite Hls. run.
  erewrite dstIsDirectory_not_a_directory; [|exact Hstat|exact Hnot]. run.
  rewrite (proj2 (Nat.ltb_lt _ _) Hlen). run. now rewrite <- !app_assoc.
Qed.

(** One source path that resolves to one object. *)
Lemma fGetObject_single this src dst (s : state W) g w1 st w2 b f w3 :
  rexec_ (vfs_ls [src]) (world s) = (Resolved [g], w1) ->
  stat_ dst w1 = (st, w2) ->
  not_a_directory st = true ->
  split_path this (gs_path g) = Some (b, f) ->
  fGetObject_ (mountName this) b f dst w2 = (Resolved tt, w3) ->
  fGetObject this [src] dst s
  = (Resolved ("Fetched " +:+ basename (gs_path g) +:+ " to " +:+ dst),
     mkState w3 (trace s ++ [Rexec (vfs_ls [src]); Stat dst;
                             FGetObject (mountName this) b f dst])).
Proof.
  intros Hls Hstat Hnot Hsplit Hget.
  unfold fGetObject, resolve_sources. run. rewrite Hls. run.
  erewrite dstIsDirectory_not_a_directory; [|exact Hstat|exact Hnot]. run.
  cbn [Nat.ltb Nat.leb]. rewrite Hsplit. run. rewrite Hget. run.
  now rewrite <- !app_assoc.
Qed.

(** One source path that resolves to two objects: both are written to the
    same file. *)
Lemma fGetObject_glob this src dst (s : state W) g1 g2 w1 st w2 b1 f1 b2 f2 w3 w4 :
  rexec_ (vfs_ls [src]) (world s) = (Resolved [g1; g2], w1) ->
  stat_ dst w1 = (st, w2) ->
  not_a_directory st = true ->
  split_path this (gs_path g1) = Some (b1, f1) ->
  split_path this (gs_path g2) = Some (b2, f2) ->
  fGetObject_ (mountName this) b1 f1 dst w2 = (Resolved tt, w3) ->
  fGetObject_ (mountName this) b2 f2 dst w3 = (Resolved tt, w4) ->
  fGetObject this [src] dst s
  = (Resolved ("Fetched " +:+ (basename (gs_path g1) +:+ " and " +:+ basename (gs_path g2))
               +:+ " to " +:+ dst),
     mkState w4 (trace s ++ [Rexec (vfs_ls [src]); Stat dst;
                             FGetObject (mountName this) b1 f1 dst;
                             FGetObject (mountName this) b2 f2 dst])).
Proof.
  intros Hls Hstat Hnot Hsplit1 Hsplit2 Hget1 Hget2.
  unfold fGetObject, resolve_sources. run. rewrite Hls. run.
  erewrite dstIsDirectory_not_a_directory; [|exact Hstat|exact Hnot]. run.
  cbn [Nat.ltb Nat.leb]. rewrite Hsplit1. run. rewrite Hget1. run. rewrite Hsplit2. run. rewrite Hget2. run.
  now rewrite <- !app_assoc.
Qed.

(** Copying out of a bucket is [fGetObject], its errors unchanged. *)
Lemma cp_out this po srcs dst srcIsSelf srcProvider (s : state W) :
  cp this po srcs dst srcIsSelf false srcProvider s
  = match fGetObject this srcs dst s with
    | (Resolved r, s') => (Resolved (CpFetched r), s')
    | (Rejected e, s') => (Rejected e, s')
    | (Pending, s') => (Pending, s')
    end.
Proof.
  unfold cp. run. now destruct (fGetObject this srcs dst s) as [[r|e|] s'].
Qed.

(** C1. Where the code departs from the claim: the destination is not a
    directory and the single source path resolves to two objects.  [cp]
    does not fail with [Destination is not a directory]: it downloads both
    objects to the destination path, the second over the first, and
    resolves. *)
Theorem cp_glob_into_file_is_not_refused (this : Provider) (po : ParsedOptions)
    (src dst : string) (srcIsSelf : list bool) (srcProvider : list VFS) (s : state W)
    (g1 g2 : GlobStats) (st : stat_result) (b1 f1 b2 f2 : string) (w1 w2 w3 w4 : W) :
  rexec_ (vfs_ls [src]) (world s) = (Resolved [g1; g2], w1) ->
  stat_ dst w1 = (st, w2) ->
  not_a_directory st = true ->
  split_path this (gs_path g1) = Some (b1, f1) ->
  split_path this (gs_path g2) = Some (b2, f2) ->
  fGetObject_ (mountName this) b1 f1 dst w2 = (Resolved tt, w3) ->
  fGetObject_ (mountName this) b2 f2 dst w3 = (Resolved tt, w4) ->
  cp this po [src] dst srcIsSelf false srcProvider s
  = (Resolved (CpFetched ("Fetched " +:+ (basename (gs_path g1) +:+ " and "
                                          +:+ basename (gs_path g2))
                          +:+ " to " +:+ dst)),
     mkState w4 (trace s ++ [Rexec (vfs_ls [src]); Stat dst;
                             FGetObject (mountName this) b1 f1 dst;
                             FGetObject (mountName this) b2 f2 dst])).
Proof.
  intros Hls Hstat Hnot Hsplit1 Hsplit2 Hget1 Hget2.
  rewrite cp_out.
  now rewrite (fGetObject_glob _ _ _ _ _ _ _ _ _ _ _ _ _ _ _
                 Hls Hstat Hnot Hsplit1 Hsplit2 Hget1 Hget2).
Qed.

Lemma foldl_sum (l : list nat) (acc : nat) :
  foldl (fun sum count => sum + count) acc l = acc + sum_list l.
Proof.
  revert acc. induction l as [|n l IH]; intros acc; simpl; [lia |].
  rewrite IH. lia.
Qed.

(** The three shapes of the result of [grep], over the outputs of the
    runner. *)
Lemma grep_shapes this po pattern fps (s : state W) srcs w1 outs w2 :
  rexec_ (vfs_ls fps) (world s) = (Resolved srcs, w1) ->
  runWithLogs_ (grep_commands pattern srcs) w1 = (Resolved outs, w2) ->
  let s' := mkState w2 (trace s ++ [Rexec (vfs_ls fps);
                                    RunWithLogs (grep_commands pattern srcs)]) in
  (opt_c po = true ->
   grep this po pattern fps s = (Resolved (GrepCount (sum_list (map count_lines outs))), s'))
  /\ (opt_c po = false -> opt_l po = false ->
      forallb (fun out => String.eqb out "") outs = true ->
      grep this po pattern fps s = (Rejected (Error ""), s'))
  /\ (opt_c po = false -> opt_l po = false ->
      forallb (fun out => String.eqb out "") outs = false ->
      grep this po pattern fps s = (Resolved (GrepMatches outs), s')).
Proof.
  intros Hls Hlogs s'. subst s'.
  assert (Hempty : forall out, (String.length out =? 0) = String.eqb out "").
  { now intros [|c out]. }
  assert (Hall : forallb (fun out => String.length out =? 0) outs
                 = forallb (fun out => String.eqb out "") outs).
  { clear Hlogs. induction outs as [|out outs IH]; [reflexivity |].
    cbn [forallb]. now rewrite Hempty, IH. }
  split; [|split].
  - intros Hc. unfold grep, resolve_sources. run. rewrite Hls. run. rewrite Hlogs. run.
    rewrite Hc. run. rewrite foldl_sum, <- !app_assoc. reflexivity.
  - intros Hc Hl Hnone. unfold grep, resolve_sources. run. rewrite Hls. run.
    rewrite Hlogs. run. rewrite Hc, Hl, Hall, Hnone. run. now rewrite <- !app_assoc.
  - intros Hc Hl Hsome. unfold grep, resolve_sources. run. rewrite Hls. run.
    rewrite Hlogs. run. rewrite Hc, Hl, Hall, Hsome. run. now rewrite <- !app_assoc.
Qed.

Lemma files_of_outputs (f : nat -> option string) (outs : list string) (x : option string) :
  x ∈ concat (imap (fun idx matches =>
                      if 0 <? String.length matches then [f idx] else []) outs)
  <-> exists idx out, outs !! idx = Some out /\ out <> "" /\ x = f idx.
Proof.
  revert f. induction outs as [|out outs IH]; intros f.
  - split; [intros Hin; inversion Hin | intros (idx & out & Hl & _); discriminate].
  - rewrite imap_cons. cbn [concat]. rewrite elem_of_app.
    specialize (IH (f ∘ S)). cbv beta delta [compose] in IH. rewrite IH. clear IH. split.
    + intros [Hin|(idx & out' & Hl & Hne & ->)].
      * destruct out as [|c out]; cbn in Hin; [inversion Hin |].
        apply list_elem_of_singleton in Hin as ->. exists 0, (String c out).
        repeat split; discriminate.
      * exists (S idx), out'. auto.
    + intros ([|idx] & out' & Hl & Hne & ->).
      * injection Hl as ->. left. destruct out' as [|c out']; [contradiction |].
        cbn. apply list_elem_of_singleton. reflexivity.
      * right. exists idx, out'. auto.
Qed.

(** With [-l], the result holds [filepaths[idx]] for every index [idx] of
    a non-empty output, the indices being those of the resolved sources. *)
Lemma grep_files this po pattern fps (s : state W) srcs w1 outs w2 :
  rexec_ (vfs_ls fps) (world s) = (Resolved srcs, w1) ->
  runWithLogs_ (grep_commands pattern srcs) w1 = (Resolved outs, w2) ->
  opt_c po = false -> opt_l po = true ->
  exists files,
    grep this po pattern fps s
    = (Resolved (GrepFiles files),
       mkState w2 (trace s ++ [Rexec (vfs_ls fps); RunWithLogs (grep_commands pattern srcs)]))
    /\ forall x, x ∈ files <->
                 exists idx out, outs !! idx = Some out /\ out <> "" /\ x = fps !! idx.
Proof.
  intros Hls Hlogs Hc Hl. eexists. split.
  - unfold grep, resolve_sources. run. rewrite Hls. run. rewrite Hlogs. run.
    rewrite Hc, Hl. run. rewrite <- !app_assoc. reflexivity.
  - intros x. apply files_of_outputs.
Qed.

(** C9. Where the code departs from the claim: [grep -l] over one input
    path that resolves to two sources, the second of which has a match.
    The outputs are indexed by the resolved sources and the result is read
    from the input paths at the same index: it holds the input path when the
    first source has a match, and then [undefined] for the second source,
    which is neither an input path nor the matching file. *)
Theorem grep_l_on_glob_lists_undefined (this : Provider) (po : ParsedOptions)
    (pattern fp : string) (s : state W) (g1 g2 : GlobStats) (out1 out2 : string)
    (w1 w2 : W) :
  rexec_ (vfs_ls [fp]) (world s) = (Resolved [g1; g2], w1) ->
  runWithLogs_ (grep_commands pattern [g1; g2]) w1 = (Resolved [out1; out2], w2) ->
  opt_c po = false ->
  opt_l po = true ->
  out2 <> "" ->
  grep this po pattern [fp] s
  = (Resolved (GrepFiles ((if String.eqb out1 "" then [] else [Some fp]) ++ [None])),
     mkState w2 (trace s ++ [Rexec (vfs_ls [fp]);
                             RunWithLogs (grep_commands pattern [g1; g2])])).
Proof.
  intros Hls Hlogs Hc Hl Hout2.
  unfold grep, resolve_sources. run. rewrite Hls. run. rewrite Hlogs. run.
  rewrite Hc, Hl. run. rewrite <- !app_assoc.
  destruct out2 as [|c2 out2]; [contradiction |].
  destruct out1 as [|c1 out1]; reflexivity.
Qed.

End Responder.

(** *** The responder on the in-memory store *)

Import SimS3.


Example rm_recursive_on_photos :
  let r := rm minio "/s3/minio/photos" true (start_of photos) in
  fst r = Resolved (RmMessage "Removed bucket X and its contents")
  /\ trace (snd r)
     = [ListBuckets "minio" (Resolved ["photos"]);
        ListObjects "minio" "photos" None true
          (Resolved (mkStream [item "a.jpg"; item "b.jpg"] SEnd));
        RemoveObjects "minio" "photos" ["a.jpg"; "b.jpg"];
        RemoveBucket "minio" "photos"]
  /\ buckets (world (snd r)) !! "photos" = None.
Proof. vm_compute. repeat split. Qed.

(** The name [Has_Underscore] cites the underscore. *)
Lemma mkdir_cites_first_violated_rule_witness :
  mkdir minio "/s3/minio/Has_Underscore" (start_of photos)
  = (Rejected (Error ("Invalid bucket name: Has_Underscore"
                      +:+ ". Bucket names must not contain underscore.")),
     mkState photos [MakeBucket "minio" "Has_Underscore"]).
Proof.
  destruct (mkdir_cites_first_violated_rule minio "/s3/minio/Has_Underscore"
              "Has_Underscore" "" (start_of photos)
              (Error "Invalid bucket name: Has_Underscore") photos)
    as (_ & _ & Hunderscore & _).
  - vm_compute. reflexivity.
  - vm_compute. reflexivity.
  - vm_compute. reflexivity.
  - apply Hunderscore; [vm_compute; lia | vm_compute; reflexivity].
Defined.

(** C7, as stated, fails on the name [a_]: it contains an underscore, and
    the error cites the minimal length, not the underscore. *)
Lemma mkdir_underscore_cites_length :
  contains "_" "a_" = true
  /\ fst (mkdir minio "/s3/minio/a_" (start_of photos))
     = Rejected (Error "Invalid bucket name: a_. Bucket names must have at least 3 characters.")
  /\ contains "underscore"
       "Invalid bucket name: a_. Bucket names must have at least 3 characters." = false.
Proof. vm_compute. repeat split. Qed.

Example mkdir_upper_case_is_generic :
  fst (mkdir minio "/s3/minio/UPPER" (start_of photos))
  = Rejected (Error "Invalid bucket name: UPPER").
Proof. vm_compute. reflexivity. Qed.

Example mkdir_two_characters :
  fst (mkdir minio "/s3/minio/ab" (start_of photos))
  = Rejected (Error "Invalid bucket name: ab. Bucket names must have at least 3 characters.").
Proof. vm_compute. reflexivity. Qed.


(** The destination [/tmp/out] does not exist and the path
    [/s3/minio/photos/*] resolves to two objects: both are downloaded to
    [/tmp/out], and the file holds the second. *)
Lemma cp_glob_into_file_is_not_refused_witness :
  exists s',
    cp minio no_flags ["/s3/minio/photos/*"] "/tmp/out" [true] false [minio_vfs]
       (start_of photos)
    = (Resolved (CpFetched "Fetched a.jpg and b.jpg to /tmp/out"), s')
    /\ trace s'
       = [Rexec "vfs ls /s3/minio/photos/*"; Stat "/tmp/out";
          FGetObject "minio" "photos" "a.jpg" "/tmp/out";
          FGetObject "minio" "photos" "b.jpg" "/tmp/out"]
    /\ files (world s') !! "/tmp/out" = Some "photos/b.jpg".
Proof.
  eexists. split; [|split].
  - eapply (cp_glob_into_file_is_not_refused minio no_flags "/s3/minio/photos/*" "/tmp/out"
              [true] [minio_vfs] (start_of photos)
              (Build_GlobStats "/s3/minio/photos/a.jpg")
              (Build_GlobStats "/s3/minio/photos/b.jpg")
              (fst (stat_ "/tmp/out" photos)) "photos" "a.jpg" "photos" "b.jpg").
    all: vm_compute; reflexivity.
  - vm_compute. reflexivity.
  - vm_compute. reflexivity.
Defined.

Example cp_two_paths_into_file_is_refused :
  fst (cp minio no_flags ["/s3/minio/photos/a.jpg"; "/s3/minio/photos/b.jpg"] "/tmp/out"
          [true; true] false [minio_vfs; minio_vfs] (start_of photos))
  = Rejected (Error "Destination is not a directory").
Proof. vm_compute. reflexivity. Qed.

Example cp_one_object_into_file :
  let r := cp minio no_flags ["/s3/minio/photos/a.jpg"] "/tmp/out" [true] false [minio_vfs]
              (start_of photos) in
  fst r = Resolved (CpFetched "Fetched a.jpg to /tmp/out")
  /\ files (world (snd r)) !! "/tmp/out" = Some "photos/a.jpg".
Proof. vm_compute. split; reflexivity. Qed.

(** [grep -l Exif] over [/s3/minio/photos/*]: [a.jpg] has no match, [b.jpg]
    has one, and the result is [undefined] alone. *)
Lemma grep_l_on_glob_lists_undefined_witness :
  exists s',
    grep minio list_flag "Exif" ["/s3/minio/photos/*"] (start_of photos)
    = (Resolved (GrepFiles [None]), s')
    /\ trace s'
       = [Rexec "vfs ls /s3/minio/photos/*";
          RunWithLogs ["cat /s3/minio/photos/a.jpg | grep Exif";
                       "cat /s3/minio/photos/b.jpg | grep Exif"]].
Proof.
  eexists. split.
  - eapply (grep_l_on_glob_lists_undefined minio list_flag "Exif" "/s3/minio/photos/*"
              (start_of photos)
              (Build_GlobStats "/s3/minio/photos/a.jpg")
              (Build_GlobStats "/s3/minio/photos/b.jpg")
              "" (String "E" (String (ascii_of_N 10) ""))).
    1-4: vm_compute; reflexivity.
    discriminate.
  - vm_compute. reflexivity.
Defined.

End S3Spec.

(** ** Failures are thrown again, except by [ls] *)

Module AuditSpec.
Import Js Path Async S3 S3Zip Audit JsFacts S3Spec.

Ltac audited :=
  cbn [listBuckets_ listObjects_ fPutObject_ fGetObject_ copyObject_ getObject_ putObject_
       removeObjects_ removeBucket_ makeBucket_ rexec_ runWithProgress_ runWithLogs_ stat_
       runWithProgress_with audited_world audited_runner].


Section Responder.
Context {W : Type} `{Runner W}.



















Lemma honest_rethrow {A} R (E E' : error -> list error -> Prop)
    (m : M (state (audited W)) A) (f : error -> error) :
  honest R E m -> (forall e new, E e new -> E' (f e) new) ->
  honest R E' (catch m (fun err => throw (f err))).
Proof.
  intros Hm Hf s. unfold catch, throw.
  destruct (Hm s) as (new & Hnew & Hr).
  destruct (m s) as [[a|e|] s1]; cbn [fst snd] in *; exists new; (split; [exact Hnew |]).
  - exact Hr.
  - now apply Hf.
  - exact Hr.
Qed.








(** *** The wrapper changes nothing *)






































(** *** The listings *)





(** *** Removal *)





(** *** Copies *)













(** *** The other operations *)







(** *** [ls] *)





End Responder.

(** *** The failures of the in-memory store *)

Import SimS3 SimMore.

(** The collaborators of the in-memory store settle. *)
Lemma mem_settling : @settling mem mem_world mem_runner.
Proof.
  constructor; intros; cbn;
    unfold sim_listObjects, sim_removeObjects, sim_removeBucket, sim_makeBucket,
      sim_fGetObject, sim_putObject, sim_rexec, guarded in *;
    repeat case_match; cbn in *; try congruence.
  - unfold sim_listObjects, guarded in *.
    repeat case_match; cbn in *; try discriminate;
      match goal with Heq : Resolved _ = Resolved _ |- _ => injection Heq as <- end;
      discriminate.
  - match goal with Heq : _ = Resolved _ |- _ => revert Heq end.
    unfold guarded. repeat case_match; cbn; try discriminate.
    intros [= <-]. discriminate.
Qed.


End AuditSpec.

(** ** More on the URL formatter *)

Module UrlMore.
Import Js JsFacts Url Reading.

Lemma append_inv_head (a b c : string) : a +:+ b = a +:+ c -> b = c.
Proof.
  induction a as [|x a IH]; [trivial |].
  rewrite !append_cons. now intros [= Heq%IH].
Qed.

Lemma length_append (a b : string) :
  String.length (a +:+ b) = String.length a + String.length b.
Proof.
  induction a as [|x a IH]; [reflexivity |].
  rewrite append_cons. cbn [String.length]. now rewrite IH.
Qed.

Lemma append_inv_tail (a b c : string) : a +:+ c = b +:+ c -> a = b.
Proof.
  revert b. induction a as [|x a IH]; intros [|y b] Heq.
  - reflexivity.
  - apply (f_equal String.length) in Heq.
    rewrite append_cons, append_nil_l in Heq. cbn [String.length] in Heq.
    rewrite length_append in Heq. lia.
  - apply (f_equal String.length) in Heq.
    rewrite append_cons, append_nil_l in Heq. cbn [String.length] in Heq.
    rewrite length_append in Heq. lia.
  - rewrite !append_cons in Heq. injection Heq as -> Heq. f_equal. now apply IH.
Qed.

Lemma hex_digit_inj (j k : N) :
  (j < 16)%N -> (k < 16)%N -> hex_digit j = hex_digit k -> j = k.
Proof.
  intros Hj Hk. unfold hex_digit. intros Heq.
  apply N2Nat.inj.
  assert (Hi : N.to_nat j < 16) by lia.
  assert (Hi' : N.to_nat k < 16) by lia.
  revert Hi Hi' Heq. generalize (N.to_nat j) as i, (N.to_nat k) as i'.
  intros i i' Hi Hi' Heq.
  do 16 (destruct i as [|i];
         [do 16 (destruct i' as [|i'];
                 [first [reflexivity | vm_compute in Heq; discriminate Heq] |]); lia |]).
  lia.
Qed.

Lemma pct_encode_inj (c d : ascii) : pct_encode c = pct_encode d -> c = d.
Proof.
  unfold pct_encode. intros [= Hh Hl].
  assert (Hc : (N_of_ascii c < 256)%N) by apply N_ascii_bounded.
  assert (Hd : (N_of_ascii d < 256)%N) by apply N_ascii_bounded.
  apply hex_digit_inj in Hh;
    [|apply N.Div0.div_lt_upper_bound; lia|apply N.Div0.div_lt_upper_bound; lia].
  apply hex_digit_inj in Hl; [|apply N.mod_lt; lia|apply N.mod_lt; lia].
  rewrite <- (ascii_N_embedding c), <- (ascii_N_embedding d). f_equal.
  rewrite (N.div_mod (N_of_ascii c) 16), (N.div_mod (N_of_ascii d) 16) by lia.
  now rewrite Hh, Hl.
Qed.

(** The byte that a chunk of the encoding stands for can be read back. *)
Lemma encoded_byte_inj (c d : ascii) (s t : string) :
  (if uri_unreserved c then String c "" else pct_encode c) +:+ s
  = (if uri_unreserved d then String d "" else pct_encode d) +:+ t ->
  c = d /\ s = t.
Proof.
  destruct (uri_unreserved c) eqn:Hc, (uri_unreserved d) eqn:Hd.
  - rewrite !append_cons, !append_nil_l. now intros [= -> ->].
  - unfold pct_encode. rewrite !append_cons, !append_nil_l. intros [= -> _].
    discriminate.
  - unfold pct_encode. rewrite !append_cons, !append_nil_l. intros [= <- _].
    discriminate.
  - intros Heq.
    assert (Hp : pct_encode c = pct_encode d /\ s = t).
    { unfold pct_encode in *. rewrite !append_cons, !append_nil_l in Heq.
      injection Heq as Hh Hl ->. now rewrite Hh, Hl. }
    destruct Hp as [Hp ->]. split; [|reflexivity]. now apply pct_encode_inj.
Qed.

Lemma encodeURIComponent_inj (s t : string) :
  encodeURIComponent s = encodeURIComponent t -> s = t.
Proof.
  revert t. induction s as [|c s IH]; intros [|d t]; cbn [encodeURIComponent].
  - reflexivity.
  - destruct (uri_unreserved d); unfold pct_encode; rewrite !append_cons; discriminate.
  - destruct (uri_unreserved c); unfold pct_encode; rewrite !append_cons; discriminate.
  - intros [-> Heq]%encoded_byte_inj. f_equal. now apply IH.
Qed.

Lemma count_char_append c a b :
  count_char c (a +:+ b) = count_char c a + count_char c b.
Proof.
  induction a as [|x a IH]; [reflexivity |].
  rewrite append_cons. cbn [count_char]. rewrite IH. lia.
Qed.

Lemma count_char_absent c s : occurs c s = false -> count_char c s = 0.
Proof.
  induction s as [|x s IH]; [reflexivity |].
  cbn [occurs count_char]. intros [-> Hs]%orb_false_elim. now rewrite IH.
Qed.

Section Formatter.
Variable getLabel : gmap string optval -> optval.
Variable isForAllNamespaces : gmap string optval -> bool.

Lemma apiOnPath_shape e :
  occurs "?" (apiOnPath e) = false /\ count_char "/" (apiOnPath e) = 1.
Proof.
  unfold apiOnPath.
  destruct (encodeURIComponent_has_no_separator (version e)) as (_ & _ & Hq & Hs & _).
  destruct (String.eqb (version e) "v1"); [now split |].
  rewrite occurs_append, count_char_append, Hq, (count_char_absent _ _ Hs). now split.
Qed.

Lemma namespaceOnPath_shape namespace po e :
  occurs "?" (namespaceOnPath isForAllNamespaces namespace po e) = false
  /\ count_char "/" (namespaceOnPath isForAllNamespaces namespace po e)
     = if namespaced isForAllNamespaces po e then 2 else 0.
Proof.
  unfold namespaceOnPath, namespaced.
  destruct (encodeURIComponent_has_no_separator namespace) as (_ & _ & Hq & Hs & _).
  destruct (isForAllNamespaces po); [now split |].
  destruct (String.eqb (kind e) "Namespace"); [now split |].
  destruct (isClusterScoped e); [now split |].
  rewrite occurs_append, count_char_append, Hq, (count_char_absent _ _ Hs). now split.
Qed.

Lemma kindOnPath_shape e :
  occurs "?" (kindOnPath e) = false /\ count_char "/" (kindOnPath e) = 1.
Proof.
  unfold kindOnPath.
  destruct (encodeURIComponent_has_no_separator
              (toLowerCase (kind e) +:+ (if ends_with_char "s" (kind e) then "" else "s")))
    as (_ & _ & Hq & Hs & _).
  rewrite occurs_append, count_char_append, Hq, (count_char_absent _ _ Hs). now split.
Qed.

(** X1. The URL with queries is the URL without queries, followed, only
    when queries are asked for and the options give at least one term, by a
    question mark and the terms joined with [&].  The URL without queries
    holds no question mark, whatever the namespace, the kind, the version and
    the name are: the query string starts at the only question mark. *)
Theorem query_string_only_with_terms (namespace : string) (po : gmap string optval)
    (e : Explained) (includeKind includeQueries : bool) (name : option string) :
  let formatter := urlFormatterFor getLabel isForAllNamespaces namespace po e in
  formatter includeKind includeQueries name
  = formatter includeKind false name
    +:+ (if includeQueries && negb (length (queries getLabel po) =? 0)
         then "?" +:+ join "&" (queries getLabel po) else "")
  /\ occurs "?" (formatter includeKind false name) = false.
Proof.
  intros formatter. subst formatter. split.
  - unfold urlFormatterFor. cbn [negb orb]. rewrite !append_nil_r.
    destruct includeQueries; cbn [negb orb andb].
    + destruct (length (queries getLabel po) =? 0); cbn [negb].
      * now rewrite !append_nil_r.
      * now rewrite !append_assoc.
    + now rewrite !append_nil_r.
  - unfold urlFormatterFor. cbn [negb orb]. rewrite !occurs_append.
    destruct (apiOnPath_shape e) as [-> _].
    destruct (namespaceOnPath_shape namespace po e) as [-> _].
    destruct (kindOnPath_shape e) as [Hk _].
    replace (occurs "?" (if negb includeKind then "" else kindOnPath e)) with false
      by (now destruct includeKind).
    replace (occurs "?" match name with
                        | Some n => if String.eqb n "" then "" else "/" +:+ encodeURIComponent n
                        | None => ""
                        end) with false; [reflexivity |].
    destruct name as [n|]; [|reflexivity].
    destruct (String.eqb n ""); [reflexivity |].
    destruct (encodeURIComponent_has_no_separator n) as (_ & _ & Hq & _).
    now rewrite occurs_append, Hq.
Qed.

(** X2. The number of path separators of the URL is fixed by the shape of
    the request alone: three of the scheme, one of the API group, two when
    the namespace is part of the path, one for the kind and one for the
    name.  No namespace, version, kind or name adds a path segment. *)
Theorem names_add_no_path_segment (namespace : string) (po : gmap string optval)
    (e : Explained) (includeKind : bool) (name : option string) :
  count_char "/" (urlFormatterFor getLabel isForAllNamespaces namespace po e
                    includeKind false name)
  = 4
    + (if namespaced isForAllNamespaces po e then 2 else 0)
    + (if includeKind then 1 else 0)
    + match name with
      | Some n => if String.eqb n "" then 0 else 1
      | None => 0
      end.
Proof.
  unfold urlFormatterFor. cbn [negb orb]. rewrite !count_char_append.
  destruct (apiOnPath_shape e) as [_ ->].
  destruct (namespaceOnPath_shape namespace po e) as [_ ->].
  destruct (kindOnPath_shape e) as [_ Hk].
  replace (count_char "/" (if negb includeKind then "" else kindOnPath e))
    with (if includeKind then 1 else 0) by (now destruct includeKind).
  replace (count_char "/" match name with
                          | Some n => if String.eqb n "" then "" else "/" +:+ encodeURIComponent n
                          | None => ""
                          end)
    with (match name with
          | Some n => if String.eqb n "" then 0 else 1
          | None => 0
          end).
  - cbn [count_char Ascii.eqb Bool.eqb]. lia.
  - destruct name as [n|]; [|reflexivity].
    destruct (String.eqb n ""); [reflexivity |].
    destruct (encodeURIComponent_has_no_separator n) as (_ & _ & _ & Hs & _).
    now rewrite count_char_append, (count_char_absent _ _ Hs).
Qed.

(** X3. Two different names never give the same URL. *)
Theorem distinct_names_give_distinct_urls (namespace : string) (po : gmap string optval)
    (e : Explained) (includeKind includeQueries : bool) (n1 n2 : string) :
  n1 <> "" -> n2 <> "" -> n1 <> n2 ->
  urlFormatterFor getLabel isForAllNamespaces namespace po e includeKind includeQueries (Some n1)
  <> urlFormatterFor getLabel isForAllNamespaces namespace po e includeKind includeQueries (Some n2).
Proof.
  intros H1 H2 Hne Heq. apply Hne. unfold urlFormatterFor in Heq.
  destruct (String.eqb_spec n1 "") as [|_]; [contradiction |].
  destruct (String.eqb_spec n2 "") as [|_]; [contradiction |].
  do 4 apply append_inv_head in Heq.
  apply append_inv_tail, append_inv_head in Heq.
  now apply encodeURIComponent_inj.
Qed.

End Formatter.

(** X4. A single label selector gives the same URL whether the options
    carry it as a string or as an array of one string.  The empty selector
    does not: as a string it is dropped, as the element of an array it gives
    the term [labelSelector=]. *)
Theorem one_label_as_string_or_array (getLabel1 getLabel2 : gmap string optval -> optval)
    (isForAllNamespaces : gmap string optval -> bool) (namespace : string)
    (po : gmap string optval) (e : Explained) (includeKind includeQueries : bool)
    (name : option string) (l : string) :
  getLabel1 po = OStr l ->
  getLabel2 po = OArr [l] ->
  (l <> "" ->
   urlFormatterFor getLabel1 isForAllNamespaces namespace po e includeKind includeQueries name
   = urlFormatterFor getLabel2 isForAllNamespaces namespace po e includeKind includeQueries name)
  /\ (l = "" ->
      labelQueries getLabel1 po = [] /\ labelQueries getLabel2 po = ["labelSelector="]).
Proof.
  intros H1 H2. split.
  - intros Hl.
    assert (Hq : queries getLabel1 po = queries getLabel2 po).
    { unfold queries, labelQueries. rewrite H1, H2. cbn [truthy map optval_to_string].
      now destruct (String.eqb_spec l "") as [|_]. }
    unfold urlFormatterFor. now rewrite Hq.
  - intros ->. unfold labelQueries. rewrite H1, H2. now split.
Qed.

(** The names [a b] and [a%20b] of two deployments. *)
Lemma distinct_names_give_distinct_urls_witness :
  urlFormatterFor label_of all_namespaces_of "default" ∅ deployment true true (Some "a b")
  <> urlFormatterFor label_of all_namespaces_of "default" ∅ deployment true true (Some "a%20b").
Proof.
  apply (distinct_names_give_distinct_urls label_of all_namespaces_of "default" ∅
           deployment true true "a b" "a%20b"); discriminate.
Defined.

(** The selector [app=web], as [-l app=web] and as the array of it. *)
Lemma one_label_as_string_or_array_witness :
  urlFormatterFor label_of all_namespaces_of "default" {[ "l" := OStr "app=web" ]}
    deployment true true None
  = urlFormatterFor (fun _ => OArr ["app=web"]) all_namespaces_of "default"
      {[ "l" := OStr "app=web" ]} deployment true true None.
Proof.
  apply (one_label_as_string_or_array label_of (fun _ => OArr ["app=web"]) all_namespaces_of
           "default" {[ "l" := OStr "app=web" ]} deployment true true None "app=web");
    [reflexivity | reflexivity | discriminate].
Defined.

End UrlMore.

(** ** The breadcrumb *)

Module BreadcrumbSpec.
Import Breadcrumb.

Lemma findIndex_spec {A} (p : A -> bool) (l : list A) :
  (findIndex p l = (-1)%Z /\ Forall (fun x => p x = false) l)
  \/ exists i x,
       findIndex p l = Z.of_nat i /\ l !! i = Some x /\ p x = true
       /\ forall j y, j < i -> l !! j = Some y -> p y = false.
Proof.
  induction l as [|x l IH]; [left; split; [reflexivity | constructor] |].
  cbn [findIndex]. destruct (p x) eqn:Hx.
  - right. exists 0, x. repeat split; [assumption | lia].
  - destruct IH as [(-> & Hall)|(i & y & -> & Hy & Hp & Hbefore)].
    + left. split; [reflexivity | now constructor].
    + right. exists (S i), y.
      replace (Z.of_nat i <? 0)%Z with false by (symmetry; apply Z.ltb_ge; lia).
      repeat split; [lia | assumption | assumption |].
      intros [|j] z Hj Hz; [now injection Hz as <- | apply (Hbefore j z); [lia | exact Hz]].
Qed.

(** X5. Over a list of breadcrumbs that is not empty, the index of the
    current page is an index of the list: the index of the first breadcrumb
    marked as the current page, and the index of the last breadcrumb when
    none is marked.  Over the empty list the index is -1, and without a
    list it is undefined. *)
Theorem current_page_is_first_marked_or_last (l : list BreadcrumbView) :
  getCurrentPageIdx None = None
  /\ getCurrentPageIdx (Some []) = Some (-1)%Z
  /\ (l <> [] ->
      exists i,
        getCurrentPageIdx (Some l) = Some (Z.of_nat i)
        /\ i < length l
        /\ ((exists c, l !! i = Some c /\ isCurrentPage c = true
                       /\ forall j c', j < i -> l !! j = Some c' -> isCurrentPage c' = false)
            \/ (i = length l - 1 /\ Forall (fun c => isCurrentPage c = false) l))).
Proof.
  split; [reflexivity |]. split; [reflexivity |].
  intros Hne. unfold getCurrentPageIdx.
  destruct (findIndex_spec isCurrentPage l) as [(-> & Hall)|(i & c & -> & Hc & Hp & Hbefore)].
  - exists (length l - 1). destruct l as [|c l]; [contradiction |].
    cbn [length Z.ltb Z.compare]. split; [f_equal; lia |]. split; [lia |].
    right. now split.
  - exists i. replace (Z.of_nat i <? 0)%Z with false by (symmetry; apply Z.ltb_ge; lia).
    split; [reflexivity |]. split; [now apply lookup_lt_Some in Hc |].
    left. now exists c.
Qed.

(** Three breadcrumbs, the second and the third marked. *)
Lemma current_page_is_first_marked_or_last_witness :
  let l := [ {| label := "pods"; isCurrentPage := false |};
             {| label := "default"; isCurrentPage := true |};
             {| label := "nginx"; isCurrentPage := true |} ] in
  exists i,
    getCurrentPageIdx (Some l) = Some (Z.of_nat i)
    /\ i < length l
    /\ ((exists c, l !! i = Some c /\ isCurrentPage c = true
                   /\ forall j c', j < i -> l !! j = Some c' -> isCurrentPage c' = false)
        \/ (i = length l - 1 /\ Forall (fun c => isCurrentPage c = false) l)).
Proof.
  exact (proj2 (proj2 (current_page_is_first_marked_or_last
                         [ {| label := "pods"; isCurrentPage := false |};
                           {| label := "default"; isCurrentPage := true |};
                           {| label := "nginx"; isCurrentPage := true |} ]))
           ltac:(discriminate)).
Defined.

End BreadcrumbSpec.

(** ** More on the fetch client *)

Module FetchMore.
Import Js Path Async FetchFile FetchFiles FetchSpec Reading.

Lemma requests_app (a b : list event) : requests (a ++ b) = requests a + requests b.
Proof.
  induction a as [|ev a IH]; [reflexivity |].
  destruct ev; cbn [app requests]; rewrite IH; lia.
Qed.

Lemma commands_app (a b : list event) : commands (a ++ b) = commands a + commands b.
Proof.
  induction a as [|ev a IH]; [reflexivity |].
  destruct ev; cbn [app commands]; rewrite IH; lia.
Qed.

Lemma lookups_app (a b : list event) : lookups (a ++ b) = lookups a + lookups b.
Proof.
  induction a as [|ev a IH]; [reflexivity |].
  destruct ev; cbn [app lookups]; rewrite IH; lia.
Qed.

Lemma resolved_before_request_fresh (t : list event) :
  resolved_before_request false t = true -> resolved_before_request true t = true.
Proof. destruct t as [|[] t]; cbn; try discriminate; trivial. Qed.

Lemma resolved_before_request_app (fresh : bool) (a b : list event) :
  resolved_before_request fresh a = true ->
  resolved_before_request false b = true ->
  resolved_before_request fresh (a ++ b) = true.
Proof.
  revert fresh. induction a as [|ev a IH]; intros fresh Ha Hb.
  - destruct fresh; [now apply resolved_before_request_fresh | exact Hb].
  - destruct ev; cbn [app resolved_before_request] in *.
    + apply andb_true_iff in Ha as [-> Ha]. now rewrite IH.
    + now apply IH.
    + now apply IH.
    + now apply IH.
Qed.

Lemma within_nil k : within k 0 0 0 [].
Proof. unfold within. cbn. destruct k; repeat split; lia. Qed.

Lemma within_app k w1 r1 c1 w2 r2 c2 (t1 t2 : list event) :
  within k w1 r1 c1 t1 -> within k w2 r2 c2 t2 ->
  within k (w1 + w2) (r1 + r2) (c1 + c2) (t1 ++ t2).
Proof.
  intros (Hw1 & Hr1 & Hc1 & Hk1) (Hw2 & Hr2 & Hc2 & Hk2). unfold within.
  rewrite waited_app, requests_app, commands_app.
  repeat split; try lia.
  destruct k; [now apply resolved_before_request_app | rewrite lookups_app; lia].
Qed.

Lemma within_le k w r c w' r' c' (t : list event) :
  within k w r c t -> w <= w' -> r <= r' -> c <= c' -> within k w' r' c' t.
Proof. intros (Hw & Hr & Hc & Hk) ? ? ?. unfold within. repeat split; try lia. exact Hk. Qed.

Section Client.
Context {W : Type} `{World W}.

Lemma sleep_within k ms (s : state W) :
  exists t, trace (snd (sleep ms s)) = trace s ++ t /\ within k ms 0 0 t.
Proof.
  exists [ESleep ms]. split; [reflexivity |].
  unfold within. cbn. destruct k; repeat split; lia.
Qed.

Lemma needle_once_within url o (s : state W) :
  exists t, trace (snd (needle_once url o s)) = trace s ++ t
            /\ within (starts_with kubernetesScheme url) 0 1 0 t.
Proof.
  unfold needle_once, rescheme, bind, call, ret.
  destruct (starts_with kubernetesScheme url).
  - destruct (getProxyState (world s)) as [[base| |] w1]; cbn [world trace snd].
    + destruct (needle _ _ _ _ w1) as [[r1| |] w2]; cbn [trace snd];
        rewrite <- app_assoc; eexists; (split; [reflexivity |]);
        unfold within; cbn; repeat split; lia.
    + eexists; (split; [reflexivity |]); unfold within; cbn; repeat split; lia.
    + eexists; (split; [reflexivity |]); unfold within; cbn; repeat split; lia.
  - destruct (needle _ _ _ _ (world s)) as [[r1| |] w2]; cbn [trace snd];
      eexists; (split; [reflexivity |]); unfold within; cbn; repeat split; lia.
Qed.

(** What one run of [_needle] does: in a browser at most one command; in
    a native process at most one request per retry that is left and one
    more, and 50ms for each retry. *)
Lemma _needle_within url opts retryCount (s : state W) :
  retryCount <= MAX_ECONNREFUSED_RETRIES ->
  exists t, trace (snd (_needle url opts retryCount s)) = trace s ++ t
            /\ within (starts_with kubernetesScheme url)
                      (if inBrowser then 0 else 50 * (MAX_ECONNREFUSED_RETRIES - retryCount))
                      (if inBrowser then 0 else S (MAX_ECONNREFUSED_RETRIES - retryCount))
                      (if inBrowser then 1 else 0) t.
Proof.
  destruct inBrowser eqn:Hb.
  - intros _. rewrite (_needle_browser _ _ _ _ Hb).
    destruct hasProxy.
    + cbv zeta. destruct (rexec _ opts (world s)) as [[content|err|] w]; cbn [snd trace];
        eexists; (split; [reflexivity |]); unfold within;
        destruct (starts_with kubernetesScheme url); cbn; repeat split; lia.
    + exists []. cbn [snd]. rewrite app_nil_r. split; [reflexivity |].
      eapply within_le; [apply within_nil | lia..].
  - destruct opts as [o|].
    2:{ intros _. rewrite _needle_equation_1, Hb. cbn [negb snd].
        exists []. rewrite app_nil_r. split; [reflexivity |].
        eapply within_le; [apply within_nil | lia..]. }
    remember (MAX_ECONNREFUSED_RETRIES - retryCount) as left eqn:Hleft.
    revert retryCount s Hleft.
    induction left as [|left IH]; intros retryCount s Hleft Hcap.
    + rewrite (_needle_native _ _ _ _ Hb).
      destruct (needle_once_within url o s) as (t & Ht & Hin).
      replace (retryCount <? MAX_ECONNREFUSED_RETRIES) with false
        by (symmetry; apply Nat.ltb_nlt; lia).
      exists t. split; [|eapply within_le; [exact Hin | lia..]].
      destruct (needle_once url o s) as [[r|err|] s1]; cbn [snd] in *; try assumption.
      now rewrite andb_false_r.
    + rewrite (_needle_native _ _ _ _ Hb).
      destruct (needle_once_within url o s) as (t & Ht & Hin).
      destruct (needle_once url o s) as [[r|err|] s1]; cbn [snd] in *;
        try (exists t; split; [assumption | eapply within_le; [exact Hin | lia..]]).
      destruct (is_ECONNREFUSED err && (retryCount <? MAX_ECONNREFUSED_RETRIES)) eqn:Hretry;
        [|exists t; split; [assumption | eapply within_le; [exact Hin | lia..]]].
      destruct (sleep_within (starts_with kubernetesScheme url) 50 s1) as (t1 & Ht1 & Hin1).
      destruct (IH (retryCount + 1) (snd (sleep 50 s1)) ltac:(lia) ltac:(lia))
        as (t2 & Ht2 & Hin2).
      exists (t ++ t1 ++ t2). split.
      * rewrite Ht2, Ht1, Ht. now rewrite <- !app_assoc.
      * eapply within_le;
          [exact (within_app _ _ _ _ _ _ _ _ _ Hin (within_app _ _ _ _ _ _ _ _ _ Hin1 Hin2))
          | lia..].
Qed.

Lemma after_refusals_waited url o k (s sk : state W) :
  after_refusals url o k s = Some sk -> waited (trace sk) = waited (trace s) + 50 * k.
Proof.
  revert s. induction k as [|k IH]; intros s; cbn [after_refusals].
  - intros [= <-]. lia.
  - destruct (needle_once url o s) as [[a|err|] s1] eqn:Hfirst; try discriminate.
    destruct (is_ECONNREFUSED err); [|discriminate].
    intros Hrun. rewrite (IH _ Hrun), sleep_waited, (needle_once_waited _ _ _ _ _ Hfirst).
    lia.
Qed.

(** X6. In a native process every fetch that is given options is a run
    of refused requests, at most 10 of them, each followed by the timer of
    50ms, and then one last request whose outcome is the outcome of the
    fetch.  The last request is refused only when the 10 retries are used
    up. *)
Theorem native_fetch_is_refusals_then_one_request (url : string) (o : FetchOptions)
    (s : state W) :
  inBrowser = false ->
  exists k sk,
    k <= MAX_ECONNREFUSED_RETRIES
    /\ after_refusals url o k s = Some sk
    /\ waited (trace sk) = waited (trace s) + 50 * k
    /\ _needle url (Some o) 0 s = needle_once url o sk
    /\ (k < MAX_ECONNREFUSED_RETRIES ->
        forall err s', needle_once url o sk = (Rejected err, s') ->
                       is_ECONNREFUSED err = false).
Proof.
  intros Hb.
  destruct (_needle_is_bounded_retry url o 0 s Hb ltac:(lia))
    as (k & sk & Hk & Hrun & Hlast & Hfinal).
  exists k, sk. repeat split; try assumption.
  now apply (after_refusals_waited url o).
Qed.

Lemma fetchOnce_within url opts (s : state W) :
  exists t, trace (snd (fetchOnce url opts s)) = trace s ++ t
            /\ within (starts_with kubernetesScheme url)
                      (if inBrowser then 0 else 50 * MAX_ECONNREFUSED_RETRIES)
                      (if inBrowser then 0 else S MAX_ECONNREFUSED_RETRIES)
                      (if inBrowser then 1 else 0) t.
Proof.
  destruct (_needle_within url opts 0 s ltac:(lia)) as (t & Ht & Hin).
  exists t. split.
  - unfold fetchOnce, bind, ret, throw.
    now destruct (_needle url opts 0 s) as [[[r|]|err|] s1].
  - now rewrite Nat.sub_0_r in Hin.
Qed.

(** The events of a fetch, of up to three timers and of the fetch that
    follows each of them. *)
Lemma backoff_within url opts (d1 d2 d3 : nat) (s : state W) :
  let F := if inBrowser then 0 else 50 * MAX_ECONNREFUSED_RETRIES in
  let R := if inBrowser then 0 else S MAX_ECONNREFUSED_RETRIES in
  let C := if inBrowser then 1 else 0 in
  exists t,
    trace (snd (match fetchOnce url opts s with
                | (Rejected e0, s0) =>
                    if is_timeout_class e0 then
                      match fetchOnce url opts (snd (sleep d1 s0)) with
                      | (Rejected e1, s1) =>
                          if is_timeout_class e1 then
                            match fetchOnce url opts (snd (sleep d2 s1)) with
                            | (Rejected e2, s2) =>
                                if is_timeout_class e2
                                then fetchOnce url opts (snd (sleep d3 s2))
                                else (Rejected e2, s2)
                            | r => r
                            end
                          else (Rejected e1, s1)
                      | r => r
                      end
                    else (Rejected e0, s0)
                | r => r
                end)) = trace s ++ t
    /\ within (starts_with kubernetesScheme url)
              (4 * F + (d1 + d2 + d3)) (4 * R) (4 * C) t.
Proof.
  intros F R C.
  set (k := starts_with kubernetesScheme url).
  destruct (fetchOnce_within url opts s) as (t0 & Ht0 & Hin0).
  fold F R C k in Hin0.
  destruct (fetchOnce url opts s) as [[b0|e0|] s0]; cbn [snd] in Ht0;
    try (exists t0; split; [assumption | eapply within_le; [exact Hin0 | lia..]]).
  destruct (is_timeout_class e0);
    [|exists t0; split; [assumption | eapply within_le; [exact Hin0 | lia..]]].
  destruct (sleep_within k d1 s0) as (x0 & Hx0 & Hinx0).
  destruct (fetchOnce_within url opts (snd (sleep d1 s0))) as (t1 & Ht1 & Hin1).
  fold F R C k in Hin1.
  pose proof (within_app _ _ _ _ _ _ _ _ _ Hin0 (within_app _ _ _ _ _ _ _ _ _ Hinx0 Hin1))
    as Hsum1.
  assert (Htr1 : trace (snd (fetchOnce url opts (snd (sleep d1 s0))))
                 = trace s ++ t0 ++ x0 ++ t1).
  { rewrite Ht1, Hx0, Ht0. now rewrite <- !app_assoc. }
  clear Ht1 Hx0 Ht0 Hin0 Hinx0 Hin1.
  destruct (fetchOnce url opts (snd (sleep d1 s0))) as [[b1|e1|] s1]; cbn [snd] in Htr1;
    try (eexists; split; [eassumption | eapply within_le; [exact Hsum1 | lia..]]).
  destruct (is_timeout_class e1);
    [|eexists; split; [eassumption | eapply within_le; [exact Hsum1 | lia..]]].
  destruct (sleep_within k d2 s1) as (x1 & Hx1 & Hinx1).
  destruct (fetchOnce_within url opts (snd (sleep d2 s1))) as (t2 & Ht2 & Hin2).
  fold F R C k in Hin2.
  pose proof (within_app _ _ _ _ _ _ _ _ _ Hsum1 (within_app _ _ _ _ _ _ _ _ _ Hinx1 Hin2))
    as Hsum2.
  assert (Htr2 : trace (snd (fetchOnce url opts (snd (sleep d2 s1))))
                 = trace s ++ (t0 ++ x0 ++ t1) ++ x1 ++ t2).
  { rewrite Ht2, Hx1, Htr1. now rewrite <- !app_assoc. }
  clear Ht2 Hx1 Htr1 Hsum1 Hinx1 Hin2.
  destruct (fetchOnce url opts (snd (sleep d2 s1))) as [[b2|e2|] s2]; cbn [snd] in Htr2;
    try (eexists; split; [eassumption | eapply within_le; [exact Hsum2 | lia..]]).
  destruct (is_timeout_class e2);
    [|eexists; split; [eassumption | eapply within_le; [exact Hsum2 | lia..]]].
  destruct (sleep_within k d3 s2) as (x2 & Hx2 & Hinx2).
  destruct (fetchOnce_within url opts (snd (sleep d3 s2))) as (t3 & Ht3 & Hin3).
  fold F R C k in Hin3.
  pose proof (within_app _ _ _ _ _ _ _ _ _ Hsum2 (within_app _ _ _ _ _ _ _ _ _ Hinx2 Hin3))
    as Hsum3.
  exists (((t0 ++ x0 ++ t1) ++ x1 ++ t2) ++ x2 ++ t3). split.
  - rewrite Ht3, Hx2, Htr2. now rewrite <- !app_assoc.
  - eapply within_le; [exact Hsum3 | lia..].
Qed.

(** The events of a run of [fetchRemote]: at most four fetches, with the
    timers of 500ms, 1000ms and 5000ms between them. *)
Lemma fetchRemote_within url opts (s : state W) :
  exists t, trace (snd (fetchRemote url opts s)) = trace s ++ t
            /\ within (starts_with kubernetesScheme url)
                      (if inBrowser then 500 + 1000 + 5000
                       else 4 * 500 + (500 + 1000 + 5000))
                      (if inBrowser then 0 else 44)
                      (if inBrowser then 4 else 0) t.
Proof.
  rewrite fetchRemote_unfold.
  destruct (backoff_within url opts 500 1000 5000 s) as (t & Ht & Hin).
  exists t. split; [exact Ht |].
  eapply within_le; [exact Hin | unfold MAX_ECONNREFUSED_RETRIES; destruct inBrowser; lia..].
Qed.

(** X7. Whatever the peer answers, one call of [fetchRemote] ends after a
    bounded amount of work.  In a native process it sends at most 44
    requests and spends at most 8500ms on its timers; in a browser it sends
    no request at all, issues at most 4 commands and spends at most 6500ms
    on its timers. *)
Theorem fetchRemote_is_bounded (url : string) (opts : option FetchOptions) (s : state W) :
  exists t,
    trace (snd (fetchRemote url opts s)) = trace s ++ t
    /\ waited t <= (if inBrowser then 500 + 1000 + 5000 else 4 * 500 + (500 + 1000 + 5000))
    /\ requests t <= (if inBrowser then 0 else 44)
    /\ commands t <= (if inBrowser then 4 else 0).
Proof.
  destruct (fetchRemote_within url opts s) as (t & Ht & Hw & Hr & Hc & _).
  exists t. auto.
Qed.

(** X8. The base URL of a [kubernetes://] locator is never kept from one
    attempt to the next: among the events of a call of [fetchRemote], every
    request comes right after a lookup of the proxy state of its own.  For
    any other locator the proxy state is not looked up at all. *)
Theorem proxy_state_is_looked_up_for_every_request (url : string)
    (opts : option FetchOptions) (s : state W) :
  exists t,
    trace (snd (fetchRemote url opts s)) = trace s ++ t
    /\ (if starts_with kubernetesScheme url
        then resolved_before_request false t = true
        else lookups t = 0).
Proof.
  destruct (fetchRemote_within url opts s) as (t & Ht & _ & _ & _ & Hk).
  exists t. auto.
Qed.

End Client.

Lemma split_on_length (sep : ascii) (s : string) :
  length (split_on sep s) = S (count_char sep s).
Proof.
  induction s as [|c s IH]; [reflexivity |].
  cbn [split_on count_char].
  destruct (Ascii.eqb_spec c sep) as [->|Hne].
  - rewrite Ascii.eqb_refl. cbn [length]. rewrite IH. lia.
  - destruct (Ascii.eqb_spec sep c) as [->|_]; [contradiction |].
    destruct (split_on sep s) as [|seg segs]; cbn [length] in *; lia.
Qed.

Lemma split_on_absent (sep : ascii) (s : string) :
  occurs sep s = false -> split_on sep s = [s].
Proof.
  induction s as [|c s IH]; [reflexivity |].
  cbn [occurs split_on]. intros [Hc Hs]%orb_false_elim.
  destruct (Ascii.eqb_spec c sep) as [->|_]; [now rewrite Ascii.eqb_refl in Hc |].
  now rewrite IH.
Qed.

Lemma run_all_length {S A} (tasks : list (M S A)) (s : S) :
  length (fst (run_all tasks s)) = length tasks.
Proof.
  revert s. induction tasks as [|t tasks IH]; intros s; [reflexivity |].
  cbn [run_all]. destruct (t s) as [o s1]. specialize (IH s1).
  destruct (run_all tasks s1) as [os s2]. cbn [fst length] in *. now rewrite IH.
Qed.

Lemma all_resolved_length {A} (os : list (outcome A)) (vs : list A) :
  all_resolved os = Some vs -> length vs = length os.
Proof.
  revert vs. induction os as [|o os IH]; intros vs; cbn [all_resolved].
  - now intros [= <-].
  - destruct o as [a| |]; try discriminate.
    destruct (all_resolved os) as [vs'|]; [|discriminate].
    intros [= <-]. cbn [length]. now rewrite (IH vs').
Qed.

Lemma promise_all_length {S A} (tasks : list (M S A)) (s s' : S) (vs : list A) :
  promise_all tasks s = (Resolved vs, s') -> length vs = length tasks.
Proof.
  unfold promise_all. pose proof (run_all_length tasks s) as Hlen.
  destruct (run_all tasks s) as [os s1]. cbn [fst] in Hlen.
  intros [= Hsettle _]. unfold settle_all in Hsettle.
  destruct (first_rejected os); [discriminate |].
  destruct (all_resolved os) as [vs'|] eqn:Hall; [|discriminate].
  injection Hsettle as <-. rewrite <- Hlen. now apply all_resolved_length.
Qed.

(** Tasks none of which is rejected: the whole is not rejected. *)
Lemma promise_all_not_rejected {S A} (tasks : list (M S A)) (s : S) :
  Forall (fun t => forall s0 e, fst (t s0) <> Rejected e) tasks ->
  forall e, fst (promise_all tasks s) <> Rejected e.
Proof.
  intros Hall e. unfold promise_all.
  assert (Hnone : first_rejected (fst (run_all tasks s)) = None).
  { revert s. induction Hall as [|t tasks Ht _ IH]; intros s; [reflexivity |].
    cbn [run_all]. specialize (Ht s). destruct (t s) as [o s1]. specialize (IH s1).
    destruct (run_all tasks s1) as [os s2]. cbn [fst first_rejected] in *.
    destruct o as [a|e'|]; [exact IH | now destruct (Ht e') | exact IH]. }
  destruct (run_all tasks s) as [os s1]. cbn [fst] in *.
  unfold settle_all. rewrite Hnone. now destruct (all_resolved os).
Qed.

(** Tasks that all throw the same error without doing anything. *)
Lemma promise_all_throw {S A} (tasks : list (M S A)) (err : error) (s : S) :
  tasks <> [] ->
  Forall (fun t => t = throw err) tasks ->
  promise_all tasks s = (Rejected err, s).
Proof.
  intros Hne Hall. unfold promise_all.
  assert (Hrun : snd (run_all tasks s) = s
                 /\ (tasks <> [] -> first_rejected (fst (run_all tasks s)) = Some err)).
  { clear Hne. induction Hall as [|t tasks -> _ IH]; [now split |].
    cbn [run_all throw]. unfold throw at 1.
    destruct (run_all tasks s) as [os s2]. cbn [fst snd first_rejected] in *.
    now split. }
  destruct Hrun as [Hs Hfirst]. specialize (Hfirst Hne).
  destruct (run_all tasks s) as [os s1]. cbn [fst snd] in *. subst s1.
  unfold settle_all. now rewrite Hfirst.
Qed.

Section Files.
Context {W : Type} `{Files W}.

(** X9. A remote fetch needs options.  [fetchFile] without options fails
    on remote locators with the [TypeError] of reading [data] from
    [undefined], before anything is fetched.  [fetchRawFiles] passes no
    options to [fetchRemote]: in a native process, for a path with an HTTP
    scheme, it fails with the [TypeError] of reading [headers] from
    [undefined], and sends no request. *)
Theorem remote_fetch_needs_options (s : state W) :
  (forall url,
     Forall (fun u => is_remote u = true) (split_on "," url) ->
     fetchFile url None s = (Rejected TypeError_data, s))
  /\ (forall recursive filepath,
        inBrowser = false -> httpScheme filepath = true ->
        fetchRawFiles recursive filepath s = (Rejected TypeError_headers, s)).
Proof.
  split.
  - intros url Hremote. unfold fetchFile. apply promise_all_throw.
    + pose proof (split_on_length "," url) as Hlen.
      destruct (split_on "," url); [discriminate | now rewrite imap_cons].
    + apply Forall_forall. intros t Ht.
      apply elem_of_lookup_imap in Ht as (idx & u & -> & Hu).
      unfold fetchOne.
      now rewrite (proj1 (Forall_forall _ _) Hremote u (list_elem_of_lookup_2 _ _ _ Hu)).
  - intros recursive filepath Hb Hhttp. unfold fetchRawFiles. rewrite Hhttp.
    rewrite fetchRemote_unfold. unfold fetchOnce, bind.
    rewrite _needle_equation_1, Hb. reflexivity.
Qed.

(** X10. With [returnErrors], [fetchFile] over remote locators is never
    rejected: a fetch that fails gives the marker of its error in its slot.
    The option does not cover local files: when the REPL rejects the
    [vfs fstat] of a local path, [fetchFile] is rejected with that error. *)
Theorem returned_errors_cover_remote_fetches_only (url : string) (o : FileOptions)
    (s : state W) :
  fo_returnErrors o = true ->
  (Forall (fun u => is_remote u = true) (split_on "," url) ->
   forall e, fst (fetchFile url (Some o) s) <> Rejected e)
  /\ (forall err s',
        occurs "," url = false -> is_remote url = true ->
        fetchRemote url (Some (remote_options o 0)) s = (Rejected err, s') ->
        fetchFile url (Some o) s = (Resolved [ReturnedError err], s'))
  /\ (forall err w,
        occurs "," url = false -> is_remote url = false ->
        rexec_fstat (fstat_command (repl_encodeComponent url)) (world s) = (Rejected err, w) ->
        fetchFile url (Some o) s
        = (Rejected err,
           mkState w (trace s ++ [ERexec (fstat_command (repl_encodeComponent url))]))).
Proof.
  intros Hret. split; [|split].
  - intros Hremote. unfold fetchFile. apply promise_all_not_rejected.
    apply Forall_forall. intros t Ht s0 e.
    apply elem_of_lookup_imap in Ht as (idx & u & -> & Hu).
    unfold fetchOne.
    rewrite (proj1 (Forall_forall _ _) Hremote u (list_elem_of_lookup_2 _ _ _ Hu)).
    unfold catch, bind, ret. rewrite Hret.
    now destruct (fetchRemote u _ s0) as [[b|e'|] s1].
  - intros err s' Hone Hremote Hfetch.
    unfold fetchFile. rewrite (split_on_absent _ _ Hone).
    cbn [imap]. unfold promise_all, fetchOne. cbn [run_all].
    rewrite Hremote. unfold catch, bind, ret. now rewrite Hfetch, Hret.
  - intros err w Hone Hlocal Hstat.
    unfold fetchFile. rewrite (split_on_absent _ _ Hone).
    cbn [imap]. unfold promise_all, fetchOne. cbn [run_all].
    rewrite Hlocal. unfold bind, call, ret. now rewrite Hstat.
Qed.

(** X11. When [fetchFile] resolves, its result has one slot for every
    locator of the comma-separated list, an empty locator included: one
    more than there are commas. *)
Theorem fetchFile_gives_one_slot_per_locator (url : string) (opts : option FileOptions)
    (s s' : state W) (files : list FetchedFile) :
  fetchFile url opts s = (Resolved files, s') ->
  length files = S (count_char "," url).
Proof.
  intros Hrun. apply promise_all_length in Hrun.
  now rewrite Hrun, length_imap, split_on_length.
Qed.

End Files.

Import SimFetch SimMore.

(** Two refusals, then an answer. *)
Lemma native_fetch_is_refusals_then_one_request_witness :
  exists k sk,
    k <= MAX_ECONNREFUSED_RETRIES
    /\ @after_refusals sim native "http://localhost:8001/api" no_options k
         (peer [Rejected refused; Rejected refused; Resolved (ok "v1")] []) = Some sk
    /\ waited (trace sk) = 0 + 50 * k
    /\ @_needle sim native "http://localhost:8001/api" (Some no_options) 0
         (peer [Rejected refused; Rejected refused; Resolved (ok "v1")] [])
       = @needle_once sim native "http://localhost:8001/api" no_options sk
    /\ (k < MAX_ECONNREFUSED_RETRIES ->
        forall err s',
          @needle_once sim native "http://localhost:8001/api" no_options sk = (Rejected err, s') ->
          is_ECONNREFUSED err = false).
Proof.
  exact (@native_fetch_is_refusals_then_one_request sim native "http://localhost:8001/api"
           no_options (peer [Rejected refused; Rejected refused; Resolved (ok "v1")] [])
           eq_refl).
Defined.

(** A native process and a peer that would answer: the request is not
    even sent. *)
Lemma remote_fetch_needs_options_witness :
  @fetchFile sim native (sim_files false false) "https://k8s.io/a.yaml,https://k8s.io/b.yaml"
    None (peer [Resolved (ok "kind: Pod")] [])
  = (Rejected TypeError_data, peer [Resolved (ok "kind: Pod")] [])
  /\ @fetchRawFiles sim native (sim_files false false) false "https://k8s.io/a.yaml"
       (peer [Resolved (ok "kind: Pod")] [])
     = (Rejected TypeError_headers, peer [Resolved (ok "kind: Pod")] []).
Proof.
  destruct (@remote_fetch_needs_options sim native (sim_files false false)
              (peer [Resolved (ok "kind: Pod")] [])) as [Hfile Hraw].
  split.
  - apply Hfile. vm_compute. repeat constructor.
  - apply Hraw; reflexivity.
Defined.

(** The peer is gone: the slot of the locator holds the error.  A local
    file that the REPL cannot read is an error of the whole. *)
Lemma returned_errors_cover_remote_fetches_only_witness :
  @fetchFile sim native (sim_files false false) "https://k8s.io/a.yaml" (Some tolerant)
    (peer [] [])
  = (Resolved [ReturnedError (Error "no more replies")],
     mkState (mkSim [] 0 (Resolved []))
       [ENeedle Get "https://k8s.io/a.yaml" [("connection", "keep-alive")]])
  /\ @fetchFile sim native (sim_files false false) "a.yaml" (Some tolerant)
       (mkState (mkSim [] 0 (Rejected (Error "ENOENT"))) [])
     = (Rejected (Error "ENOENT"),
        mkState (mkSim [] 0 (Rejected (Error "ENOENT"))) [ERexec "vfs fstat a.yaml --with-data"]).
Proof.
  split.
  - destruct (@returned_errors_cover_remote_fetches_only sim native (sim_files false false)
                "https://k8s.io/a.yaml" tolerant (peer [] []) eq_refl) as (_ & Hremote & _).
    apply Hremote; vm_compute; reflexivity.
  - destruct (@returned_errors_cover_remote_fetches_only sim native (sim_files false false)
                "a.yaml" tolerant (mkState (mkSim [] 0 (Rejected (Error "ENOENT"))) [])
                eq_refl) as (_ & _ & Hlocal).
    apply Hlocal; vm_compute; reflexivity.
Defined.

(** Two locators, the second one empty: two slots. *)
Lemma fetchFile_gives_one_slot_per_locator_witness :
  exists files s',
    @fetchFile sim proxied (sim_files true true) "https://k8s.io/a.yaml," (Some tolerant)
      (peer [] [VString "kind: Pod"])
    = (Resolved files, s')
    /\ length files = 2.
Proof.
  eexists _, _. split; [vm_compute; reflexivity |].
  apply (@fetchFile_gives_one_slot_per_locator sim proxied (sim_files true true)
           "https://k8s.io/a.yaml," (Some tolerant) (peer [] [VString "kind: Pod"])
           (mkState (mkSim [] 0 (Resolved [VString "kind: Pod"]))
              [ERexec "_fetchfile https://k8s.io/a.yaml"; ERexec "vfs fstat  --with-data"])).
  vm_compute. reflexivity.
Defined.

End FetchMore.

(** ** More on the object-storage responder *)

Module S3More.
Import Js Path Async S3 S3Zip JsFacts UrlMore S3Spec.

(** *** Paths *)

Lemma starts_with_append (p x : string) : starts_with p (p +:+ x) = true.
Proof.
  induction p as [|c p IH]; [reflexivity |].
  rewrite append_cons. cbn [starts_with]. now rewrite Ascii.eqb_refl, IH.
Qed.

Lemma substring_all (x : string) : String.substring 0 (String.length x) x = x.
Proof. induction x as [|c x IH]; [reflexivity |]. cbn. now rewrite IH. Qed.

Lemma drop_prefix_append (p x : string) : drop_prefix (String.length p) (p +:+ x) = x.
Proof.
  unfold drop_prefix. rewrite length_append.
  replace (String.length p + String.length x - String.length p) with (String.length x) by lia.
  induction p as [|c p IH]; [apply substring_all |].
  rewrite append_cons. cbn [String.length String.substring]. exact IH.
Qed.

Lemma drop_prefix_0 (x : string) : drop_prefix 0 x = x.
Proof. unfold drop_prefix. rewrite Nat.sub_0_r. apply substring_all. Qed.

Lemma drop_prefix_all (p : string) : drop_prefix (String.length p) p = "".
Proof. rewrite <- (append_nil_r p) at 2. apply drop_prefix_append. Qed.

Lemma char_in_slash c : char_in "/" c = Ascii.eqb "/" c.
Proof. unfold char_in. cbn. rewrite orb_false_r. apply Ascii.eqb_sym. Qed.

Lemma take_while_no_slash (b rest : string) :
  occurs "/" b = false ->
  take_while (fun c => negb (char_in "/" c)) (b +:+ String "/" rest) = b.
Proof.
  induction b as [|c b IH]; intros Hb.
  - rewrite append_nil_l. cbn [take_while]. now rewrite char_in_slash.
  - cbn [occurs] in Hb. apply orb_false_elim in Hb as [Hc Hb].
    rewrite append_cons. cbn [take_while]. rewrite char_in_slash, Hc. cbn [negb].
    now rewrite IH.
Qed.

Lemma take_while_all (b : string) :
  occurs "/" b = false -> take_while (fun c => negb (char_in "/" c)) b = b.
Proof.
  induction b as [|c b IH]; intros Hb; [reflexivity |].
  cbn [occurs] in Hb. apply orb_false_elim in Hb as [Hc Hb].
  cbn [take_while]. rewrite char_in_slash, Hc. cbn [negb]. now rewrite IH.
Qed.

Lemma drop_while_no_slash (b rest : string) :
  b <> "" -> occurs "/" b = false -> drop_while (char_in "/") (b +:+ rest) = b +:+ rest.
Proof.
  destruct b as [|c b]; [contradiction |]. intros _ Hb.
  cbn [occurs] in Hb. apply orb_false_elim in Hb as [Hc Hb].
  rewrite append_cons. cbn [drop_while]. now rewrite char_in_slash, Hc.
Qed.

Lemma contains_cons lit c s : contains lit (String c s) = starts_with lit (String c s) || contains lit s.
Proof. reflexivity. Qed.

(** The rest of a line with no line terminator is the whole of it. *)
Lemma dot_star_single_line (s : string) : single_line s = true -> dot_star s = s.
Proof.
  unfold single_line. induction s as [|c s IH]; [reflexivity |].
  rewrite !contains_cons. intros Hs.
  cbn [dot_star]. unfold at_line_terminator.
  destruct (starts_with (String (ascii_of_N 10) "") (String c s));
    [discriminate Hs |].
  destruct (starts_with (String (ascii_of_N 13) "") (String c s));
    [cbn [orb] in Hs; rewrite orb_true_r in Hs; discriminate Hs |].
  destruct (starts_with (String (ascii_of_N 226) (String (ascii_of_N 128)
                           (String (ascii_of_N 168) ""))) (String c s));
    [cbn [orb] in Hs; rewrite orb_true_r in Hs; discriminate Hs |].
  destruct (starts_with (String (ascii_of_N 226) (String (ascii_of_N 128)
                           (String (ascii_of_N 169) ""))) (String c s));
    [cbn [orb] in Hs; rewrite orb_true_r in Hs; discriminate Hs |].
  cbn [orb] in *. f_equal. now apply IH.
Qed.

Section Responder.
Context {W : Type} `{World W}.

Lemma strip_below_mount this (rest : string) :
  strip_s3Prefix this (mountPath this +:+ String "/" rest) = rest.
Proof.
  unfold strip_s3Prefix. rewrite starts_with_append, drop_prefix_append.
  change (optional_slash (String "/" rest)) with "/".
  apply (drop_prefix_append "/" rest).
Qed.

Lemma strip_mount_root this : strip_s3Prefix this (mountPath this) = "".
Proof.
  unfold strip_s3Prefix.
  rewrite <- (append_nil_r (mountPath this)) at 2.
  rewrite starts_with_append, drop_prefix_all. reflexivity.
Qed.

(** X12. [split] reads the layout [<mount path>/<bucket>/<key>] back,
    for a responder whose mount path holds no operator of a regular
    expression, so that its prefix pattern matches the mount path itself:
    for a bucket name that is not empty and holds no slash, the path of the
    bucket splits into the bucket and the empty file name, and the path of a
    key splits into the bucket and the key up to its first line terminator,
    which is the whole key when the key is a single line. *)
Theorem split_reads_the_path_layout (this : Provider) (bucket key : string) :
  regex_literal (mountPath this) = true ->
  bucket <> "" ->
  occurs "/" bucket = false ->
  split_path this (mountPath this +:+ "/" +:+ bucket) = Some (bucket, "")
  /\ split_path this (mountPath this +:+ "/" +:+ bucket +:+ "/" +:+ key)
     = Some (bucket, dot_star key)
  /\ (single_line key = true ->
      split_path this (mountPath this +:+ "/" +:+ bucket +:+ "/" +:+ key)
      = Some (bucket, key)).
Proof.
  intros _ Hne Hslash.
  assert (Hkey : split_path this (mountPath this +:+ "/" +:+ bucket +:+ "/" +:+ key)
                 = Some (bucket, dot_star key)).
  { unfold split_path. rewrite !append_cons, !append_nil_l, strip_below_mount.
    unfold match_split. rewrite (drop_while_no_slash _ _ Hne Hslash).
    destruct (String.eqb_spec (bucket +:+ String "/" key) "") as [E|_].
    { destruct bucket; [contradiction | discriminate E]. }
    rewrite (take_while_no_slash _ _ Hslash), drop_prefix_append.
    change (optional_slash (String "/" key)) with "/".
    change (String "/" key) with ("/" +:+ key).
    now rewrite (drop_prefix_append "/" key). }
  split; [|split; [exact Hkey |]].
  - unfold split_path. rewrite !append_cons, !append_nil_l, strip_below_mount.
    unfold match_split.
    replace (drop_while (char_in "/") bucket) with bucket
      by (now rewrite <- (append_nil_r bucket) at 2;
          rewrite (drop_while_no_slash _ _ Hne Hslash), append_nil_r).
    cbv zeta.
    destruct (String.eqb_spec bucket "") as [E|_]; [contradiction |].
    rewrite (take_while_all _ Hslash), drop_prefix_all. reflexivity.
  - intros Hline. now rewrite Hkey, (dot_star_single_line _ Hline).
Qed.

(** *** The mount root, buckets and objects *)

(** X13. The mount root can be listed, and nothing else, for a responder
    whose mount path holds no operator of a regular expression, so that its
    prefix pattern matches the mount path itself: [ls] of the mount path,
    with or without a trailing slash, gives the buckets, while [mkdir],
    [rmdir], [fstat] and [rm] of it fail with the [TypeError] of a path
    that does not split ([rm] with its message in a plain error), and none
    of them calls the storage client. *)
Theorem mount_root_is_listed_and_nothing_else (this : Provider) (po : ParsedOptions)
    (fp : string) (s : state W) :
  regex_literal (mountPath this) = true ->
  fp = mountPath this \/ fp = mountPath this +:+ "/" ->
  mkdir this fp s = (Rejected TypeError_not_iterable, s)
  /\ rmdir this fp s = (Rejected TypeError_not_iterable, s)
  /\ fstat this fp s = (Rejected TypeError_not_iterable, s)
  /\ (forall recursive,
        rm this fp recursive s = (Rejected (Error (message TypeError_not_iterable)), s))
  /\ (forall bs w,
        listBuckets_ (mountName this) (world s) = (Resolved bs, w) ->
        ls this po [fp] s
        = (Resolved (map (bucketEntry this) bs),
           mkState w (trace s ++ [ListBuckets (mountName this) (Resolved bs)]))).
Proof.
  intros _ Hroot.
  assert (Hstrip : strip_s3Prefix this fp = "").
  { destruct Hroot as [-> | ->]; [apply strip_mount_root |].
    apply (strip_below_mount this ""). }
  assert (Hsplit : split_path this fp = None).
  { unfold split_path. now rewrite Hstrip. }
  split; [|split; [|split; [|split]]].
  - unfold mkdir. run. now rewrite Hsplit.
  - unfold rmdir. run. now rewrite Hsplit.
  - unfold fstat. run. now rewrite Hsplit.
  - intros recursive. unfold rm. run. now rewrite Hsplit.
  - intros bs w Hlist. unfold ls, dirstat, listBuckets. run. rewrite Hstrip.
    cbn [String.length Nat.eqb]. run. rewrite Hlist. run.
    now rewrite app_nil_r.
Qed.

(** X14. [mkdir] of a path creates the bucket of the path and ignores
    what follows the bucket name.  When the storage client refuses for a
    reason other than the name of the bucket, the error carries the message
    of the client, and not its code. *)
Theorem mkdir_creates_the_bucket_of_the_path (this : Provider) (fp b rest : string)
    (s : state W) :
  split_path this fp = Some (b, rest) ->
  (forall w,
     makeBucket_ (mountName this) b (world s) = (Resolved tt, w) ->
     mkdir this fp s = (Resolved tt, mkState w (trace s ++ [MakeBucket (mountName this) b])))
  /\ (forall err w,
        makeBucket_ (mountName this) b (world s) = (Rejected err, w) ->
        contains "Invalid bucket name" (message err) = false ->
        mkdir this fp s
        = (Rejected (Error (message err)),
           mkState w (trace s ++ [MakeBucket (mountName this) b]))).
Proof.
  intros Hsplit. split.
  - intros w Hmake. unfold mkdir. run. rewrite Hsplit. run. now rewrite Hmake.
  - intros err w Hmake Hother. unfold mkdir. run. rewrite Hsplit. run.
    now rewrite Hmake, Hother.
Qed.

(** X15. [rm] of the path of an object lists the objects of the bucket
    under the prefix of the path and removes, in one call, exactly the
    listed objects that match the path: none when nothing matches, and [rm]
    then resolves to [true] all the same.  The recursive flag plays no part.
    When the removal fails, the error keeps the message alone. *)
Theorem rm_removes_the_objects_that_match (this : Provider) (fp b f b' prefix suffix : string)
    (recursive : bool) (items : list BucketItem) (s : state W) (w1 w2 : W)
    (o : outcome unit) :
  split_path this fp = Some (b, f) ->
  f <> "" ->
  match_listing (strip_s3Prefix this fp) = Some (b', "/", prefix, suffix) ->
  listObjects_ (mountName this) b' (Some prefix) false (world s)
  = (Resolved (mkStream items SEnd), w1) ->
  let pattern :=
    if (String.length prefix =? 0)
       && ((String.length suffix =? 0) || String.eqb suffix "*")
    then "*" else suffix in
  let names := map item_name (filter (object_matches prefix pattern) items) in
  removeObjects_ (mountName this) b names w1 = (o, w2) ->
  rm this fp recursive s
  = (match o with
     | Resolved _ => Resolved RmTrue
     | Rejected err => Rejected (Error (message err))
     | Pending => Pending
     end,
     mkState w2 (trace s ++ [ListObjects (mountName this) b' (Some prefix) false
                               (Resolved (mkStream items SEnd));
                             RemoveObjects (mountName this) b names])).
Proof.
  intros Hsplit Hf Hmatch Hlist pattern names Hremove.
  assert (Hnames : map name (map (objectEntry this b' false)
                                 (filter (object_matches prefix pattern) items)) = names).
  { subst names. rewrite map_map. reflexivity. }
  unfold rm. run. rewrite Hsplit. run.
  destruct (String.eqb_spec f "") as [E|_]; [contradiction |].
  unfold listObjects, listObjectsMatching, collectObjects. rewrite Hmatch.
  cbn [String.eqb Ascii.eqb Bool.eqb andb]. run. rewrite Hlist. run.
  cbn [ending chunks]. run. fold pattern. rewrite Hnames, Hremove.
  destruct o as [[]|err|]; run; now rewrite <- !app_assoc.
Qed.

(** X16. With [-d], [ls] of a path that names buckets only (the bucket
    part is not followed by a slash) asks for the buckets and for nothing
    else: it lists no object.  Its entries are the buckets whose name
    matches the whole path as a glob. *)
Theorem ls_dash_d_lists_buckets_only (this : Provider) (po : ParsedOptions)
    (fp b prefix suffix : string) (bs : list string) (s : state W) (w : W) :
  opt_d po = true ->
  match_listing (strip_s3Prefix this fp) = Some (b, "", prefix, suffix) ->
  listBuckets_ (mountName this) (world s) = (Resolved bs, w) ->
  ls this po [fp] s
  = (Resolved (filter (fun e => isMatch (name e) (strip_s3Prefix this fp))
                      (map (bucketEntry this) bs)),
     mkState w (trace s ++ [ListBuckets (mountName this) (Resolved bs)])).
Proof.
  intros Hd Hmatch Hlist.
  assert (Hlen : (String.length (strip_s3Prefix this fp) =? 0) = false).
  { destruct (strip_s3Prefix this fp); [discriminate | reflexivity]. }
  unfold ls, dirstat, listObjects, listBucketsMatching, listBuckets. run.
  rewrite Hlen, Hmatch, Hd. cbn [String.eqb andb]. run. rewrite Hlist. run.
  now rewrite app_nil_r.
Qed.

(** *** Copies *)

Lemma resolve_sources_run (srcFilepaths : list string) (s : state W) r w1 :
  rexec_ (vfs_ls srcFilepaths) (world s) = (r, w1) ->
  resolve_sources srcFilepaths s = (r, mkState w1 (trace s ++ [Rexec (vfs_ls srcFilepaths)])).
Proof. intros Hls. unfold resolve_sources, call. now rewrite Hls. Qed.

(** X17. When the sources of a copy resolve to nothing, each way of
    copying answers in its own manner: a copy within the store resolves
    with the message [Source files not found], a copy between two stores is
    rejected with [Nothing to copy], an upload resolves with a message of
    success that names no etag, and a download resolves with a message that
    names no file.  None of them calls the storage client. *)
Theorem copy_of_nothing (this : Provider) (po : ParsedOptions) (src dst : string)
    (s : state W) (w1 : W) :
  rexec_ (vfs_ls [src]) (world s) = (Resolved [], w1) ->
  opt_s po = false ->
  let s1 := mkState w1 (trace s ++ [Rexec (vfs_ls [src])]) in
  cp this po [src] dst [true] true [] s
  = (Resolved (CpAll [CopyMessage "Source files not found"]), s1)
  /\ (forall vfs, isS3Provider (Some vfs) = true ->
      cp this po [src] dst [false] true [vfs] s = (Rejected (Error "Nothing to copy"), s1))
  /\ (forall db df, split_path this dst = Some (db, df) -> opt_P po = false ->
      cp this po [src] dst [false] true [] s
      = (Resolved (CpAll [CopyMessage (strings "Created objects with etags" [""])]), s1))
  /\ (forall d w2 srcIsSelf srcProvider, stat_ dst w1 = (Stats d, w2) ->
      cp this po [src] dst srcIsSelf false srcProvider s
      = (Resolved (CpFetched ("Fetched  to " +:+ dst)),
         mkState w2 (trace s ++ [Rexec (vfs_ls [src]); Stat dst]))).
Proof.
  intros Hls Hs s1. subst s1. split; [|split; [|split]].
  - unfold cp, intraCopyObject, filter_index. run.
    rewrite (resolve_sources_run _ _ _ _ Hls), Hs. run. reflexivity.
  - intros vfs Hvfs. unfold cp, interCopyObject, filter_index. run.
    cbn [isS3Provider] in Hvfs. rewrite Hvfs. run.
    rewrite (resolve_sources_run _ _ _ _ Hls). run. reflexivity.
  - intros db df Hdst HP. unfold cp, fPutObject, filter_index. run.
    rewrite (resolve_sources_run _ _ _ _ Hls). run. rewrite Hdst. run.
    rewrite HP. run. reflexivity.
  - intros d w2 srcIsSelf srcProvider Hstat. unfold cp, fGetObject. run.
    rewrite (resolve_sources_run _ _ _ _ Hls). run.
    unfold dstIsDirectory. cbn [world trace]. rewrite Hstat.
    cbn [length Nat.ltb Nat.leb andb]. rewrite andb_false_r. run.
    now rewrite <- !app_assoc.
Qed.

(** X18. A copy from another store reads the object through the client of
    the source and writes it through the client of the destination, under
    the file name of the destination, or else under the key of the source. *)
Theorem copy_between_stores_reads_then_writes (this : Provider) (po : ParsedOptions)
    (src dst : string) (vfs : VFS) (g : GlobStats) (sb sf db df etag : string)
    (data : stream string) (s : state W) (w1 w2 w3 : W) :
  isS3Provider (Some vfs) = true ->
  opt_s po = false ->
  rexec_ (vfs_ls [src]) (world s) = (Resolved [g], w1) ->
  split_path (provider vfs) (gs_path g) = Some (sb, sf) ->
  split_path this dst = Some (db, df) ->
  getObject_ (mountName (provider vfs)) sb sf w1 = (Resolved data, w2) ->
  putObject_ (mountName this) db (or_string df sf) data w2 = (Resolved etag, w3) ->
  cp this po [src] dst [false] true [vfs] s
  = (Resolved (CpAll [CopyMessage ("Copied to object with etag " +:+ etag)]),
     mkState w3 (trace s ++ [Rexec (vfs_ls [src]);
                             GetObject (mountName (provider vfs)) sb sf;
                             PutObject (mountName this) db (or_string df sf)])).
Proof.
  intros Hvfs Hs Hls Hsrc Hdst Hget Hput.
  unfold cp, interCopyObject, filter_index. run.
  cbn [isS3Provider] in Hvfs. rewrite Hvfs. run.
  rewrite (resolve_sources_run _ _ _ _ Hls). run. rewrite Hs. run.
  rewrite Hsrc. run. rewrite Hdst. run. rewrite Hget. run. rewrite Hput. run.
  now rewrite <- !app_assoc.
Qed.

(** The events of tasks that run one after the other. *)
Lemma run_all_trace {A} (tasks : list (M (state W) A)) (ess : list (list event))
    (s : state W) :
  Forall2 (fun t es => forall s0, trace (snd (t s0)) = trace s0 ++ es) tasks ess ->
  trace (snd (run_all tasks s)) = trace s ++ concat ess.
Proof.
  intros Hall. revert s.
  induction Hall as [|t es tasks ess Ht _ IH]; intros s.
  - cbn. now rewrite app_nil_r.
  - cbn [run_all concat]. specialize (Ht s). destruct (t s) as [o s1].
    specialize (IH s1). destruct (run_all tasks s1) as [os s2].
    cbn [snd] in *. now rewrite IH, Ht, app_assoc.
Qed.

Lemma promise_all_trace {A} (tasks : list (M (state W) A)) (ess : list (list event))
    (s : state W) :
  Forall2 (fun t es => forall s0, trace (snd (t s0)) = trace s0 ++ es) tasks ess ->
  trace (snd (promise_all tasks s)) = trace s ++ concat ess.
Proof.
  intros Hall. unfold promise_all.
  pose proof (run_all_trace tasks ess s Hall) as Hrun.
  now destruct (run_all tasks s) as [os s1].
Qed.

(** What follows a [bind] does not touch the state when it only returns
    or throws. *)
Lemma bind_trace {A B} (m : M (state W) A) (k : A -> M (state W) B) (s : state W) :
  (forall a s0, snd (k a s0) = s0) ->
  snd (bind m k s) = snd (m s).
Proof.
  intros Hk. unfold bind. destruct (m s) as [[a|e|] s1]; [apply Hk | reflexivity..].
Qed.

(** X19. An upload sends every resolved source once, in the order of the
    resolution and whether or not another upload fails, to the bucket of the
    destination: under the file name of the destination when it has one,
    and under the base name of the source otherwise. *)
Theorem upload_sends_every_resolved_source (this : Provider) (po : ParsedOptions)
    (srcFilepaths : list string) (dst b f : string) (srcs : list GlobStats)
    (s : state W) (w1 : W) :
  rexec_ (vfs_ls srcFilepaths) (world s) = (Resolved srcs, w1) ->
  split_path this dst = Some (b, f) ->
  trace (snd (fPutObject this po srcFilepaths dst s))
  = trace s
    ++ Rexec (vfs_ls srcFilepaths)
       :: map (fun src =>
                 FPutObject (mountName this) b (or_string f (basename (gs_path src)))
                            (gs_path src) (opt_P po))
              srcs.
Proof.
  intros Hls Hdst. unfold fPutObject.
  cbv beta iota zeta delta [bind start await ret split throw].
  rewrite (resolve_sources_run _ _ _ _ Hls), Hdst.
  match goal with
  | |- context [promise_all ?tasks ?s1] =>
      pose proof (promise_all_trace tasks
                    (map (fun src =>
                            [FPutObject (mountName this) b
                               (or_string f (basename (gs_path src))) (gs_path src)
                               (opt_P po)]) srcs) s1) as Hrun;
      destruct (promise_all tasks s1) as [[etags|e|] s2]
  end.
  all: cbn [snd trace] in Hrun.
  all: assert (Htr : trace s2
                     = (trace s ++ [Rexec (vfs_ls srcFilepaths)])
                       ++ concat (map (fun src =>
                            [FPutObject (mountName this) b
                               (or_string f (basename (gs_path src))) (gs_path src)
                               (opt_P po)]) srcs));
    [apply Hrun; apply Forall2_fmap, Forall_Forall2_diag, Forall_forall;
     intros src _ s0; unfold call; now destruct (fPutObject_ _ _ _ _ _ (world s0)) |].
  all: assert (Hflat : forall l : list GlobStats,
                 concat (map (fun src =>
                            [FPutObject (mountName this) b
                               (or_string f (basename (gs_path src))) (gs_path src)
                               (opt_P po)]) l)
                 = map (fun src =>
                          FPutObject (mountName this) b
                            (or_string f (basename (gs_path src))) (gs_path src)
                            (opt_P po)) l)
    by (intros l; induction l as [|x l IHl]; [reflexivity | cbn; now rewrite IHl]).
  all: rewrite Hflat, <- app_assoc in Htr.
  - destruct (opt_P po).
    + destruct (length etags =? 1); [exact Htr |].
      destruct (existsb _ srcs); exact Htr.
    + destruct (length etags =? 1); exact Htr.
  - exact Htr.
  - exact Htr.
Qed.

(** The events of the download of one resolved source. *)
Lemma download_task_trace this (dstIsDir : bool) (dst p : string) (s0 : state W) :
  trace (snd ((bf <- split this p ;;
               let '(bucketName, fileName) := bf in
               let dst' := if dstIsDir then join_path [dst; fileName] else dst in
               call (FGetObject (mountName this) bucketName fileName dst')
                    (fGetObject_ (mountName this) bucketName fileName dst') ;;;
               ret (basename p))%async s0))
  = trace s0
    ++ match split_path this p with
       | Some (b, f) =>
           [FGetObject (mountName this) b f (if dstIsDir then join_path [dst; f] else dst)]
       | None => []
       end.
Proof.
  cbv beta iota zeta delta [split bind call ret throw].
  destruct (split_path this p) as [[b f]|]; cbn [snd trace]; [|now rewrite app_nil_r].
  now destruct (fGetObject_ _ _ _ _ (world s0)) as [[[]|e|] w].
Qed.

Lemma bind_eq {A B} (m : M (state W) A) (k : A -> M (state W) B) (s : state W) :
  bind m k s
  = match m s with
    | (Resolved a, s') => k a s'
    | (Rejected e, s') => (Rejected e, s')
    | (Pending, s') => (Pending, s')
    end.
Proof. reflexivity. Qed.

Lemma dstIsDirectory_run dst (s : state W) :
  dstIsDirectory dst s
  = (fst (dstIsDirectory dst (mkState (world s) [])),
     mkState (snd (stat_ dst (world s))) (trace s ++ [Stat dst])).
Proof.
  unfold dstIsDirectory. cbn [world trace].
  destruct (stat_ dst (world s)) as [[err|d] w]; [|reflexivity].
  now destruct (has_code err "ENOENT").
Qed.

(** The events of [fGetObject], in each of the ways it can go. *)
Lemma fGetObject_trace this srcFilepaths dst (s : state W) :
  let r := rexec_ (vfs_ls srcFilepaths) (world s) in
  trace (snd (fGetObject this srcFilepaths dst s))
  = trace s
    ++ Rexec (vfs_ls srcFilepaths) :: Stat dst
       :: match fst r, fst (dstIsDirectory dst (mkState (snd r) [])) with
          | Resolved srcs, Resolved d =>
              if negb d && (1 <? length srcFilepaths) then []
              else concat (map (fun g =>
                                  match split_path this (gs_path g) with
                                  | Some (b, f) =>
                                      [FGetObject (mountName this) b f
                                         (if d then join_path [dst; f] else dst)]
                                  | None => []
                                  end) srcs)
          | _, _ => []
          end.
Proof.
  intros r. subst r. unfold fGetObject.
  destruct (rexec_ (vfs_ls srcFilepaths) (world s)) as [o w1] eqn:Hls.
  rewrite bind_eq. unfold start at 1.
  rewrite (resolve_sources_run _ _ _ _ Hls). cbv beta iota. cbn [fst snd].
  rewrite bind_eq, dstIsDirectory_run. cbn [world trace].
  destruct (fst (dstIsDirectory dst (mkState w1 []))) as [d|e|];
    cbn [snd trace]; [|rewrite <- app_assoc; now destruct o..].
  destruct (negb d && (1 <? length srcFilepaths)).
  { unfold throw. cbn [snd trace]. rewrite <- app_assoc. now destruct o. }
  rewrite bind_eq. unfold await at 1.
  destruct o as [srcs|e|]; cbn [snd trace]; [|now rewrite <- app_assoc..].
  rewrite bind_eq.
  match goal with
  | |- context [promise_all ?tasks ?s2] =>
      pose proof (promise_all_trace tasks
                    (map (fun g =>
                            match split_path this (gs_path g) with
                            | Some (b, f) =>
                                [FGetObject (mountName this) b f
                                   (if d then join_path [dst; f] else dst)]
                            | None => []
                            end) srcs) s2) as Hrun;
      destruct (promise_all tasks s2) as [[fetched|e|] s3]
  end.
  all: cbn [snd trace ret] in *.
  all: rewrite Hrun, <- ?app_assoc; [reflexivity | ].
  all: rewrite map_map; apply Forall2_fmap, Forall_Forall2_diag, Forall_forall.
  all: intros g _ s0; apply download_task_trace.
Qed.

Lemma forallb_app {A} (p : A -> bool) (a b : list A) :
  forallb p (a ++ b) = forallb p a && forallb p b.
Proof. induction a as [|x a IH]; [reflexivity |]. cbn. now rewrite IH, andb_assoc. Qed.

(** X20. Copying out of the store never writes to it: whatever the
    sources, the destination and the answers of the collaborators are, the
    only things [cp] does are to resolve the sources, to look at the
    destination and to fetch objects into files. *)
Theorem copy_out_only_downloads (this : Provider) (po : ParsedOptions)
    (srcFilepaths : list string) (dst : string) (srcIsSelf : list bool)
    (srcProvider : list VFS) (s : state W) :
  exists t,
    trace (snd (cp this po srcFilepaths dst srcIsSelf false srcProvider s)) = trace s ++ t
    /\ forallb is_download_event t = true.
Proof.
  rewrite cp_out.
  pose proof (fGetObject_trace this srcFilepaths dst s) as Htrace. cbv zeta in Htrace.
  match type of Htrace with _ = _ ++ ?t => exists t end. split.
  - destruct (fGetObject this srcFilepaths dst s) as [[r|e|] s']; exact Htrace.
  - clear Htrace. cbn [forallb is_download_event andb].
    destruct (fst (rexec_ _ _)) as [srcs|e|]; try reflexivity.
    destruct (fst (dstIsDirectory _ _)) as [d|e|]; try reflexivity.
    destruct (negb d && _); [reflexivity |].
    induction srcs as [|g srcs IH]; [reflexivity |].
    cbn [map concat]. rewrite forallb_app, IH, andb_true_r.
    now destruct (split_path this (gs_path g)) as [[b f]|].
Qed.

(** X21. Into a directory, [cp] downloads every resolved source whose
    path splits, in the order of the resolution and whether or not another
    download fails, to the file named by its key below the directory: the
    key with the folders it names, not its base name. *)
Theorem copy_out_into_directory (this : Provider) (po : ParsedOptions)
    (srcFilepaths : list string) (dst : string) (srcIsSelf : list bool)
    (srcProvider : list VFS) (srcs : list GlobStats) (s : state W) (w1 w2 : W) :
  rexec_ (vfs_ls srcFilepaths) (world s) = (Resolved srcs, w1) ->
  stat_ dst w1 = (Stats true, w2) ->
  trace (snd (cp this po srcFilepaths dst srcIsSelf false srcProvider s))
  = trace s
    ++ Rexec (vfs_ls srcFilepaths) :: Stat dst
       :: concat (map (fun g =>
                         match split_path this (gs_path g) with
                         | Some (b, f) =>
                             [FGetObject (mountName this) b f (join_path [dst; f])]
                         | None => []
                         end) srcs).
Proof.
  intros Hls Hstat. rewrite cp_out.
  pose proof (fGetObject_trace this srcFilepaths dst s) as Htrace. cbv zeta in Htrace.
  rewrite Hls in Htrace. cbn [fst snd] in Htrace.
  unfold dstIsDirectory in Htrace. cbn [world fst] in Htrace. rewrite Hstat in Htrace.
  cbn [fst negb andb] in Htrace.
  now destruct (fGetObject this srcFilepaths dst s) as [[r|e|] s'].
Qed.

(** X22. [cp] out of the store looks at the destination before it
    fetches anything.  When [fs.stat] fails for another reason than a
    missing file, [cp] is rejected with that very error; when the
    destination is not a directory and several source paths are given, it
    is rejected with [Destination is not a directory].  In both cases
    nothing is fetched, and the error is not wrapped. *)
Theorem copy_out_checks_the_destination_first (this : Provider) (po : ParsedOptions)
    (srcFilepaths : list string) (dst : string) (srcIsSelf : list bool)
    (srcProvider : list VFS) (s : state W) (answer : outcome (list GlobStats))
    (st : stat_result) (w1 w2 : W) :
  rexec_ (vfs_ls srcFilepaths) (world s) = (answer, w1) ->
  stat_ dst w1 = (st, w2) ->
  let s2 := mkState w2 (trace s ++ [Rexec (vfs_ls srcFilepaths); Stat dst]) in
  (forall err, st = StatError err -> has_code err "ENOENT" = false ->
   cp this po srcFilepaths dst srcIsSelf false srcProvider s = (Rejected err, s2))
  /\ (not_a_directory st = true -> 1 < length srcFilepaths ->
      cp this po srcFilepaths dst srcIsSelf false srcProvider s
      = (Rejected (Error "Destination is not a directory"), s2)).
Proof.
  intros Hls Hstat s2. subst s2. split.
  - intros err -> Hcode. rewrite cp_out. unfold fGetObject.
    rewrite bind_eq. unfold start at 1.
    rewrite (resolve_sources_run _ _ _ _ Hls). cbv beta iota.
    rewrite bind_eq. unfold dstIsDirectory. cbn [world trace].
    rewrite Hstat, Hcode. now rewrite <- app_assoc.
  - intros Hnot Hlen. rewrite cp_out.
    now rewrite (fGetObject_refuses_several_paths this srcFilepaths dst s answer w1 st w2
                   Hls Hstat Hnot Hlen).
Qed.

(** X23. A copy within the store copies every resolved source whose
    path splits, on the side of the store and whether or not another copy
    fails, to the bucket of the destination: under the file name of the
    destination when it has one, and under the key of the source otherwise.
    With [-s], the responder copies nothing itself: it hands one command
    [cp <source> <destination>] per resolved source to the scale-out
    runner. *)
Theorem copy_within_store_copies_every_resolved_source (this : Provider)
    (po : ParsedOptions) (srcFilepaths : list string) (dst db df : string)
    (srcs : list GlobStats) (s : state W) (w1 : W) :
  rexec_ (vfs_ls srcFilepaths) (world s) = (Resolved srcs, w1) ->
  split_path this dst = Some (db, df) ->
  trace (snd (intraCopyObject this po srcFilepaths dst s))
  = trace s
    ++ Rexec (vfs_ls srcFilepaths)
       :: (if opt_s po
           then [RunWithProgress
                   (map (fun g => "cp " +:+ encodeComponent (gs_path g) +:+ " "
                                  +:+ encodeComponent dst) srcs)]
           else concat (map (fun g =>
                               match split_path this (gs_path g) with
                               | Some (sb, sf) =>
                                   [CopyObject (mountName this) db (or_string df sf)
                                               ("/" +:+ sb +:+ "/" +:+ sf)]
                               | None => []
                               end) srcs)).
Proof.
  intros Hls Hdst. unfold intraCopyObject.
  rewrite bind_eq. unfold start at 1.
  rewrite (resolve_sources_run _ _ _ _ Hls). cbv beta iota.
  destruct (opt_s po).
  - rewrite bind_eq. unfold await at 1. rewrite bind_eq. unfold call at 1. cbn [world trace].
    destruct (runWithProgress_ _ w1) as [[r|e|] w2]; cbn [snd trace ret];
      now rewrite <- app_assoc.
  - rewrite bind_eq. unfold await at 1. rewrite bind_eq.
    match goal with
    | |- context [promise_all ?tasks ?s2] =>
        pose proof (promise_all_trace tasks
                      (map (fun g =>
                              match split_path this (gs_path g) with
                              | Some (sb, sf) =>
                                  [CopyObject (mountName this) db (or_string df sf)
                                              ("/" +:+ sb +:+ "/" +:+ sf)]
                              | None => []
                              end) srcs) s2) as Hrun;
        destruct (promise_all tasks s2) as [[etags|e|] s3]
    end.
    all: cbn [snd trace ret] in *.
    all: rewrite Hrun, <- ?app_assoc; [reflexivity | ].
    all: rewrite map_map; apply Forall2_fmap, Forall_Forall2_diag, Forall_forall.
    all: intros g _ s0; cbv beta iota zeta delta [split bind call ret throw].
    all: destruct (split_path this (gs_path g)) as [[sb sf]|]; cbn [snd trace];
      [|now rewrite app_nil_r].
    all: rewrite Hdst; now destruct (copyObject_ _ _ _ _ (world s0)) as [[r'|e'|] w'].
Qed.

(** *** Listings *)

(** X24. A listing whose stream closes without ending is the end of the
    listing for [ls], which resolves with the objects seen so far, and is
    no end at all for [rm -r], which never settles and removes nothing. *)
Theorem closed_listing_ends_ls_and_hangs_rm (this : Provider) (po : ParsedOptions)
    (s : state W) :
  (forall fp b prefix suffix items w,
     match_listing (strip_s3Prefix this fp) = Some (b, "/", prefix, suffix) ->
     listObjects_ (mountName this) b (Some prefix) false (world s)
     = (Resolved (mkStream items SClose), w) ->
     let pattern :=
       if (String.length prefix =? 0)
          && ((String.length suffix =? 0) || String.eqb suffix "*")
       then "*" else suffix in
     ls this po [fp] s
     = (Resolved (map (objectEntry this b false)
                      (filter (object_matches prefix pattern) items)),
        mkState w (trace s ++ [ListObjects (mountName this) b (Some prefix) false
                                 (Resolved (mkStream items SClose))])))
  /\ (forall fp pattern b items w1 w2,
        split_path this fp = Some (pattern, "") ->
        listBuckets_ (mountName this) (world s) = (Resolved [b], w1) ->
        isMatch b pattern = true ->
        listObjects_ (mountName this) b None true w1
        = (Resolved (mkStream items SClose), w2) ->
        rm this fp true s
        = (Pending,
           mkState w2 (trace s ++ [ListBuckets (mountName this) (Resolved [b]);
                                   ListObjects (mountName this) b None true
                                     (Resolved (mkStream items SClose))]))).
Proof.
  split.
  - intros fp b prefix suffix items w Hmatch Hlist pattern.
    assert (Hlen : (String.length (strip_s3Prefix this fp) =? 0) = false).
    { destruct (strip_s3Prefix this fp); [discriminate | reflexivity]. }
    unfold ls, dirstat, listObjects, listObjectsMatching, collectObjects. run.
    rewrite Hlen, Hmatch. cbn [String.eqb Ascii.eqb Bool.eqb andb]. run.
    rewrite Hlist. run. cbn [ending chunks]. run. now rewrite app_nil_r.
  - intros fp pattern b items w1 w2 Hsplit Hbuckets Hmatch Hlist.
    rewrite (rm_recursive_bare _ _ _ _ Hsplit).
    unfold rimraf, listBucketsMatching, listBuckets, rimraf_bucket, objectsIn. run.
    rewrite Hbuckets. run.
    rewrite filter_cons_True by (cbn [bucketEntry name]; now rewrite Hmatch).
    rewrite filter_nil. run. cbn [name bucketEntry]. rewrite Hlist. run. cbn [ending]. run.
    now rewrite <- !app_assoc.
Qed.

Lemma all_resolved_Forall {A} (P : A -> Prop) (os : list (outcome A)) (vs : list A) :
  Forall (fun o => forall a, o = Resolved a -> P a) os ->
  all_resolved os = Some vs -> Forall P vs.
Proof.
  intros Hall. revert vs. induction Hall as [|o os Ho _ IH]; intros vs; cbn [all_resolved].
  - intros [= <-]. constructor.
  - destruct o as [a| |]; try discriminate.
    destruct (all_resolved os) as [vs'|]; [|discriminate].
    intros [= <-]. constructor; [now apply Ho | now apply IH].
Qed.

(** What every task resolves with, all the results of [Promise.all] have. *)
Lemma promise_all_Forall {A} (P : A -> Prop) (tasks : list (M (state W) A))
    (s s' : state W) (vs : list A) :
  Forall (fun t => forall s0 a s1, t s0 = (Resolved a, s1) -> P a) tasks ->
  promise_all tasks s = (Resolved vs, s') -> Forall P vs.
Proof.
  intros Hall. unfold promise_all.
  assert (Hos : Forall (fun o => forall a, o = Resolved a -> P a) (fst (run_all tasks s))).
  { revert s. induction Hall as [|t tasks Ht _ IH]; intros s; [constructor |].
    cbn [run_all]. specialize (Ht s). destruct (t s) as [o s1]. specialize (IH s1).
    destruct (run_all tasks s1) as [os s2]. cbn [fst] in *.
    constructor; [|exact IH]. intros a ->. now apply (Ht a s1). }
  destruct (run_all tasks s) as [os s1]. cbn [fst] in Hos.
  intros [= Hsettle _]. apply settle_all_resolved in Hsettle.
  now apply (all_resolved_Forall P os).
Qed.

Lemma Forall_concat {A} (P : A -> Prop) (ls : list (list A)) :
  Forall (Forall P) ls -> Forall P (concat ls).
Proof.
  induction 1 as [|l ls Hl _ IH]; [constructor |].
  cbn [concat]. apply Forall_app. now split.
Qed.

Lemma listBucketsMatching_entries this pattern (s s' : state W) entries :
  listBucketsMatching this pattern s = (Resolved entries, s') ->
  Forall (fun e => exists b, e = bucketEntry this b) entries.
Proof.
  unfold listBucketsMatching, listBuckets. run.
  destruct (listBuckets_ (mountName this) (world s)) as [[bs|e|] w]; try discriminate.
  intros [= <- _]. apply Forall_forall. intros e He.
  apply list_elem_of_filter in He as [_ He].
  apply list_elem_of_fmap in He as (b & -> & _). now exists b.
Qed.

Lemma listObjectsMatching_entries this b prefix pattern (s s' : state W) entries :
  listObjectsMatching this b prefix pattern false s = (Resolved entries, s') ->
  Forall (fun e => exists o, e = objectEntry this b false o) entries.
Proof.
  unfold listObjectsMatching, collectObjects. run.
  destruct (listObjects_ (mountName this) b (Some prefix) false (world s))
    as [[[items e]|e|] w]; try discriminate.
  cbn [ending chunks]. destruct e as [| |err]; try discriminate.
  all: intros [= <- _]; apply Forall_forall; intros e He.
  all: apply list_elem_of_fmap in He as (o & -> & _); now exists o.
Qed.

(** X25. Every entry that [ls] returns is the entry of a bucket or the
    entry of an object shown under its key.  So an entry is a directory or a
    file and never both, a directory has size 0, and no entry is displayed
    under its full path. *)
Theorem ls_lists_buckets_and_objects (this : Provider) (po : ParsedOptions)
    (filepaths : list string) (s s' : state W) (entries : list DirEntry) :
  ls this po filepaths s = (Resolved entries, s') ->
  Forall (fun e => (exists b, e = bucketEntry this b)
                   \/ (exists b o, e = objectEntry this b false o)) entries
  /\ Forall (fun e => isFile e = negb (isDirectory e)
                      /\ nameForDisplay e = name e
                      /\ (isDirectory e = true -> size e = 0%Z)) entries.
Proof.
  intros Hls.
  assert (Hshape : Forall (fun e => (exists b, e = bucketEntry this b)
                                    \/ (exists b o, e = objectEntry this b false o)) entries).
  { unfold ls in Hls. rewrite bind_eq in Hls.
    destruct (promise_all _ s) as [[r|e|] s1] eqn:Hall; try discriminate.
    injection Hls as <- _. apply Forall_concat.
    eapply promise_all_Forall; [clear Hall | exact Hall].
    apply Forall_forall. intros t Ht.
    apply list_elem_of_fmap in Ht as (fp & -> & _).
    intros s0 es s2. unfold dirstat. rewrite bind_eq.
    unfold catch at 1.
    destruct (String.length (strip_s3Prefix this fp) =? 0).
    - unfold start, catch, listBuckets. run.
      destruct (listBuckets_ (mountName this) (world s0)) as [[bs|e|] w]; try discriminate.
      intros [= <- _]. apply Forall_forall. intros e He.
      apply list_elem_of_fmap in He as (b & -> & _). left. now exists b.
    - rewrite bind_eq.
      destruct (listObjects this (strip_s3Prefix this fp) (opt_d po) s0)
        as [[res|e|] s3] eqn:Hlist.
      + unfold ret, await. intros [= <- _].
        unfold listObjects in Hlist.
        destruct (match_listing (strip_s3Prefix this fp)) as [[[[b slash] prefix] suffix]|];
          [|discriminate].
        destruct (String.eqb slash "" && opt_d po).
        { eapply Forall_impl; [exact (listBucketsMatching_entries _ _ _ _ _ Hlist) |].
          intros e (b' & ->). left. now exists b'. }
        destruct (String.eqb slash "").
        * rewrite bind_eq in Hlist.
          destruct (listBucketsMatching this _ s0) as [[buckets|e|] s4]; try discriminate.
          rewrite bind_eq in Hlist.
          destruct (promise_all _ s4) as [[r'|e|] s5] eqn:Hall; try discriminate.
          injection Hlist as <- _. apply Forall_concat.
          eapply promise_all_Forall; [clear Hall | exact Hall].
          apply Forall_forall. intros t Ht.
          apply list_elem_of_fmap in Ht as (bucket & -> & _).
          intros s6 es s7 Hes.
          eapply Forall_impl; [exact (listObjectsMatching_entries _ _ _ _ _ _ _ Hes) |].
          intros e (o & ->). right. now exists (name bucket), o.
        * eapply Forall_impl; [exact (listObjectsMatching_entries _ _ _ _ _ _ _ Hlist) |].
          intros e (o & ->). right. now exists b, o.
      + unfold console_error, bind, ret, await. intros [= <- _]. constructor.
      + unfold await. discriminate. }
  split; [exact Hshape |].
  eapply Forall_impl; [exact Hshape |].
  intros e [(b & ->)|(b & o & ->)]; cbn; repeat split; discriminate.
Qed.

(** X26. [ls] of the plain path of an object (no wildcard after the
    bucket and the slash) lists the object with exactly that key, and not
    the other objects that the store returns for the key taken as a prefix:
    every entry of the result bears the key as its name. *)
Theorem ls_of_a_plain_key_lists_that_key_only (this : Provider) (po : ParsedOptions)
    (fp b key : string) (s s' : state W) (entries : list DirEntry) :
  match_listing (strip_s3Prefix this fp) = Some (b, "/", key, "") ->
  key <> "" ->
  ls this po [fp] s = (Resolved entries, s') ->
  Forall (fun e => name e = key /\ path e = join_path [mountPath this; b; key]) entries.
Proof.
  intros Hmatch Hkey.
  assert (Hlen : (String.length (strip_s3Prefix this fp) =? 0) = false).
  { destruct (strip_s3Prefix this fp); [discriminate | reflexivity]. }
  assert (Hklen : (String.length key =? 0) = false).
  { destruct key; [contradiction | reflexivity]. }
  unfold ls, dirstat, listObjects, listObjectsMatching, collectObjects. run.
  rewrite Hlen, Hmatch, Hklen. cbn [String.eqb Ascii.eqb Bool.eqb andb]. run.
  destruct (listObjects_ (mountName this) b (Some key) false (world s))
    as [[[items e]|e|] w]; run; cbn [ending chunks].
  - assert (Hall : Forall (fun e => name e = key
                                    /\ path e = join_path [mountPath this; b; key])
                     (map (objectEntry this b false)
                          (filter (object_matches key "") items))).
    { apply Forall_forall. intros e' He.
      apply list_elem_of_fmap in He as (o & -> & Ho).
      apply list_elem_of_filter in Ho as [Ho _].
      unfold object_matches in Ho. cbn [String.eqb andb negb orb] in Ho.
      rewrite orb_false_r in Ho. apply Is_true_true, String.eqb_eq in Ho.
      cbn [name path objectEntry]. now rewrite Ho. }
    destruct e as [| |err]; run; intros [= <- _]; try (now rewrite app_nil_r);
      constructor.
  - intros [= <- _]. constructor.
  - discriminate.
Qed.

Lemma run_all_app {A} (t1 t2 : list (M (state W) A)) (s : state W) :
  run_all (t1 ++ t2) s
  = (fst (run_all t1 s) ++ fst (run_all t2 (snd (run_all t1 s))),
     snd (run_all t2 (snd (run_all t1 s)))).
Proof.
  revert s. induction t1 as [|t t1 IH]; intros s.
  - cbn. now destruct (run_all t2 s).
  - cbn [app run_all]. destruct (t s) as [o s1]. rewrite IH.
    destruct (run_all t1 s1) as [os1 s2]. cbn [fst snd].
    now destruct (run_all t2 s2) as [os2 s3].
Qed.

Lemma settle_all_app {A} (os1 os2 : list (outcome A)) (vs1 vs2 : list A) :
  settle_all os1 = Resolved vs1 -> settle_all os2 = Resolved vs2 ->
  settle_all (os1 ++ os2) = Resolved (vs1 ++ vs2).
Proof.
  revert vs1. induction os1 as [|o os1 IH]; intros vs1.
  - cbn. now intros [= <-].
  - unfold settle_all in *. cbn [app first_rejected all_resolved].
    destruct o as [a|e|]; try discriminate.
    + destruct (first_rejected os1); [discriminate |].
      destruct (all_resolved os1) as [vs|]; [|discriminate].
      cbn [option_map]. intros [= <-] H2. specialize (IH vs eq_refl H2).
      destruct (first_rejected (os1 ++ os2)); [discriminate |].
      destruct (all_resolved (os1 ++ os2)); [|discriminate].
      injection IH as ->. reflexivity.
    + destruct (first_rejected os1); discriminate.
Qed.

Lemma reads_ret {A} (a : A) : reads (@ret (state W) A a).
Proof. now intros s s' Hw. Qed.

Lemma reads_throw {A} (e : error) : reads (@throw (state W) A e).
Proof. now intros s s' Hw. Qed.

Lemma reads_bind {A B} (m : M (state W) A) (k : A -> M (state W) B) :
  reads m -> (forall a, reads (k a)) -> reads (bind m k).
Proof.
  intros Hm Hk s s' Hw. unfold bind.
  destruct (Hm s s' Hw) as [Ho Hs]. destruct (Hm s' s' eq_refl) as [_ Hs'].
  destruct (m s) as [o s1], (m s') as [o' s1']. cbn [fst snd] in *. subst o'.
  destruct o as [a|e|]; [|now split..].
  destruct (Hk a s1 s1') as [Ho Hs1]; [congruence |].
  split; [exact Ho | congruence].
Qed.

Lemma reads_catch {A} (m : M (state W) A) (h : error -> M (state W) A) :
  reads m -> (forall e, reads (h e)) -> reads (catch m h).
Proof.
  intros Hm Hh s s' Hw. unfold catch.
  destruct (Hm s s' Hw) as [Ho Hs]. destruct (Hm s' s' eq_refl) as [_ Hs'].
  destruct (m s) as [o s1], (m s') as [o' s1']. cbn [fst snd] in *. subst o'.
  destruct o as [a|e|]; [now split | | now split].
  destruct (Hh e s1 s1') as [Ho Hs1]; [congruence |].
  split; [exact Ho | congruence].
Qed.

Lemma reads_start {A} (m : M (state W) A) : reads m -> reads (start m).
Proof.
  intros Hm s s' Hw. unfold start.
  destruct (Hm s s' Hw) as [Ho Hs].
  destruct (m s) as [o s1], (m s') as [o' s1']. cbn [fst snd] in *. now subst o'.
Qed.

Lemma reads_await {A} (p : outcome A) : reads (@await (state W) A p).
Proof. now intros s s' Hw. Qed.

Lemma reads_console_error msg : reads (@console_error W msg).
Proof. now intros s s' Hw. Qed.

Lemma reads_ask {A} (ev : outcome A -> event) (op : W -> outcome A * W) :
  (forall w, snd (op w) = w) -> reads (ask ev op).
Proof.
  intros Hop s s' Hw. unfold ask. rewrite <- Hw.
  specialize (Hop (world s)). destruct (op (world s)) as [o w]. now split.
Qed.

Lemma run_all_reads {A} (tasks : list (M (state W) A)) (s s' : state W) :
  Forall reads tasks -> world s = world s' ->
  fst (run_all tasks s) = fst (run_all tasks s')
  /\ world (snd (run_all tasks s)) = world s.
Proof.
  intros Hall. revert s s'. induction Hall as [|t tasks Ht _ IH]; intros s s' Hw.
  - now split.
  - cbn [run_all].
    destruct (Ht s s' Hw) as [Ho Hs]. destruct (Ht s' s' eq_refl) as [_ Hs'].
    destruct (t s) as [o s1], (t s') as [o' s1']. cbn [fst snd] in *. subst o'.
    destruct (IH s1 s1') as [Hos Hs1]; [congruence |].
    destruct (run_all tasks s1) as [os s2], (run_all tasks s1') as [os' s2'].
    cbn [fst snd] in *. subst os'. split; [reflexivity | congruence].
Qed.

Lemma reads_promise_all {A} (tasks : list (M (state W) A)) :
  Forall reads tasks -> reads (promise_all tasks).
Proof.
  intros Hall s s' Hw. unfold promise_all.
  destruct (run_all_reads tasks s s' Hall Hw) as [Hos Hs].
  destruct (run_all tasks s) as [os s1], (run_all tasks s') as [os' s1'].
  cbn [fst snd] in *. now subst os'.
Qed.

Lemma reads_map {A B} (f : A -> M (state W) B) (l : list A) :
  (forall a, reads (f a)) -> Forall reads (map f l).
Proof. intros Hf. induction l; cbn [map]; constructor; auto. Qed.

Lemma dirstat_reads this fp dashD : listings_read -> reads (dirstat this fp dashD).
Proof.
  intros [Hbuckets Hobjects].
  assert (HlistBuckets : reads (listBuckets this)).
  { apply reads_bind; [now apply reads_ask | intros; apply reads_ret]. }
  assert (Hmatching : forall pattern, reads (listBucketsMatching this pattern)).
  { intros pattern. apply reads_bind; [exact HlistBuckets | intros; apply reads_ret]. }
  assert (Hobjs : forall b prefix pattern full,
            reads (listObjectsMatching this b prefix pattern full)).
  { intros b prefix pattern full. unfold listObjectsMatching.
    apply reads_bind; [|intros; apply reads_await].
    apply reads_catch; [|intros; apply reads_throw].
    apply reads_bind; [now apply reads_ask |].
    intros objectStream. apply reads_start. unfold collectObjects.
    destruct (ending objectStream); try apply reads_ret.
    apply reads_bind; [apply reads_console_error | intros; apply reads_throw]. }
  unfold dirstat.
  apply reads_bind; [|intros; apply reads_await].
  apply reads_catch.
  2:{ intros e. apply reads_bind; [apply reads_console_error | intros; apply reads_ret]. }
  destruct (String.length fp =? 0).
  - apply reads_start, reads_catch; [exact HlistBuckets |].
    intros e. apply reads_bind; [apply reads_console_error | intros; apply reads_throw].
  - apply reads_bind; [|intros; apply reads_ret].
    unfold listObjects.
    destruct (match_listing fp) as [[[[b slash] prefix] suffix]|]; [|apply reads_throw].
    destruct (String.eqb slash "" && dashD); [apply Hmatching |].
    destruct (String.eqb slash ""); [|apply Hobjs].
    apply reads_bind; [apply Hmatching |].
    intros buckets. apply reads_bind; [|intros; apply reads_ret].
    apply reads_promise_all, reads_map. intros entry. apply Hobjs.
Qed.

(** X27. On a store whose listings are reads, listing several paths at
    once gives the entries of the first paths followed by the entries of the
    others: when [ls] of some paths resolves, and [ls] of further paths
    resolves, [ls] of all the paths resolves with the entries of the first
    followed by the entries of the second.  Every listing is answered from
    the same store, whatever the order of the answers. *)
Theorem ls_of_several_paths_concatenates (this : Provider) (po : ParsedOptions)
    (fps1 fps2 : list string) (s : state W) (e1 e2 : list DirEntry) :
  listings_read ->
  fst (ls this po fps1 s) = Resolved e1 ->
  fst (ls this po fps2 s) = Resolved e2 ->
  fst (ls this po (fps1 ++ fps2) s) = Resolved (e1 ++ e2).
Proof.
  intros Hread. unfold ls. rewrite !bind_eq. unfold promise_all.
  rewrite map_app, run_all_app.
  set (f := fun filepath => dirstat this (strip_s3Prefix this filepath) (opt_d po)).
  assert (Hall : forall fps, Forall reads (map f fps)).
  { intros fps. apply reads_map. intros fp. now apply dirstat_reads. }
  destruct (run_all_reads (map f fps2) (snd (run_all (map f fps1) s)) s (Hall fps2))
    as [Hsame _].
  { now apply (run_all_reads (map f fps1) s s (Hall fps1)). }
  rewrite Hsame.
  destruct (run_all (map f fps1) s) as [os1 s1]. cbn [fst snd].
  destruct (settle_all os1) as [r1|e|] eqn:H1; try discriminate.
  unfold ret at 1. cbn [fst]. intros [= <-].
  destruct (run_all (map f fps2) s) as [os2 s2]. cbn [fst snd].
  destruct (settle_all os2) as [r2|e|] eqn:H2; try discriminate.
  unfold ret at 1. cbn [fst]. intros [= <-].
  destruct (run_all (map f fps2) s1) as [os2' s2'].
  rewrite (settle_all_app _ _ _ _ H1 H2). unfold ret. cbn [fst].
  now rewrite concat_app.
Qed.

(** *** Searching and zipping *)

(** X28. [grep -c] resolves with the number of lines that are not empty,
    added up over the outputs of all the sources.  Without [-c] and [-l],
    [grep] resolves with the outputs as they are, one per source, unless
    every output is empty: then it is rejected with an error whose message
    is empty. *)
Theorem grep_counts_lines_or_returns_outputs (this : Provider) (po : ParsedOptions)
    (pattern : string) (fps : list string) (s : state W) (srcs : list GlobStats)
    (outs : list string) (w1 w2 : W) :
  rexec_ (vfs_ls fps) (world s) = (Resolved srcs, w1) ->
  runWithLogs_ (grep_commands pattern srcs) w1 = (Resolved outs, w2) ->
  let s' := mkState w2 (trace s ++ [Rexec (vfs_ls fps);
                                    RunWithLogs (grep_commands pattern srcs)]) in
  (opt_c po = true ->
   grep this po pattern fps s = (Resolved (GrepCount (sum_list (map count_lines outs))), s'))
  /\ (opt_c po = false -> opt_l po = false ->
      forallb (fun out => String.eqb out "") outs = true ->
      grep this po pattern fps s = (Rejected (Error ""), s'))
  /\ (opt_c po = false -> opt_l po = false ->
      forallb (fun out => String.eqb out "") outs = false ->
      grep this po pattern fps s = (Resolved (GrepMatches outs), s')).
Proof.
  intros Hls Hlogs s'. subst s'.
  assert (Hall : forallb (fun out => String.length out =? 0) outs
                 = forallb (fun out => String.eqb out "") outs).
  { clear Hlogs. induction outs as [|out outs IH]; [reflexivity |].
    cbn [forallb]. rewrite IH. now destruct out. }
  unfold grep, resolve_sources. run. rewrite Hls. run. rewrite Hlogs. run.
  rewrite <- !app_assoc. cbn [app].
  split; [|split].
  - intros ->. now rewrite foldl_sum.
  - intros -> -> Hnone. now rewrite Hall, Hnone.
  - intros -> -> Hsome. now rewrite Hall, Hsome.
Qed.

End Responder.

Lemma list_ascii_of_string_app (a b : string) :
  String.list_ascii_of_string (a +:+ b)
  = String.list_ascii_of_string a ++ String.list_ascii_of_string b.
Proof.
  induction a as [|c a IH]; [reflexivity |].
  rewrite append_cons. cbn [String.list_ascii_of_string app]. now rewrite IH.
Qed.

Lemma strip_gz_any (p : string) (c : ascii) :
  (N_of_ascii c < 128)%N -> N_of_ascii c <> 10%N -> N_of_ascii c <> 13%N ->
  strip_gz (p +:+ String c "gz") = p.
Proof.
  intros Hc Hlf Hcr. unfold strip_gz.
  rewrite list_ascii_of_string_app. cbn [String.list_ascii_of_string].
  rewrite rev_app_distr. cbn [rev app]. unfold strip_gz_rev.
  cbn [before_gz Ascii.eqb Bool.eqb andb drop_code_unit].
  unfold is_continuation. cbv zeta.
  replace (128 <=? N_of_ascii c)%N with false by (symmetry; apply N.leb_gt; lia).
  cbn [andb negb].
  replace (N_of_ascii c =? 10)%N with false by (symmetry; now apply N.eqb_neq).
  replace (N_of_ascii c =? 13)%N with false by (symmetry; now apply N.eqb_neq).
  cbn [orb]. now rewrite rev_involutive, String.string_of_list_ascii_of_string.
Qed.

Lemma strip_gz_dot (p : string) : strip_gz (p +:+ ".gz") = p.
Proof. apply (strip_gz_any p "."%char); vm_compute; [reflexivity | discriminate..]. Qed.

(** X29. [gunzip] names its output by dropping a final [gz] together with
    the character before it, whatever that character is: the [.gz] that
    [gzip] adds, and the [t] of [.tgz] as well.  A path that does not end in
    [gz] is left as it is, so that the output is piped onto the source. *)
Theorem gunzip_drops_gz_and_the_character_before (p : string) :
  strip_gz (p +:+ ".gz") = p
  /\ (forall c, (N_of_ascii c < 128)%N -> N_of_ascii c <> 10%N -> N_of_ascii c <> 13%N ->
      strip_gz (p +:+ String c "gz") = p)
  /\ (forall c1 c2, c1 <> "g"%char \/ c2 <> "z"%char ->
      strip_gz (p +:+ String c1 (String c2 "")) = p +:+ String c1 (String c2 "")).
Proof.
  split; [apply strip_gz_dot |]. split; [apply strip_gz_any |].
  intros c1 c2 Hne. unfold strip_gz.
  rewrite list_ascii_of_string_app. cbn [String.list_ascii_of_string].
  rewrite rev_app_distr. cbn [rev app]. unfold strip_gz_rev. cbn [before_gz].
  destruct (Ascii.eqb_spec c2 "z") as [->|_]; [|reflexivity].
  destruct (Ascii.eqb_spec c1 "g") as [->|_]; [|reflexivity].
  now destruct Hne.
Qed.

Section Zip.
Context {W : Type} `{Runner W}.

(** X30. [gzip] and [gunzip] run with 1024Mi of memory and 8 CPUs
    unless the caller says otherwise, and [gunzip] undoes the naming of
    [gzip].  Whatever the options of the caller, the scale-out runner is
    given its memory option, or 1024Mi when that is not set or empty, and
    its cpu option, or 8 when that is not set or zero.  [gzip] resolves the
    sources and hands the runner, in one run, the commands that pipe every
    source into the path followed by [.gz]; over sources that carry these
    names, [gunzip] hands it the commands that pipe every source back to the
    path that [gzip] read. *)
Theorem gunzip_undoes_the_naming_of_gzip (parsedOptions : Resources)
    (srcFilepaths : list string) (srcs : list GlobStats) (s : state W) (w1 w2 : W)
    (o : outcome string) :
  let resources :=
    {| memory := Some match memory parsedOptions with
                      | Some m => if String.eqb m "" then "1024Mi" else m
                      | None => "1024Mi"
                      end;
       cpu := Some match cpu parsedOptions with
                   | Some c => if (c =? 0)%Z then 8%Z else c
                   | None => 8%Z
                   end |} in
  (let commands :=
     map (fun g => "cat " +:+ encodeComponent (gs_path g) +:+ " | gzip -c - | pipe "
                   +:+ encodeComponent (gs_path g +:+ ".gz")) srcs in
   rexec_ (vfs_ls srcFilepaths) (world s) = (Resolved srcs, w1) ->
   runWithProgress_with commands resources w1 = (o, w2) ->
   gzip parsedOptions srcFilepaths s
   = (o, mkState w2 (trace s ++ [Rexec (vfs_ls srcFilepaths); RunWithProgress commands])))
  /\ (let commands :=
        map (fun g => "cat " +:+ encodeComponent (gs_path g +:+ ".gz")
                      +:+ " | gunzip -c - | pipe " +:+ encodeComponent (gs_path g)) srcs in
      rexec_ (vfs_ls srcFilepaths) (world s)
      = (Resolved (map (fun g => {| gs_path := gs_path g +:+ ".gz" |}) srcs), w1) ->
      runWithProgress_with commands resources w1 = (o, w2) ->
      gunzip parsedOptions srcFilepaths s
      = (o, mkState w2 (trace s ++ [Rexec (vfs_ls srcFilepaths); RunWithProgress commands]))).
Proof.
  intros resources.
  assert (Hres : with_defaults parsedOptions = resources).
  { subst resources. unfold with_defaults.
    destruct (memory parsedOptions) as [m|], (cpu parsedOptions) as [c|];
      try destruct (String.eqb m ""); try destruct (c =? 0)%Z; reflexivity. }
  split.
  - intros commands Hls Hrun.
    unfold gzip. rewrite bind_eq, (resolve_sources_run _ _ _ _ Hls), Hres.
    unfold call. cbn [world trace].
    change (gzip_commands srcs) with commands. rewrite Hrun. now rewrite <- app_assoc.
  - intros commands Hls Hrun.
    assert (Hcommands :
              gunzip_commands (map (fun g => {| gs_path := gs_path g +:+ ".gz" |}) srcs)
              = commands).
    { subst commands. unfold gunzip_commands. rewrite map_map.
      apply map_ext. intros g. cbn [gs_path]. now rewrite strip_gz_dot. }
    unfold gunzip. rewrite bind_eq, (resolve_sources_run _ _ _ _ Hls), Hcommands, Hres.
    unfold call. cbn [world trace]. rewrite Hrun. now rewrite <- app_assoc.
Qed.

End Zip.

(** *** On the simulated stores *)

Import SimS3 SimMore.

(** The object [a.jpg] of the bucket [photos], and a key of two lines. *)
Lemma split_reads_the_path_layout_witness :
  split_path minio "/s3/minio/photos" = Some ("photos", "")
  /\ split_path minio "/s3/minio/photos/a.jpg" = Some ("photos", "a.jpg")
  /\ split_path minio ("/s3/minio/photos/a" +:+ String (ascii_of_N 10) "b")
     = Some ("photos", "a").
Proof.
  destruct (split_reads_the_path_layout minio "photos" "a.jpg") as (Hbucket & _ & Hkey);
    [reflexivity | discriminate | reflexivity |].
  destruct (split_reads_the_path_layout minio "photos" ("a" +:+ String (ascii_of_N 10) "b"))
    as (_ & Hlines & _); [reflexivity | discriminate | reflexivity |].
  split; [exact Hbucket | split; [exact (Hkey eq_refl) | exact Hlines]].
Defined.

(** The mount path of [minio]. *)
Lemma mount_root_is_listed_and_nothing_else_witness :
  mkdir minio "/s3/minio" (start_of photos)
  = (Rejected TypeError_not_iterable, start_of photos)
  /\ rm minio "/s3/minio" true (start_of photos)
     = (Rejected (Error (message TypeError_not_iterable)), start_of photos)
  /\ ls minio no_flags ["/s3/minio"] (start_of photos)
     = (Resolved [bucketEntry minio "photos"],
        mkState photos [ListBuckets "minio" (Resolved ["photos"])]).
Proof.
  destruct (mount_root_is_listed_and_nothing_else minio no_flags "/s3/minio" (start_of photos))
    as (Hmkdir & _ & _ & Hrm & Hls); [reflexivity | left; reflexivity |].
  split; [exact Hmkdir |]. split; [exact (Hrm true) |].
  apply (Hls ["photos"] photos). vm_compute. reflexivity.
Defined.

(** A path three levels below the mount path: the bucket [videos] is
    created. *)
Lemma mkdir_creates_the_bucket_of_the_path_witness :
  exists w,
    mkdir minio "/s3/minio/videos/2020/clips" (start_of photos)
    = (Resolved tt, mkState w [MakeBucket "minio" "videos"])
    /\ buckets w !! "videos" = Some [].
Proof.
  eexists. split.
  - apply (proj1 (@mkdir_creates_the_bucket_of_the_path mem mem_world minio "/s3/minio/videos/2020/clips"
                    "videos" "2020/clips" (start_of photos) ltac:(vm_compute; reflexivity))).
    vm_compute. reflexivity.
  - vm_compute. reflexivity.
Defined.

(** An object that is not there: nothing is removed, and [rm] says [true]. *)
Lemma rm_removes_the_objects_that_match_witness :
  rm minio "/s3/minio/photos/missing.jpg" false (start_of photos)
  = (Resolved RmTrue,
     mkState photos
       [ListObjects "minio" "photos" (Some "missing.jpg") false (Resolved (mkStream [] SEnd));
        RemoveObjects "minio" "photos" []]).
Proof.
  apply (rm_removes_the_objects_that_match minio "/s3/minio/photos/missing.jpg"
           "photos" "missing.jpg" "photos" "missing.jpg" "" false [] (start_of photos)
           photos photos (Resolved tt)).
  - vm_compute. reflexivity.
  - discriminate.
  - vm_compute. reflexivity.
  - vm_compute. reflexivity.
  - vm_compute. reflexivity.
Defined.

(** [ls -d /s3/minio/pho*] *)
Lemma ls_dash_d_lists_buckets_only_witness :
  ls minio dir_flag ["/s3/minio/pho*"] (start_of photos)
  = (Resolved [bucketEntry minio "photos"],
     mkState photos [ListBuckets "minio" (Resolved ["photos"])]).
Proof.
  etransitivity.
  - apply (ls_dash_d_lists_buckets_only minio dir_flag "/s3/minio/pho*" "pho" "" "*"
             ["photos"] (start_of photos) photos); vm_compute; reflexivity.
  - vm_compute. reflexivity.
Defined.

(** The glob [none*] matches nothing in [photos]. *)
Lemma copy_of_nothing_witness :
  cp minio no_flags ["/s3/minio/photos/none*"] "/s3/minio/photos" [true] true []
     (start_of desk)
  = (Resolved (CpAll [CopyMessage "Source files not found"]),
     mkState desk [Rexec "vfs ls /s3/minio/photos/none*"])
  /\ cp minio no_flags ["/s3/minio/photos/none*"] "/s3/minio/photos" [false] true [minio_vfs]
        (start_of desk)
     = (Rejected (Error "Nothing to copy"),
        mkState desk [Rexec "vfs ls /s3/minio/photos/none*"])
  /\ cp minio no_flags ["/s3/minio/photos/none*"] "/tmp" [true] false [minio_vfs]
        (start_of desk)
     = (Resolved (CpFetched "Fetched  to /tmp"),
        mkState desk [Rexec "vfs ls /s3/minio/photos/none*"; Stat "/tmp"]).
Proof.
  destruct (@copy_of_nothing mem mem_world minio no_flags "/s3/minio/photos/none*" "/s3/minio/photos"
              (start_of desk) desk ltac:(vm_compute; reflexivity) eq_refl)
    as (Hintra & Hinter & _ & _).
  destruct (@copy_of_nothing mem mem_world minio no_flags "/s3/minio/photos/none*" "/tmp"
              (start_of desk) desk ltac:(vm_compute; reflexivity) eq_refl)
    as (_ & _ & _ & Hout).
  split; [exact Hintra |]. split; [exact (Hinter minio_vfs eq_refl) |].
  apply (Hout true desk). vm_compute. reflexivity.
Defined.

(** From [photos/a.jpg] to [photos/c.jpg], as if between two stores. *)
Lemma copy_between_stores_reads_then_writes_witness :
  exists w,
    cp minio no_flags ["/s3/minio/photos/a.jpg"] "/s3/minio/photos/c.jpg" [false] true
       [minio_vfs] (start_of desk)
    = (Resolved (CpAll [CopyMessage "Copied to object with etag etag-c.jpg"]),
       mkState w [Rexec "vfs ls /s3/minio/photos/a.jpg";
                  GetObject "minio" "photos" "a.jpg";
                  PutObject "minio" "photos" "c.jpg"]).
Proof.
  eexists. etransitivity.
  - apply (copy_between_stores_reads_then_writes minio no_flags "/s3/minio/photos/a.jpg"
             "/s3/minio/photos/c.jpg" minio_vfs (Build_GlobStats "/s3/minio/photos/a.jpg")
             "photos" "a.jpg" "photos" "c.jpg" "etag-c.jpg"
             (mkStream ["photos/a.jpg"] SEnd) (start_of desk) desk desk).
    all: vm_compute; reflexivity.
  - reflexivity.
Defined.

(** Two local files into the bucket [photos]. *)
Lemma upload_sends_every_resolved_source_witness :
  trace (snd (fPutObject minio no_flags ["/tmp/in/*"] "/s3/minio/photos" (start_of desk)))
  = [Rexec "vfs ls /tmp/in/*";
     FPutObject "minio" "photos" "a.txt" "/tmp/in/a.txt" false;
     FPutObject "minio" "photos" "b.txt" "/tmp/in/b.txt" false].
Proof.
  etransitivity.
  - apply (upload_sends_every_resolved_source minio no_flags ["/tmp/in/*"] "/s3/minio/photos"
             "photos" "" [Build_GlobStats "/tmp/in/a.txt"; Build_GlobStats "/tmp/in/b.txt"]
             (start_of desk) desk); vm_compute; reflexivity.
  - reflexivity.
Defined.

(** The objects of [photos] into the directory [/tmp]. *)
Lemma copy_out_into_directory_witness :
  trace (snd (cp minio no_flags ["/s3/minio/photos/*"] "/tmp" [true] false [minio_vfs]
                 (start_of desk)))
  = [Rexec "vfs ls /s3/minio/photos/*"; Stat "/tmp";
     FGetObject "minio" "photos" "a.jpg" "/tmp/a.jpg";
     FGetObject "minio" "photos" "b.jpg" "/tmp/b.jpg"].
Proof.
  etransitivity.
  - apply (copy_out_into_directory minio no_flags ["/s3/minio/photos/*"] "/tmp" [true]
           [minio_vfs]
           [Build_GlobStats "/s3/minio/photos/a.jpg"; Build_GlobStats "/s3/minio/photos/b.jpg"]
           (start_of desk) desk desk); vm_compute; reflexivity.
  - reflexivity.
Defined.

(** Two source paths and the new file [/tmp/out]. *)
Lemma copy_out_checks_the_destination_first_witness :
  cp minio no_flags ["/s3/minio/photos/a.jpg"; "/s3/minio/photos/b.jpg"] "/tmp/out"
     [true; true] false [minio_vfs; minio_vfs] (start_of desk)
  = (Rejected (Error "Destination is not a directory"),
     mkState desk [Rexec "vfs ls /s3/minio/photos/a.jpg /s3/minio/photos/b.jpg";
                   Stat "/tmp/out"]).
Proof.
  destruct (@copy_out_checks_the_destination_first mem mem_world minio no_flags
              ["/s3/minio/photos/a.jpg"; "/s3/minio/photos/b.jpg"] "/tmp/out"
              [true; true] [minio_vfs; minio_vfs] (start_of desk)
              (Resolved [Build_GlobStats "/s3/minio/photos/a.jpg";
                         Build_GlobStats "/s3/minio/photos/b.jpg"])
              (StatError {| message := "ENOENT: no such file or directory";
                            code := Some "ENOENT"; httpstatuscode := None |}) desk desk
              ltac:(vm_compute; reflexivity) ltac:(vm_compute; reflexivity)) as [_ Hguard].
  apply Hguard; [vm_compute; reflexivity | vm_compute; lia].
Defined.

(** The two objects of [photos], copied onto the bucket, one by one and
    with [-s]. *)
Lemma copy_within_store_copies_every_resolved_source_witness :
  trace (snd (intraCopyObject minio no_flags ["/s3/minio/photos/*"] "/s3/minio/photos"
                (start_of desk)))
  = [Rexec "vfs ls /s3/minio/photos/*";
     CopyObject "minio" "photos" "a.jpg" "/photos/a.jpg";
     CopyObject "minio" "photos" "b.jpg" "/photos/b.jpg"]
  /\ trace (snd (intraCopyObject minio scale_flag ["/s3/minio/photos/*"] "/s3/minio/photos"
                   (start_of desk)))
     = [Rexec "vfs ls /s3/minio/photos/*";
        RunWithProgress ["cp /s3/minio/photos/a.jpg /s3/minio/photos";
                         "cp /s3/minio/photos/b.jpg /s3/minio/photos"]].
Proof.
  split.
  - etransitivity.
    + apply (copy_within_store_copies_every_resolved_source minio no_flags
             ["/s3/minio/photos/*"] "/s3/minio/photos" "photos" ""
             [Build_GlobStats "/s3/minio/photos/a.jpg"; Build_GlobStats "/s3/minio/photos/b.jpg"]
             (start_of desk) desk); vm_compute; reflexivity.
    + reflexivity.
  - etransitivity.
    + apply (copy_within_store_copies_every_resolved_source minio scale_flag
             ["/s3/minio/photos/*"] "/s3/minio/photos" "photos" ""
             [Build_GlobStats "/s3/minio/photos/a.jpg"; Build_GlobStats "/s3/minio/photos/b.jpg"]
             (start_of desk) desk); vm_compute; reflexivity.
    + reflexivity.
Defined.

(** The store whose listings close. *)
Lemma closed_listing_ends_ls_and_hangs_rm_witness :
  @ls unit closing minio no_flags ["/s3/minio/logs/"] (mkState tt [])
  = (Resolved [objectEntry minio "logs" false (item "a.log")],
     mkState tt [ListObjects "minio" "logs" (Some "") false
                   (Resolved (mkStream [item "a.log"] SClose))])
  /\ @rm unit closing minio "/s3/minio/logs" true (mkState tt [])
     = (Pending,
        mkState tt [ListBuckets "minio" (Resolved ["logs"]);
                    ListObjects "minio" "logs" None true
                      (Resolved (mkStream [item "a.log"] SClose))]).
Proof.
  destruct (@closed_listing_ends_ls_and_hangs_rm unit closing minio no_flags (mkState tt []))
    as [Hls Hrm].
  split.
  - etransitivity;
      [apply (Hls "/s3/minio/logs/" "logs" "" "" [item "a.log"] tt); vm_compute; reflexivity
      | reflexivity].
  - etransitivity;
      [apply (Hrm "/s3/minio/logs" "logs" "logs" [item "a.log"] tt tt); vm_compute; reflexivity
      | reflexivity].
Defined.

(** The listing of the mount root and of the bucket [photos]. *)
Lemma ls_lists_buckets_and_objects_witness :
  exists entries,
    fst (ls minio no_flags ["/s3/minio"; "/s3/minio/photos/"] (start_of photos))
    = Resolved entries
    /\ length entries = 3
    /\ Forall (fun e => isFile e = negb (isDirectory e)
                        /\ nameForDisplay e = name e
                        /\ (isDirectory e = true -> size e = 0%Z)) entries.
Proof.
  eexists. split; [vm_compute; reflexivity |]. split; [reflexivity |].
  apply (proj2 (@ls_lists_buckets_and_objects mem mem_world minio no_flags
                  ["/s3/minio"; "/s3/minio/photos/"] (start_of photos)
                  (snd (@ls mem mem_world minio no_flags ["/s3/minio"; "/s3/minio/photos/"]
                           (start_of photos))) _
                  ltac:(vm_compute; reflexivity))).
Defined.

(** The key [a.jpg] of [photos]. *)
Lemma ls_of_a_plain_key_lists_that_key_only_witness :
  exists entries,
    fst (ls minio no_flags ["/s3/minio/photos/a.jpg"] (start_of photos)) = Resolved entries
    /\ Forall (fun e => name e = "a.jpg" /\ path e = "/s3/minio/photos/a.jpg") entries.
Proof.
  eexists. split; [vm_compute; reflexivity |].
  apply (@ls_of_a_plain_key_lists_that_key_only mem mem_world minio no_flags
           "/s3/minio/photos/a.jpg" "photos" "a.jpg" (start_of photos)
           (snd (@ls mem mem_world minio no_flags ["/s3/minio/photos/a.jpg"]
                    (start_of photos))));
    [vm_compute; reflexivity | discriminate | vm_compute; reflexivity].
Defined.

(** The mount root, then the bucket [photos]: the in-memory store is left
    as it is by its listings. *)
Lemma ls_of_several_paths_concatenates_witness :
  fst (ls minio no_flags ["/s3/minio"; "/s3/minio/photos/"] (start_of photos))
  = Resolved [bucketEntry minio "photos";
              objectEntry minio "photos" false (item "a.jpg");
              objectEntry minio "photos" false (item "b.jpg")].
Proof.
  apply (ls_of_several_paths_concatenates minio no_flags ["/s3/minio"] ["/s3/minio/photos/"]
           (start_of photos) [bucketEntry minio "photos"]
           [objectEntry minio "photos" false (item "a.jpg");
            objectEntry minio "photos" false (item "b.jpg")]).
  - split; intros; cbn; unfold sim_listObjects, guarded; repeat case_match; reflexivity.
  - vm_compute. reflexivity.
  - vm_compute. reflexivity.
Defined.

(** [grep -c Exif] over the two objects of [photos]: two lines and one. *)
Lemma grep_counts_lines_or_returns_outputs_witness :
  grep minio count_flag "Exif" ["/s3/minio/photos/*"] (start_of desk)
  = (Resolved (GrepCount 3),
     mkState desk [Rexec "vfs ls /s3/minio/photos/*";
                   RunWithLogs ["cat /s3/minio/photos/a.jpg | grep Exif";
                                "cat /s3/minio/photos/b.jpg | grep Exif"]]).
Proof.
  destruct (@grep_counts_lines_or_returns_outputs mem mem_world minio count_flag "Exif"
              ["/s3/minio/photos/*"] (start_of desk)
              [Build_GlobStats "/s3/minio/photos/a.jpg"; Build_GlobStats "/s3/minio/photos/b.jpg"]
              [String "E" (String (ascii_of_N 10) (String "E" (String (ascii_of_N 10) "")));
               String "E" (String (ascii_of_N 10) "")]
              desk desk ltac:(vm_compute; reflexivity) ltac:(vm_compute; reflexivity))
    as (Hcount & _ & _).
  exact (Hcount eq_refl).
Defined.

(** The archive [a.tgz] and the image [a.jpg]. *)
Lemma gunzip_drops_gz_and_the_character_before_witness :
  strip_gz "a.tgz" = "a." /\ strip_gz "a.jpg" = "a.jpg".
Proof.
  destruct (gunzip_drops_gz_and_the_character_before "a.") as (_ & Hany & _).
  destruct (gunzip_drops_gz_and_the_character_before "a.j") as (_ & _ & Hnone).
  split.
  - apply (Hany "t"%char); vm_compute; [reflexivity | discriminate..].
  - apply (Hnone "p"%char "g"%char). left. discriminate.
Defined.

(** The object [a.jpg] of [photos] with an empty memory option and no cpu
    option, and its zipped form [a.jpg.gz] with two CPUs asked for. *)
Lemma gunzip_undoes_the_naming_of_gzip_witness :
  gzip {| memory := Some ""; cpu := None |} ["/s3/minio/photos/a.jpg"] (start_of desk)
  = (Resolved "memory 1024Mi, cpu 8",
     mkState desk [Rexec "vfs ls /s3/minio/photos/a.jpg";
                   RunWithProgress
                     ["cat /s3/minio/photos/a.jpg | gzip -c - | pipe /s3/minio/photos/a.jpg.gz"]])
  /\ gunzip {| memory := None; cpu := Some 2%Z |} ["/s3/minio/photos/*.gz"] (start_of desk)
     = (Resolved "memory 1024Mi, cpu 2",
        mkState desk [Rexec "vfs ls /s3/minio/photos/*.gz";
                      RunWithProgress
                        ["cat /s3/minio/photos/a.jpg.gz | gunzip -c - | pipe /s3/minio/photos/a.jpg"]]).
Proof.
  split.
  - etransitivity;
      [apply (proj1 (@gunzip_undoes_the_naming_of_gzip mem mem_world mem_runner
                      {| memory := Some ""; cpu := None |}
                      ["/s3/minio/photos/a.jpg"] [Build_GlobStats "/s3/minio/photos/a.jpg"]
                      (start_of desk) desk desk (Resolved "memory 1024Mi, cpu 8")));
       vm_compute; reflexivity
      | reflexivity].
  - etransitivity;
      [apply (proj2 (@gunzip_undoes_the_naming_of_gzip mem mem_world mem_runner
                      {| memory := None; cpu := Some 2%Z |}
                      ["/s3/minio/photos/*.gz"] [Build_GlobStats "/s3/minio/photos/a.jpg"]
                      (start_of desk) desk desk (Resolved "memory 1024Mi, cpu 2")));
       vm_compute; reflexivity
      | reflexivity].
Defined.

End S3More.
